(** * RethinkDB: the metablock record and the thread pool life cycle

    A shallow embedding of
    - [src/serializer/log/metablock/metablock_manager.hpp]
      (the CRC-protected metablock record [crc_metablock_t], the cursor
      [head_t], the constants of the ring), and
    - [src/arch/runtime/thread_pool.cc]
      (construction, start-up barrier, signal handlers and shutdown of
      [linux_thread_pool_t]),
    together with the properties the specification states about them. *)

From Stdlib Require Import ZArith List Lia Bool.
From Stdlib Require Import Strings.Byte Strings.String.
From stdpp Require Import base list gmap strings.

Local Open Scope Z_scope.

(** ** Machine integers *)

Module MachineInt.

(** [uint32_t]: arithmetic modulo [2^32]. *)
Definition uint32_wrap (z : Z) : Z := z mod 2 ^ 32.

(** [int] on the platforms the code targets (Linux, x86 and x86-64) is a
    32-bit two's complement integer of four bytes. *)
Definition int_bits : Z := 32.
Definition sizeof_int : nat := 4.
Definition INT_MIN : Z := - 2 ^ 31.
Definition INT_MAX : Z := 2 ^ 31 - 1.

(** Storing a value into an [int] keeps its low 32 bits, read as signed. *)
Definition int_wrap (z : Z) : Z := (z + 2 ^ 31) mod 2 ^ 32 - 2 ^ 31.

Definition in_int (z : Z) : Prop := INT_MIN <= z <= INT_MAX.

Lemma int_wrap_id z : in_int z -> int_wrap z = z.
Proof.
  unfold in_int, INT_MIN, INT_MAX, int_wrap. intros Hz.
  rewrite Z.mod_small; lia.
Qed.

Lemma int_wrap_range z : in_int (int_wrap z).
Proof.
  unfold in_int, INT_MIN, INT_MAX, int_wrap.
  pose proof (Z.mod_pos_bound (z + 2 ^ 31) (2 ^ 32) ltac:(lia)). lia.
Qed.

Lemma uint32_wrap_id z : 0 <= z < 2 ^ 32 -> uint32_wrap z = z.
Proof. intros Hz. unfold uint32_wrap. now rewrite Z.mod_small. Qed.

Definition byte_val (b : byte) : Z := Z.of_N (Byte.to_N b).

Lemma byte_val_range b : 0 <= byte_val b < 256.
Proof.
  unfold byte_val. pose proof (Byte.to_N_bounded b). lia.
Qed.

(** The byte holding the low eight bits of [z]. *)
Definition low_byte (z : Z) : byte :=
  match Byte.of_N (Z.to_N (z mod 256)) with
  | Some b => b
  | None => x00
  end.

Lemma byte_val_low_byte z : byte_val (low_byte z) = z mod 256.
Proof.
  unfold low_byte, byte_val.
  pose proof (Z.mod_pos_bound z 256 ltac:(lia)) as Hm.
  destruct (Byte.of_N (Z.to_N (z mod 256))) as [b|] eqn:E.
  - apply Byte.to_of_N in E. rewrite E. lia.
  - exfalso.
    pose proof (Byte.to_of_N_option_map (Z.to_N (z mod 256))) as Ho.
    rewrite E in Ho. simpl in Ho.
    destruct (N.leb_spec (Z.to_N (z mod 256)) 255); [discriminate | lia].
Qed.

(** Little-endian object representation of an integer on [n] bytes. *)
Fixpoint encode_le (n : nat) (z : Z) : list byte :=
  match n with
  | O => []
  | S n' => low_byte z :: encode_le n' (z / 256)
  end.

Fixpoint decode_le (bs : list byte) : Z :=
  match bs with
  | [] => 0
  | b :: bs' => byte_val b + 256 * decode_le bs'
  end.

Lemma length_encode_le n z : length (encode_le n z) = n.
Proof. revert z. induction n as [|n IH]; intros z; simpl; [|rewrite IH]; reflexivity. Qed.

Lemma decode_encode_le n z :
  decode_le (encode_le n z) = z mod 2 ^ (8 * Z.of_nat n).
Proof.
  revert z. induction n as [|n IH]; intros z.
  - simpl. now rewrite Z.mod_1_r.
  - cbn [encode_le decode_le]. rewrite byte_val_low_byte, IH.
    replace (8 * Z.of_nat (S n)) with (8 + 8 * Z.of_nat n) by lia.
    rewrite Z.pow_add_r by lia. change (2 ^ 8) with 256.
    rewrite Z.rem_mul_r by lia. reflexivity.
Qed.

End MachineInt.

(** ** [boost::crc_optimal]

    [crc_metablock_t::crc] instantiates the Boost CRC template
    [crc_optimal<Bits, TruncPoly, InitRem, FinalXor, ReflectIn, ReflectRem>].
    Boost is not part of the repository; the template is embedded by the
    parametrised model its documentation gives for these six parameters:
    the register starts at [InitRem]; every input byte is bit-reversed when
    [ReflectIn] holds, enters at the top of the register and is followed by
    eight shifts, each reducing by [TruncPoly] when a one leaves the
    register; [checksum] bit-reverses the register when [ReflectRem] holds
    and combines it with [FinalXor]. *)

Module Crc.
Import MachineInt.

Record crc_params := {
  Bits : Z;
  TruncPoly : Z;
  InitRem : Z;
  FinalXor : Z;
  ReflectIn : bool;
  ReflectRem : bool
}.

(** Reversal of the low [n] bits of [x]. *)
Fixpoint reflect (n : nat) (x : Z) : Z :=
  match n with
  | O => 0
  | S n' => Z.lor (Z.shiftl (Z.land x 1) (Z.of_nat n')) (reflect n' (Z.shiftr x 1))
  end.

Section Model.
Variable P : crc_params.

Definition shift_bit (rem : Z) : Z :=
  let shifted := Z.land (Z.shiftl rem 1) (Z.ones (Bits P)) in
  if Z.testbit rem (Bits P - 1) then Z.lxor shifted (TruncPoly P) else shifted.

Definition process_byte (rem : Z) (b : byte) : Z :=
  let v := if ReflectIn P then reflect 8 (byte_val b) else byte_val b in
  Nat.iter 8 shift_bit (Z.lxor rem (Z.shiftl v (Bits P - 8))).

Definition process_bytes (rem : Z) (bs : list byte) : Z :=
  fold_left process_byte bs rem.

Definition checksum (rem : Z) : Z :=
  Z.lxor (if ReflectRem P then reflect (Z.to_nat (Bits P)) rem else rem) (FinalXor P).

Definition crc_optimal (bs : list byte) : Z :=
  checksum (process_bytes (InitRem P) bs).
End Model.

(** The standard CRC-32 (IEEE 802.3, zlib, PNG) in its usual
    least-significant-bit-first formulation, with the bit-reversed
    polynomial [0xEDB88320].  This definition follows the wording of the
    specification and is compared with the instance used by the code. *)
Definition crc32_shift (c : Z) : Z :=
  if Z.testbit c 0 then Z.lxor (Z.shiftr c 1) 0xEDB88320 else Z.shiftr c 1.

Definition crc32_update (c : Z) (b : byte) : Z :=
  Nat.iter 8 crc32_shift (Z.lxor c (byte_val b)).

Definition standard_crc32 (bs : list byte) : Z :=
  Z.lxor (fold_left crc32_update bs 0xFFFFFFFF) 0xFFFFFFFF.

(** The instance of the template written in [crc_metablock_t::crc]. *)
Definition metablock_crc_params : crc_params :=
  {| Bits := 32; TruncPoly := 0x04C11DB7; InitRem := 0xFFFFFFFF;
     FinalXor := 0xFFFFFFFF; ReflectIn := true; ReflectRem := true |}.

(** *** Bit-level facts *)

Lemma land_1_testbit x k : 0 <= k -> Z.testbit (Z.land x 1) k = (k =? 0) && Z.testbit x 0.
Proof.
  intros Hk. change 1 with (Z.ones 1). rewrite Z.land_ones by lia.
  destruct (Z.eqb_spec k 0) as [->|Hne].
  - now rewrite Z.mod_pow2_bits_low by lia.
  - now rewrite Z.mod_pow2_bits_high by lia.
Qed.

Lemma testbit_reflect n x i :
  0 <= i ->
  Z.testbit (reflect n x) i = (i <? Z.of_nat n) && Z.testbit x (Z.of_nat n - 1 - i).
Proof.
  revert x i. induction n as [|n IH]; intros x i Hi.
  - cbn [reflect]. rewrite Z.bits_0.
    destruct (Z.ltb_spec i (Z.of_nat 0)); [lia | reflexivity].
  - cbn [reflect]. rewrite Z.lor_spec, IH by lia.
    rewrite Z.shiftl_spec by lia.
    destruct (Z.ltb_spec i (Z.of_nat n)) as [Hlt|Hge].
    + rewrite Z.testbit_neg_r by lia. rewrite Z.shiftr_spec by lia.
      destruct (Z.ltb_spec i (Z.of_nat (S n))); [|lia].
      replace (Z.of_nat (S n) - 1 - i) with (Z.of_nat n - 1 - i + 1) by lia.
      reflexivity.
    + rewrite land_1_testbit by lia. rewrite orb_false_r.
      destruct (Z.eqb_spec (i - Z.of_nat n) 0) as [He|Hne].
      * destruct (Z.ltb_spec i (Z.of_nat (S n))); [|lia].
        replace (Z.of_nat (S n) - 1 - i) with 0 by lia. reflexivity.
      * destruct (Z.ltb_spec i (Z.of_nat (S n))); [lia|]. reflexivity.
Qed.

Lemma reflect_lxor n a b :
  reflect n (Z.lxor a b) = Z.lxor (reflect n a) (reflect n b).
Proof.
  apply Z.bits_inj'. intros i Hi.
  rewrite Z.lxor_spec, !testbit_reflect, Z.lxor_spec by lia.
  now destruct (i <? Z.of_nat n).
Qed.

Lemma reflect_nonneg n x : 0 <= reflect n x.
Proof.
  revert x. induction n as [|n IH]; intros x; cbn [reflect]; [lia|].
  apply Z.lor_nonneg. split; [|apply IH].
  apply Z.shiftl_nonneg, Z.land_nonneg. right. lia.
Qed.

Lemma bits_above_small x n :
  0 <= n -> 0 <= x -> (forall i, n <= i -> Z.testbit x i = false) -> x < 2 ^ n.
Proof.
  intros Hn Hx Hbits.
  assert (x = x mod 2 ^ n) as ->.
  { apply Z.bits_inj'. intros i Hi.
    destruct (Z.lt_ge_cases i n).
    - now rewrite Z.mod_pow2_bits_low.
    - rewrite Z.mod_pow2_bits_high by lia. now apply Hbits. }
  apply Z.mod_pos_bound. now apply Z.pow_pos_nonneg.
Qed.

Lemma reflect_range n x : 0 <= reflect n x < 2 ^ Z.of_nat n.
Proof.
  split; [apply reflect_nonneg|].
  apply bits_above_small; [lia | apply reflect_nonneg |].
  intros i Hi. rewrite testbit_reflect by lia.
  now destruct (Z.ltb_spec i (Z.of_nat n)); [lia|].
Qed.

Lemma lxor_range n a b :
  0 <= n -> 0 <= a < 2 ^ n -> 0 <= b < 2 ^ n -> 0 <= Z.lxor a b < 2 ^ n.
Proof.
  intros Hn Ha Hb.
  assert (0 <= Z.lxor a b) as Hnn by (apply Z.lxor_nonneg; lia).
  split; [exact Hnn|].
  apply bits_above_small; [lia | exact Hnn |].
  intros i Hi. rewrite Z.lxor_spec.
  assert (forall c, 0 <= c < 2 ^ n -> Z.testbit c i = false) as Hhigh.
  { intros c Hc. rewrite <- (Z.mod_small c (2 ^ n)) by lia.
    apply Z.mod_pow2_bits_high. lia. }
  now rewrite (Hhigh a Ha), (Hhigh b Hb).
Qed.

(** *** The template instance is the standard CRC-32 *)

Lemma reflect_shift_bit s :
  reflect 32 (shift_bit metablock_crc_params s) = crc32_shift (reflect 32 s).
Proof.
  unfold shift_bit, crc32_shift. cbn [Bits TruncPoly metablock_crc_params].
  assert (reflect 32 (Z.land (Z.shiftl s 1) (Z.ones 32)) = Z.shiftr (reflect 32 s) 1)
    as Hshift.
  { apply Z.bits_inj'. intros i Hi.
    rewrite Z.shiftr_spec, !testbit_reflect by lia.
    change (Z.of_nat 32) with 32.
    destruct (Z.ltb_spec i 32) as [Hlt|Hge].
    - rewrite Z.land_spec, Z.testbit_ones_nonneg by lia.
      destruct (Z.ltb_spec (32 - 1 - i) 32); [|lia]. rewrite andb_true_r.
      rewrite Z.shiftl_spec by lia.
      destruct (Z.ltb_spec (i + 1) 32) as [Hlt'|Hge'].
      + cbn [andb]. f_equal. lia.
      + cbn [andb]. apply Z.testbit_neg_r. lia.
    - destruct (Z.ltb_spec (i + 1) 32); [lia|]. reflexivity. }
  replace (Z.testbit (reflect 32 s) 0) with (Z.testbit s (32 - 1)).
  2:{ rewrite testbit_reflect by lia. reflexivity. }
  destruct (Z.testbit s (32 - 1)).
  - rewrite reflect_lxor, Hshift. reflexivity.
  - exact Hshift.
Qed.

Lemma reflect_iter_shift_bit k s :
  reflect 32 (Nat.iter k (shift_bit metablock_crc_params) s) =
  Nat.iter k crc32_shift (reflect 32 s).
Proof.
  induction k as [|k IH]; [reflexivity|].
  rewrite !Nat.iter_succ. now rewrite reflect_shift_bit, IH.
Qed.

Lemma reflect_input_byte b :
  reflect 32 (Z.shiftl (reflect 8 (byte_val b)) (32 - 8)) = byte_val b.
Proof.
  pose proof (byte_val_range b) as Hb.
  apply Z.bits_inj'. intros i Hi.
  rewrite testbit_reflect by lia. change (Z.of_nat 32) with 32.
  destruct (Z.ltb_spec i 8) as [Hlt|Hge].
  - destruct (Z.ltb_spec i 32); [|lia]. cbn [andb].
    rewrite Z.shiftl_spec, testbit_reflect by lia. change (Z.of_nat 8) with 8.
    destruct (Z.ltb_spec (32 - 1 - i - (32 - 8)) 8); [|lia]. cbn [andb].
    f_equal. lia.
  - assert (Z.testbit (byte_val b) i = false) as ->.
    { rewrite <- (Z.mod_small (byte_val b) (2 ^ 8)) by (change (2 ^ 8) with 256; lia).
      apply Z.mod_pow2_bits_high. lia. }
    destruct (Z.ltb_spec i 32); [|reflexivity]. cbn [andb].
    rewrite Z.shiftl_spec by lia. apply Z.testbit_neg_r. lia.
Qed.

Lemma reflect_process_byte s b :
  reflect 32 (process_byte metablock_crc_params s b) = crc32_update (reflect 32 s) b.
Proof.
  unfold process_byte, crc32_update. cbn [Bits ReflectIn metablock_crc_params].
  now rewrite reflect_iter_shift_bit, reflect_lxor, reflect_input_byte.
Qed.

Lemma reflect_process_bytes bs s :
  reflect 32 (process_bytes metablock_crc_params s bs) =
  fold_left crc32_update bs (reflect 32 s).
Proof.
  revert s. induction bs as [|b bs IH]; intros s; [reflexivity|].
  unfold process_bytes in *. cbn [fold_left].
  now rewrite IH, reflect_process_byte.
Qed.

Theorem crc_optimal_is_standard_crc32 bs :
  crc_optimal metablock_crc_params bs = standard_crc32 bs.
Proof.
  unfold crc_optimal, checksum, standard_crc32.
  cbn [Bits ReflectRem FinalXor InitRem metablock_crc_params].
  change (Z.to_nat 32) with 32%nat.
  now rewrite reflect_process_bytes.
Qed.

Lemma crc_optimal_range bs :
  0 <= crc_optimal metablock_crc_params bs < 2 ^ 32.
Proof.
  unfold crc_optimal, checksum.
  cbn [Bits ReflectRem FinalXor metablock_crc_params].
  apply lxor_range; [lia | | lia].
  change (Z.to_nat 32) with 32%nat. apply (reflect_range 32).
Qed.

(** The check value of the CRC-32 catalogue: the ASCII digits 1 to 9. *)
Definition check_input : list byte := [x31; x32; x33; x34; x35; x36; x37; x38; x39].

Example crc_optimal_check_value :
  crc_optimal metablock_crc_params check_input = 0xCBF43926.
Proof. vm_compute. reflexivity. Qed.

End Crc.

(** ** The metablock record: [metablock_manager_t<metablock_t>::crc_metablock_t] *)

(** The manager is a template over the payload type [metablock_t]; all it
    does with a payload is to copy it and to hand its object representation
    ([&metablock], [sizeof(metablock)] bytes) to the CRC. *)
Class ObjectRepr (T : Type) := object_bytes : T -> list byte.

#[export] Instance raw_bytes_repr : ObjectRepr (list byte) := fun bs => bs.

Module Metablock.
Import MachineInt Crc.

(** [#define MB_NEXTENTS 2] and [#define MB_EXTENT_SEPERATION 4]. *)
Definition MB_NEXTENTS : Z := 2.
Definition MB_EXTENT_SEPERATION : Z := 4.

(** [const static uint32_t poly = 0x1337BEEF;] a member of the manager that
    [crc_metablock_t::crc] does not read. *)
Definition poly : Z := 0x1337BEEF.

Section Record_.
Context {metablock_t : Type} `{ObjectRepr metablock_t}.

(** The struct without the [SERIALIZER_MARKERS] fields, which are
    compiled out by default and never read by the member functions. *)
Record crc_metablock_t := {
  _crc : Z;                 (* uint32_t *)
  version : Z;              (* int *)
  metablock : metablock_t
}.

Definition crc (r : crc_metablock_t) : Z :=
  crc_optimal metablock_crc_params (object_bytes (metablock r)).

Definition set_crc (r : crc_metablock_t) : crc_metablock_t :=
  {| _crc := crc r; version := version r; metablock := metablock r |}.

Definition check_crc (r : crc_metablock_t) : bool :=
  _crc r =? crc r.

(** Assignment to the [version] field, an [int]. *)
Definition set_version (v : Z) (r : crc_metablock_t) : crc_metablock_t :=
  {| _crc := _crc r; version := int_wrap v; metablock := metablock r |}.

(** Object representation of the [version] field on the little-endian
    machines the code runs on, and the value read back from it. *)
Definition version_bytes (r : crc_metablock_t) : list byte :=
  encode_le sizeof_int (version r).

Definition version_of_bytes (bs : list byte) : Z := int_wrap (decode_le bs).

End Record_.

Arguments crc_metablock_t metablock_t : clear implicits.

(** *** The cursor [head_t]

    The struct is declared in the header; its fields are [uint32_t] except
    [extent_size] ([size_t]) and [wraparound] ([bool]). *)
Record head_t := {
  mb_slot : Z;
  extent : Z;
  saved_mb_slot : Z;
  saved_extent : Z;
  extent_size : Z;
  wraparound : bool
}.

(** [enum state_t] of the manager. *)
Inductive state_t :=
| state_unstarted
| state_reading
| state_reading_header
| state_writing_header
| state_ready
| state_writing
| state_shut_down.

Section Ring.
(** Size of the static header that precedes the metablock region, and
    [sizeof(crc_metablock_t)]; both come from declarations outside the
    header ([static_header.hpp], the payload type). *)
Variable static_header_size : Z.
Variable sizeof_crc_metablock : Z.

Definition slots_per_extent (h : head_t) : Z := extent_size h / sizeof_crc_metablock.

(** Modelled from the spec: the constructor [head_t::head_t], defined like
    the other members of [head_t] in [metablock_manager.tcc], which is not
    among the sources.  It puts the cursor on slot 0 of extent 0 with
    [wraparound] false; the saved position, about which the specification
    is silent, starts there too. *)
Definition head_init (es : Z) : head_t :=
  {| mb_slot := 0; extent := 0; saved_mb_slot := 0; saved_extent := 0;
     extent_size := es; wraparound := false |}.

(** Modelled from the spec: [head_t::operator++], defined in
    [metablock_manager.tcc], which is not among the sources.  The slot
    advances; when it reaches [slots_per_extent] it returns to 0 and the
    extent advances modulo [MB_NEXTENTS]; [wraparound] becomes true when the
    cursor comes back to slot 0 of extent 0 and stays true.  The counters
    are [uint32_t], as the header declares them. *)
Definition incr (h : head_t) : head_t :=
  let slot' := uint32_wrap (mb_slot h + 1) in
  if slots_per_extent h <=? slot' then
    let extent' := uint32_wrap (extent h + 1) mod MB_NEXTENTS in
    {| mb_slot := 0; extent := extent';
       saved_mb_slot := saved_mb_slot h; saved_extent := saved_extent h;
       extent_size := extent_size h;
       wraparound := wraparound h || (extent' =? 0) |}
  else
    {| mb_slot := slot'; extent := extent h;
       saved_mb_slot := saved_mb_slot h; saved_extent := saved_extent h;
       extent_size := extent_size h;
       wraparound := wraparound h |}.

(** Modelled from the spec: [head_t::offset], defined in
    [metablock_manager.tcc], which is not among the sources. *)
Definition offset (h : head_t) : Z :=
  static_header_size
  + (extent h * MB_EXTENT_SEPERATION) * extent_size h
  + mb_slot h * sizeof_crc_metablock.

(** Modelled from the spec: [head_t::push], defined in
    [metablock_manager.tcc], which is not among the sources; it saves the
    position of the cursor (a stack of depth one). *)
Definition push (h : head_t) : head_t :=
  {| mb_slot := mb_slot h; extent := extent h;
     saved_mb_slot := mb_slot h; saved_extent := extent h;
     extent_size := extent_size h; wraparound := wraparound h |}.

(** Modelled from the spec: [head_t::pop], defined in
    [metablock_manager.tcc], which is not among the sources; it moves the
    cursor back to the saved position. *)
Definition pop (h : head_t) : head_t :=
  {| mb_slot := saved_mb_slot h; extent := saved_extent h;
     saved_mb_slot := saved_mb_slot h; saved_extent := saved_extent h;
     extent_size := extent_size h; wraparound := wraparound h |}.

(** The cursor is on the saved position. *)
Definition at_saved (h : head_t) : bool :=
  (mb_slot h =? saved_mb_slot h) && (extent h =? saved_extent h).

(** Position of a cursor in ring order, and the number of slots of the ring. *)
Definition ring_index (h : head_t) : Z := extent h * slots_per_extent h + mb_slot h.
Definition saved_index (h : head_t) : Z :=
  saved_extent h * slots_per_extent h + saved_mb_slot h.
Definition ring_size (es : Z) : Z := MB_NEXTENTS * (es / sizeof_crc_metablock).

(** A cursor that points at a slot of the ring. *)
Definition head_ok (h : head_t) : Prop :=
  0 <= mb_slot h < slots_per_extent h /\ 0 <= extent h < MB_NEXTENTS.

Definition saved_ok (h : head_t) : Prop :=
  0 <= saved_mb_slot h < slots_per_extent h /\ 0 <= saved_extent h < MB_NEXTENTS.

Definition geometry_ok (es : Z) : Prop :=
  0 < sizeof_crc_metablock /\ 0 < es / sizeof_crc_metablock < 2 ^ 32.

(** *** The manager: recovery and commit

    Modelled from the spec: [start], [read_next_metablock],
    [on_io_complete] and [write_metablock] are defined in
    [metablock_manager.tcc], which is not among the sources.  The model
    follows sections 4.1 and 8 of the specification.  Asynchronous I/O is
    modelled by its completed effect; a sequence of [write_metablock] calls
    is served one at a time in arrival order, as the queue of outstanding
    writes does. *)

Context {metablock_t : Type} `{ObjectRepr metablock_t}.

(** The two reserved extents seen as the sequence of their slots in ring
    order: slot [s] of extent [k] is entry [k * slots_per_extent + s]. *)
Local Abbreviation device := (list (crc_metablock_t metablock_t)).

(** The members of the manager the protocol uses, as the header declares
    them: [head], the output [*mb_out] (here [None] until a metablock was
    found, that is while [*mb_found] is false), the member [int version]
    (here [m_version]) and [state]. *)
Record manager := {
  head : head_t;
  mb_out : option metablock_t;
  m_version : Z;
  state : state_t
}.

Definition mb_found (m : manager) : bool :=
  match mb_out m with Some _ => true | None => false end.

(** Modelled from the spec: the comparison made by the recovery scan of
    [metablock_manager.tcc], which is not among the sources.  A valid record
    replaces the candidate when its version is greater than the best
    version seen so far; any valid record does when none was seen. *)
Definition beats (m : manager) (r : crc_metablock_t metablock_t) : bool :=
  match mb_out m with
  | None => true
  | Some _ => m_version m <? version r
  end.

(** Modelled from the spec: one round of [read_next_metablock] and
    [on_io_complete], defined in [metablock_manager.tcc], which is not among
    the sources.  The slot under the cursor is read; a record that is valid
    and newer becomes the candidate and its position is pushed; the cursor
    advances; the scan is over when, after the wrap-around, the cursor is
    back on the candidate (or no candidate was found).  The result is [None]
    when the cursor points outside the device. *)
Definition scan_slot (d : device) (m : manager) : option (manager * bool) :=
  match d !! Z.to_nat (ring_index (head m)) with
  | None => None
  | Some r =>
      let m1 :=
        if check_crc r && beats m r then
          {| head := push (head m); mb_out := Some (metablock r);
             m_version := version r; state := state m |}
        else m in
      let h' := incr (head m1) in
      let finished := wraparound h' && (negb (mb_found m1) || at_saved h') in
      Some ({| head := h'; mb_out := mb_out m1;
               m_version := m_version m1; state := state m1 |}, finished)
  end.

(** Modelled from the spec: the recovery scan as the repetition of its
    rounds ([metablock_manager.tcc] is not among the sources). *)
Fixpoint scan (fuel : nat) (d : device) (m : manager) : option manager :=
  match fuel with
  | O => None
  | S fuel' =>
      match scan_slot d m with
      | None => None
      | Some (m', true) => Some m'
      | Some (m', false) => scan fuel' d m'
      end
  end.

(** Modelled from the spec: [start], defined in [metablock_manager.tcc],
    which is not among the sources.  It is allowed in [state_unstarted]
    only, puts the cursor on slot 0 of extent 0 and scans; the scan reads
    every slot at most twice, which bounds the fuel.  The read of the
    static header that follows the scan is left out. *)
Definition start (d : device) (m : manager) : option manager :=
  match state m with
  | state_unstarted =>
      let es := extent_size (head m) in
      match scan (2 * Z.to_nat (ring_size es)) d
                 {| head := head_init es; mb_out := None;
                    m_version := m_version m; state := state_reading |} with
      | Some m' =>
          Some {| head := head m'; mb_out := mb_out m';
                  m_version := m_version m'; state := state_ready |}
      | None => None
      end
  | _ => None
  end.

(** Modelled from the spec: [write_metablock], defined in
    [metablock_manager.tcc], which is not among the sources.  It is allowed
    in [state_ready]; it copies the payload into the buffer, bumps the
    version counter (an [int]), sets the CRC, writes the record at the
    cursor and advances the cursor. *)
Definition write_metablock (mb : metablock_t) (s : manager * device)
  : option (manager * device) :=
  let (m, d) := s in
  match state m with
  | state_ready =>
      let buffer :=
        set_crc (set_version (m_version m + 1)
                   {| _crc := 0; version := m_version m; metablock := mb |}) in
      Some ({| head := incr (head m); mb_out := mb_out m;
               m_version := version buffer; state := state_ready |},
            <[Z.to_nat (ring_index (head m)) := buffer]> d)
  | _ => None
  end.

(** The calls [write_metablock(P1)], ..., [write_metablock(Pk)] in order. *)
Fixpoint write_all (ps : list metablock_t) (s : manager * device)
  : option (manager * device) :=
  match ps with
  | [] => Some s
  | p :: ps' =>
      match write_metablock p s with
      | Some s' => write_all ps' s'
      | None => None
      end
  end.

(** The newest valid record of a sequence of slots, with its position: the
    first one in ring order among those of the largest version. *)
Definition consider (best : option (nat * crc_metablock_t metablock_t))
    (i : nat) (r : crc_metablock_t metablock_t) :=
  if check_crc r &&
     match best with None => true | Some (_, b) => version b <? version r end
  then Some (i, r) else best.

Fixpoint newest_from (i : nat) (rs : device)
    (best : option (nat * crc_metablock_t metablock_t)) :=
  match rs with
  | [] => best
  | r :: rs' => newest_from (S i) rs' (consider best i r)
  end.

Definition newest (d : device) := newest_from 0 d None.

(** *** The cursor walks the ring *)

Lemma incr_extent_size h : extent_size (incr h) = extent_size h.
Proof. unfold incr. now destruct (_ <=? _). Qed.

Lemma incr_saved h :
  saved_mb_slot (incr h) = saved_mb_slot h /\ saved_extent (incr h) = saved_extent h.
Proof. unfold incr. now destruct (_ <=? _). Qed.

Lemma slots_per_extent_incr h : slots_per_extent (incr h) = slots_per_extent h.
Proof. unfold slots_per_extent. now rewrite incr_extent_size. Qed.

Lemma saved_index_incr h : saved_index (incr h) = saved_index h.
Proof.
  unfold saved_index. rewrite slots_per_extent_incr.
  now destruct (incr_saved h) as [-> ->].
Qed.

Lemma saved_ok_incr h : saved_ok h -> saved_ok (incr h).
Proof.
  unfold saved_ok. rewrite slots_per_extent_incr.
  now destruct (incr_saved h) as [-> ->].
Qed.

(** Within an extent the slot advances; at the end of an extent the cursor
    moves to slot 0 of the next extent, modulo [MB_NEXTENTS]. *)
Lemma incr_cases h :
  geometry_ok (extent_size h) -> head_ok h ->
  (mb_slot h + 1 < slots_per_extent h /\
   mb_slot (incr h) = mb_slot h + 1 /\ extent (incr h) = extent h /\
   wraparound (incr h) = wraparound h)
  \/
  (mb_slot h + 1 = slots_per_extent h /\
   mb_slot (incr h) = 0 /\ extent (incr h) = (extent h + 1) mod MB_NEXTENTS /\
   wraparound (incr h) = wraparound h || (extent h =? MB_NEXTENTS - 1)).
Proof.
  intros [Hsz Hspe] [Hslot Hext]. fold (slots_per_extent h) in Hspe.
  unfold incr, MB_NEXTENTS in *.
  rewrite (uint32_wrap_id (mb_slot h + 1)) by lia.
  destruct (Z.leb_spec (slots_per_extent h) (mb_slot h + 1)) as [Hle|Hlt].
  - right. cbn [mb_slot extent wraparound].
    rewrite (uint32_wrap_id (extent h + 1)) by lia.
    split; [lia|]. split; [reflexivity|]. split; [reflexivity|].
    f_equal. assert (extent h = 0 \/ extent h = 1) as [-> | ->] by lia; reflexivity.
  - left. cbn [mb_slot extent wraparound]. auto.
Qed.

Lemma ring_index_range h :
  head_ok h -> 0 <= ring_index h < ring_size (extent_size h).
Proof.
  intros [Hslot Hext]. unfold ring_index, ring_size, MB_NEXTENTS in *.
  fold (slots_per_extent h). nia.
Qed.

Lemma head_ok_incr h :
  geometry_ok (extent_size h) -> head_ok h -> head_ok (incr h).
Proof.
  intros Hg Hok. pose proof Hok as [Hslot Hext].
  pose proof Hg as [Hsz Hspe]. fold (slots_per_extent h) in Hspe.
  unfold head_ok. rewrite slots_per_extent_incr.
  destruct (incr_cases h Hg Hok) as [(Hlt & -> & -> & _) | (Heq & -> & -> & _)].
  - lia.
  - split; [lia|]. apply Z.mod_pos_bound. reflexivity.
Qed.

Lemma ring_index_incr h :
  geometry_ok (extent_size h) -> head_ok h ->
  ring_index (incr h) = (ring_index h + 1) mod ring_size (extent_size h).
Proof.
  intros Hg Hok. pose proof Hok as [Hslot Hext].
  pose proof Hg as [Hsz Hspe]. fold (slots_per_extent h) in Hspe.
  unfold ring_index, ring_size. rewrite slots_per_extent_incr.
  fold (slots_per_extent h). unfold MB_NEXTENTS in *.
  destruct (incr_cases h Hg Hok) as [(Hlt & -> & -> & _) | (Heq & -> & -> & _)].
  - rewrite Z.mod_small; nia.
  - unfold MB_NEXTENTS.
    assert (extent h = 0 \/ extent h = 1) as [-> | ->] by lia.
    + change ((0 + 1) mod 2) with 1. rewrite Z.mod_small; lia.
    + change ((1 + 1) mod 2) with 0.
      replace (1 * slots_per_extent h + mb_slot h + 1) with (2 * slots_per_extent h) by lia.
      rewrite Z.mod_same by lia. lia.
Qed.

Lemma wraparound_incr h :
  geometry_ok (extent_size h) -> head_ok h ->
  wraparound (incr h) =
  wraparound h || (ring_index h + 1 =? ring_size (extent_size h)).
Proof.
  intros Hg Hok. pose proof Hok as [Hslot Hext].
  pose proof Hg as [Hsz Hspe]. fold (slots_per_extent h) in Hspe.
  unfold ring_index, ring_size. fold (slots_per_extent h). unfold MB_NEXTENTS in *.
  destruct (incr_cases h Hg Hok) as [(Hlt & _ & _ & ->) | (Heq & _ & _ & ->)].
  - destruct (Z.eqb_spec (extent h * slots_per_extent h + mb_slot h + 1)
                         (2 * slots_per_extent h)); [nia|].
    now rewrite orb_false_r.
  - f_equal. unfold MB_NEXTENTS.
    destruct (Z.eqb_spec (extent h) (2 - 1)),
             (Z.eqb_spec (extent h * slots_per_extent h + mb_slot h + 1)
                         (2 * slots_per_extent h)); try reflexivity; nia.
Qed.

Lemma saved_index_push h : saved_index (push h) = ring_index h.
Proof. reflexivity. Qed.

Lemma at_saved_index h :
  head_ok h -> saved_ok h -> at_saved h = (ring_index h =? saved_index h).
Proof.
  intros [Hslot Hext] [Hsslot Hsext].
  unfold at_saved, ring_index, saved_index.
  destruct (Z.eqb_spec (mb_slot h) (saved_mb_slot h)) as [Hs|Hs],
           (Z.eqb_spec (extent h) (saved_extent h)) as [He|He]; cbn [andb].
  - rewrite Hs, He. symmetry. apply Z.eqb_refl.
  - symmetry. apply Z.eqb_neq. nia.
  - symmetry. apply Z.eqb_neq. nia.
  - symmetry. apply Z.eqb_neq. nia.
Qed.

(** *** The newest valid record *)

Definition valid (r : crc_metablock_t metablock_t) : Prop := check_crc r = true.

Definition is_newest (d : device)
    (res : option (nat * crc_metablock_t metablock_t)) : Prop :=
  match res with
  | None => forall j r, d !! j = Some r -> check_crc r = false
  | Some (c, b) =>
      d !! c = Some b /\ valid b /\
      forall j r, d !! j = Some r -> valid r ->
                  version r <= version b /\ (version r = version b -> (c <= j)%nat)
  end.

Lemma is_newest_consider pre best r :
  is_newest pre best -> is_newest (pre ++ [r]) (consider best (length pre) r).
Proof.
  intros Hbest. unfold consider.
  destruct (check_crc r) eqn:Hcrc; cbn [andb].
  - destruct best as [[c b]|].
    + destruct Hbest as (Hc & Hb & Hmax).
      destruct (Z.ltb_spec (version b) (version r)) as [Hlt|Hge].
      * split; [now apply list_lookup_middle|]. split; [exact Hcrc|].
        intros j r' Hj Hr'. apply lookup_snoc_Some in Hj as [[Hlt' Hj] | [-> <-]].
        -- destruct (Hmax j r' Hj Hr'). lia.
        -- lia.
      * split; [now apply lookup_app_l_Some|]. split; [exact Hb|].
        intros j r' Hj Hr'. apply lookup_snoc_Some in Hj as [[Hlt' Hj] | [-> <-]].
        -- now apply Hmax.
        -- apply lookup_lt_Some in Hc. lia.
    + split; [now apply list_lookup_middle|]. split; [exact Hcrc|].
      intros j r' Hj Hr'. apply lookup_snoc_Some in Hj as [[Hlt' Hj] | [-> <-]].
      * unfold valid in Hr'. rewrite (Hbest j r' Hj) in Hr'. discriminate.
      * lia.
  - destruct best as [[c b]|].
    + destruct Hbest as (Hc & Hb & Hmax).
      split; [now apply lookup_app_l_Some|]. split; [exact Hb|].
      intros j r' Hj Hr'. apply lookup_snoc_Some in Hj as [[Hlt' Hj] | [-> <-]].
      * now apply Hmax.
      * unfold valid in Hr'. congruence.
    + intros j r' Hj. apply lookup_snoc_Some in Hj as [[Hlt' Hj] | [-> <-]].
      * exact (Hbest j r' Hj).
      * exact Hcrc.
Qed.

Lemma is_newest_from rs pre best :
  is_newest pre best -> is_newest (pre ++ rs) (newest_from (length pre) rs best).
Proof.
  revert pre best. induction rs as [|r rs IH]; intros pre best Hbest.
  - now rewrite app_nil_r.
  - cbn [newest_from].
    replace (pre ++ r :: rs) with ((pre ++ [r]) ++ rs) by now rewrite <- app_assoc.
    replace (S (length pre)) with (length (pre ++ [r])) by (rewrite length_app; simpl; lia).
    apply IH. now apply is_newest_consider.
Qed.

Lemma newest_is_newest d : is_newest d (newest d).
Proof.
  apply (is_newest_from d [] None). intros j r Hj. destruct j; discriminate.
Qed.

(** *** The recovery scan selects the newest valid record *)

Section Scan.
Variable es : Z.
Variable d : device.
Variable v0 : Z.
Hypothesis Hgeo : geometry_ok es.
Hypothesis Hlen : length d = Z.to_nat (ring_size es).

(** The manager's candidate is [best]: the payload and version are those of
    the record, and the saved position of the cursor is its slot. *)
Definition tracks (m : manager)
    (best : option (nat * crc_metablock_t metablock_t)) : Prop :=
  extent_size (head m) = es /\ head_ok (head m) /\
  match best with
  | None => mb_out m = None /\ m_version m = v0
  | Some (c, b) =>
      mb_out m = Some (metablock b) /\ m_version m = version b /\
      saved_ok (head m) /\ saved_index (head m) = Z.of_nat c
  end.

Lemma ring_size_pos : 0 < ring_size es.
Proof. destruct Hgeo as [_ Hspe]. unfold ring_size, MB_NEXTENTS. lia. Qed.

Lemma length_device : Z.of_nat (length d) = ring_size es.
Proof. rewrite Hlen. pose proof ring_size_pos. lia. Qed.

Lemma scan_slot_tracks j r m best :
  tracks m best -> ring_index (head m) = Z.of_nat j -> d !! j = Some r ->
  exists m',
    scan_slot d m =
      Some (m', wraparound (head m') &&
                match consider best j r with
                | None => true
                | Some (c, _) => ring_index (head m') =? Z.of_nat c
                end)
    /\ tracks m' (consider best j r)
    /\ ring_index (head m') = (Z.of_nat j + 1) mod ring_size es
    /\ wraparound (head m') = wraparound (head m) || (Z.of_nat j + 1 =? ring_size es)
    /\ state m' = state m.
Proof.
  intros (Hes & Hok & Hbest) Hidx Hj.
  assert (geometry_ok (extent_size (head m))) as Hg by now rewrite Hes.
  assert (beats m r =
          match best with None => true | Some (_, b) => version b <? version r end)
    as Hbeats.
  { unfold beats. destruct best as [[c b]|].
    - destruct Hbest as (-> & -> & _). reflexivity.
    - destruct Hbest as (-> & _). reflexivity. }
  unfold scan_slot, consider. rewrite Hidx, Nat2Z.id, Hj, <- Hbeats.
  destruct (check_crc r && beats m r) eqn:E.
  - exists {| head := incr (push (head m)); mb_out := Some (metablock r);
              m_version := version r; state := state m |}.
    split; [|split; [|split; [|split]]].
    + cbn [head mb_out m_version state mb_found negb orb].
      rewrite at_saved_index.
      * rewrite saved_index_incr, saved_index_push, Hidx. reflexivity.
      * apply head_ok_incr; [exact Hg | exact Hok].
      * apply saved_ok_incr. exact Hok.
    + unfold tracks. cbn [head mb_out m_version].
      split; [now rewrite incr_extent_size|].
      split; [apply head_ok_incr; [exact Hg | exact Hok]|].
      split; [reflexivity|]. split; [reflexivity|].
      split; [apply saved_ok_incr; exact Hok|].
      rewrite saved_index_incr, saved_index_push. exact Hidx.
    + cbn [head]. rewrite ring_index_incr; [|exact Hg | exact Hok].
      change (ring_index (push (head m))) with (ring_index (head m)).
      change (extent_size (push (head m))) with (extent_size (head m)).
      now rewrite Hidx, Hes.
    + cbn [head]. rewrite wraparound_incr; [|exact Hg | exact Hok].
      change (ring_index (push (head m))) with (ring_index (head m)).
      change (extent_size (push (head m))) with (extent_size (head m)).
      now rewrite Hidx, Hes.
    + reflexivity.
  - exists {| head := incr (head m); mb_out := mb_out m;
              m_version := m_version m; state := state m |}.
    split; [|split; [|split; [|split]]].
    + cbn [head mb_out m_version state]. f_equal. f_equal. f_equal.
      unfold mb_found. destruct best as [[c b]|].
      * destruct Hbest as (-> & _ & Hsok & Hsidx). cbn [negb orb].
        rewrite at_saved_index.
        -- now rewrite saved_index_incr, Hsidx.
        -- now apply head_ok_incr.
        -- now apply saved_ok_incr.
      * destruct Hbest as (-> & _). reflexivity.
    + unfold tracks. cbn [head mb_out m_version].
      split; [now rewrite incr_extent_size|].
      split; [now apply head_ok_incr|].
      destruct best as [[c b]|].
      * destruct Hbest as (? & ? & ? & ?).
        repeat split; try assumption; try (now apply saved_ok_incr).
        now rewrite saved_index_incr.
      * exact Hbest.
    + cbn [head]. rewrite ring_index_incr by assumption. now rewrite Hidx, Hes.
    + cbn [head]. rewrite wraparound_incr by assumption. now rewrite Hidx, Hes.
    + reflexivity.
Qed.

Lemma consider_newest c b j r :
  newest d = Some (c, b) -> d !! j = Some r -> consider (Some (c, b)) j r = Some (c, b).
Proof.
  intros Hn Hj. pose proof (newest_is_newest d) as Hnew. rewrite Hn in Hnew.
  destruct Hnew as (_ & _ & Hmax). unfold consider.
  destruct (check_crc r) eqn:Hcrc; [|reflexivity].
  destruct (Hmax j r Hj Hcrc) as [Hle _].
  destruct (Z.ltb_spec (version b) (version r)); [lia | reflexivity].
Qed.

(** After the wrap-around the scan re-reads the slots before the candidate
    without changing it, and stops on the candidate's slot. *)
Lemma scan_second_pass k : forall j m c b fuel,
  newest d = Some (c, b) -> tracks m (Some (c, b)) ->
  wraparound (head m) = true -> ring_index (head m) = Z.of_nat j ->
  (j + S k = c)%nat -> (S k <= fuel)%nat ->
  exists m',
    scan fuel d m = Some m' /\ tracks m' (Some (c, b)) /\
    ring_index (head m') = Z.of_nat c /\ wraparound (head m') = true /\
    state m' = state m.
Proof.
  induction k as [|k IH]; intros j m c b fuel Hn Htr Hwrap Hidx Hjc Hfuel.
  all: destruct fuel as [|fuel]; [lia|].
  all: pose proof (newest_is_newest d) as Hnew; rewrite Hn in Hnew.
  all: destruct Hnew as (Hc & _ & _); apply lookup_lt_Some in Hc.
  all: destruct (lookup_lt_is_Some_2 d j ltac:(lia)) as [r Hj].
  all: destruct (scan_slot_tracks j r m _ Htr Hidx Hj)
         as (m1 & Hstep & Htr1 & Hidx1 & Hwrap1 & Hst1).
  all: rewrite (consider_newest c b j r Hn Hj) in Hstep, Htr1.
  all: pose proof length_device as Hlen'.
  all: rewrite Z.mod_small in Hidx1 by lia.
  all: rewrite Hwrap in Hwrap1; cbn [orb] in Hwrap1.
  all: cbn [scan]; rewrite Hstep, Hwrap1, Hidx1; cbn [andb].
  - destruct (Z.eqb_spec (Z.of_nat j + 1) (Z.of_nat c)); [|lia].
    exists m1. split; [reflexivity|]. split; [exact Htr1|].
    split; [lia|]. split; assumption.
  - destruct (Z.eqb_spec (Z.of_nat j + 1) (Z.of_nat c)); [lia|].
    destruct (IH (S j) m1 c b fuel Hn Htr1 Hwrap1 ltac:(lia) ltac:(lia) ltac:(lia))
      as (m' & Hscan & Htr' & Hidx' & Hwrap' & Hst').
    exists m'. split; [exact Hscan|]. split; [exact Htr'|].
    split; [exact Hidx'|]. split; [exact Hwrap'|]. congruence.
Qed.

(** The first pass over the ring, from slot [j] on. *)
Lemma scan_first_pass rs : forall j m best fuel,
  drop j d = rs -> rs <> [] -> tracks m best ->
  ring_index (head m) = Z.of_nat j -> wraparound (head m) = false ->
  newest_from j rs best = newest d ->
  (length rs + length d <= fuel)%nat ->
  exists m',
    scan fuel d m = Some m' /\ tracks m' (newest d) /\ state m' = state m /\
    wraparound (head m') = true /\
    ring_index (head m') =
      match newest d with Some (c, _) => Z.of_nat c | None => 0 end.
Proof.
  induction rs as [|r rs IH]; intros j m best fuel Hdrop Hne Htr Hidx Hwrap Hnew Hfuel;
    [congruence|].
  assert (d !! j = Some r) as Hj.
  { rewrite <- (Nat.add_0_r j), <- lookup_drop, Hdrop. reflexivity. }
  assert (drop (S j) d = rs) as Hdrop'.
  { rewrite (drop_S d r j Hj) in Hdrop. now injection Hdrop. }
  assert (length d = j + S (length rs))%nat as Hlen'.
  { pose proof (length_drop d j) as Hl. rewrite Hdrop in Hl. cbn [length] in Hl.
    apply lookup_lt_Some in Hj. lia. }
  pose proof length_device as HlenZ.
  destruct fuel as [|fuel]; [cbn [length] in Hfuel; lia|].
  destruct (scan_slot_tracks j r m best Htr Hidx Hj)
    as (m1 & Hstep & Htr1 & Hidx1 & Hwrap1 & Hst1).
  rewrite Hwrap in Hwrap1. cbn [orb] in Hwrap1.
  cbn [newest_from] in Hnew. cbn [length] in Hfuel.
  cbn [scan]. rewrite Hstep.
  destruct rs as [|r' rs'].
  - (* the last slot of the ring: the cursor wraps around *)
    cbn [newest_from] in Hnew. cbn [length] in Hlen'.
    assert (Z.of_nat j + 1 = ring_size es) as Hlast by lia.
    rewrite Hlast, Z.mod_same in Hidx1 by lia.
    rewrite Hlast, Z.eqb_refl in Hwrap1.
    rewrite Hwrap1, Hidx1. cbn [andb]. rewrite Hnew in *.
    destruct (newest d) as [[c b]|] eqn:Hn.
    + destruct c as [|c].
      * cbn [Z.of_nat Z.eqb]. exists m1. split; [reflexivity|].
        split; [exact Htr1|]. split; [exact Hst1|]. split; assumption.
      * destruct (Z.eqb_spec 0 (Z.of_nat (S c))); [lia|].
        pose proof (newest_is_newest d) as Hnw. rewrite Hn in Hnw.
        destruct Hnw as (Hc & _ & _). apply lookup_lt_Some in Hc.
        destruct (scan_second_pass c 0%nat m1 (S c) b fuel Hn Htr1 Hwrap1 Hidx1
                    ltac:(lia) ltac:(lia))
          as (m' & Hscan & Htr' & Hidx' & Hwrap' & Hst').
        exists m'. split; [exact Hscan|]. split; [exact Htr'|].
        split; [congruence|]. split; assumption.
    + exists m1. split; [reflexivity|].
      split; [exact Htr1|]. split; [exact Hst1|]. split; assumption.
  - (* inside the ring *)
    cbn [length] in Hlen'.
    rewrite Z.mod_small in Hidx1 by lia.
    assert ((Z.of_nat j + 1 =? ring_size es) = false) as Hinside
      by (apply Z.eqb_neq; lia).
    rewrite Hinside in Hwrap1. rewrite Hwrap1. cbn [andb].
    destruct (IH (S j) m1 (consider best j r) fuel Hdrop' ltac:(discriminate) Htr1
                 ltac:(lia) Hwrap1 Hnew ltac:(lia))
      as (m' & Hscan & Htr' & Hst' & Hwrap' & Hidx').
    exists m'. split; [exact Hscan|]. split; [exact Htr'|].
    split; [congruence|]. split; assumption.
Qed.

(** [start] terminates and leaves the newest valid record in [mb_out]. *)
Lemma start_tracks m :
  state m = state_unstarted -> extent_size (head m) = es -> m_version m = v0 ->
  exists m',
    start d m = Some m' /\ state m' = state_ready /\ tracks m' (newest d) /\
    ring_index (head m') =
      match newest d with Some (c, _) => Z.of_nat c | None => 0 end.
Proof.
  intros Hst Hes Hv. unfold start. rewrite Hst, Hes, Hv.
  pose proof ring_size_pos as Hpos. pose proof length_device as HlenZ.
  destruct Hgeo as [Hsz Hspe].
  destruct (scan_first_pass d 0%nat
              {| head := head_init es; mb_out := None; m_version := v0;
                 state := state_reading |} None
              (2 * Z.to_nat (ring_size es))%nat)
    as (m' & Hscan & Htr & _ & _ & Hidx).
  - reflexivity.
  - intros ->. cbn [length] in HlenZ. lia.
  - unfold tracks. cbn [head mb_out m_version].
    split; [reflexivity|]. split; [|split; reflexivity].
    unfold head_ok, slots_per_extent, MB_NEXTENTS, head_init.
    cbn [mb_slot extent extent_size]. lia.
  - reflexivity.
  - reflexivity.
  - reflexivity.
  - lia.
  - rewrite Hscan. eexists. split; [reflexivity|].
    cbn [state head]. split; [reflexivity|]. split; [|exact Hidx].
    unfold tracks in *. cbn [head mb_out m_version]. exact Htr.
Qed.

End Scan.

(** *** Commits *)

(** A started manager over a device: the cursor is on a slot of the ring
    and the version counter is at least the version of every valid record. *)
Definition committed (es : Z) (s : manager * device) : Prop :=
  let (m, d) := s in
  state m = state_ready /\ extent_size (head m) = es /\ head_ok (head m) /\
  length d = Z.to_nat (ring_size es) /\
  forall j r, d !! j = Some r -> valid r -> version r <= m_version m.

(** The payload [p] is held by a valid record whose version is the
    manager's counter and exceeds the version of every other valid record. *)
Definition last_written (s : manager * device) (p : metablock_t) : Prop :=
  let (m, d) := s in
  exists i r,
    d !! i = Some r /\ valid r /\ metablock r = p /\ version r = m_version m /\
    forall j r', d !! j = Some r' -> valid r' -> j <> i -> version r' < version r.

Lemma valid_set_crc r : valid (set_crc r).
Proof. unfold valid, check_crc, set_crc, crc. cbn [_crc metablock]. apply Z.eqb_refl. Qed.

Lemma write_metablock_committed es p m d :
  geometry_ok es -> committed es (m, d) -> in_int (m_version m + 1) ->
  exists m' d',
    write_metablock p (m, d) = Some (m', d') /\ committed es (m', d') /\
    last_written (m', d') p /\ m_version m' = m_version m + 1.
Proof.
  intros Hg (Hst & Hes & Hok & Hlen & Hmax) Hint.
  assert (geometry_ok (extent_size (head m))) as Hg' by now rewrite Hes.
  pose proof (ring_index_range _ Hok) as Hidx. rewrite Hes in Hidx.
  unfold write_metablock. rewrite Hst.
  set (buffer := set_crc (set_version (m_version m + 1)
                            {| _crc := 0; version := m_version m; metablock := p |})).
  assert (version buffer = m_version m + 1) as Hv.
  { unfold buffer, set_crc, set_version. cbn [version]. now apply int_wrap_id. }
  assert (valid buffer) as Hvalid by apply valid_set_crc.
  set (i := Z.to_nat (ring_index (head m))).
  assert (i < length d)%nat as Hi by (unfold i; lia).
  eexists _, _. split; [reflexivity|]. fold i.
  split; [|split].
  - unfold committed. cbn [state head m_version].
    split; [reflexivity|]. split; [now rewrite incr_extent_size|].
    split; [now apply head_ok_incr|]. split; [now rewrite length_insert|].
    intros j r Hj Hr. rewrite Hv.
    destruct (Nat.eq_dec i j) as [<-|Hne].
    + rewrite list_lookup_insert_eq in Hj by exact Hi.
      injection Hj as <-. lia.
    + rewrite list_lookup_insert_ne in Hj by exact Hne.
      pose proof (Hmax j r Hj Hr). lia.
  - unfold last_written. cbn [m_version].
    exists i, buffer. split; [now apply list_lookup_insert_eq|].
    split; [exact Hvalid|]. split; [reflexivity|]. split; [reflexivity|].
    intros j r' Hj Hr' Hne.
    rewrite list_lookup_insert_ne in Hj by congruence.
    pose proof (Hmax j r' Hj Hr'). lia.
  - exact Hv.
Qed.

Lemma write_all_committed es ps : forall p m d,
  geometry_ok es -> committed es (m, d) ->
  INT_MIN <= m_version m ->
  m_version m + Z.of_nat (length ps) + 1 <= INT_MAX ->
  exists m' d',
    write_all (ps ++ [p]) (m, d) = Some (m', d') /\ committed es (m', d') /\
    last_written (m', d') p.
Proof.
  induction ps as [|q ps IH]; intros p m d Hg Hc Hlo Hhi.
  - cbn [length Z.of_nat] in Hhi.
    destruct (write_metablock_committed es p m d Hg Hc) as (m' & d' & Hw & Hc' & Hl & _).
    { unfold in_int. lia. }
    exists m', d'. cbn [app write_all]. rewrite Hw. auto.
  - destruct (write_metablock_committed es q m d Hg Hc) as (m1 & d1 & Hw & Hc1 & _ & Hv1).
    { unfold in_int. cbn [length] in Hhi. lia. }
    destruct (IH p m1 d1 Hg Hc1) as (m' & d' & Hws & Hc' & Hl).
    { lia. }
    { cbn [length] in Hhi. lia. }
    exists m', d'. cbn [app write_all]. rewrite Hw. auto.
Qed.

Lemma newest_last_written m d p :
  last_written (m, d) p ->
  exists i r, newest d = Some (i, r) /\ metablock r = p /\ version r = m_version m.
Proof.
  intros (i & r & Hi & Hr & Hp & Hv & Huniq).
  pose proof (newest_is_newest d) as Hnew.
  destruct (newest d) as [[c b]|].
  - destruct Hnew as (Hc & Hb & Hmax).
    destruct (Nat.eq_dec c i) as [->|Hne].
    + exists i, b. rewrite Hi in Hc. injection Hc as <-. auto.
    + pose proof (Huniq c b Hc Hb Hne). destruct (Hmax i r Hi Hr). lia.
  - unfold valid in Hr. rewrite (Hnew i r Hi) in Hr. discriminate.
Qed.

(** *** Properties of the record and of the ring *)

Lemma extent_size_iter n h : extent_size (Nat.iter n incr h) = extent_size h.
Proof.
  induction n as [|n IH]; [reflexivity|].
  now rewrite Nat.iter_succ, incr_extent_size.
Qed.

Lemma iter_incr n h :
  geometry_ok (extent_size h) -> head_ok h ->
  head_ok (Nat.iter n incr h) /\
  ring_index (Nat.iter n incr h) =
    (ring_index h + Z.of_nat n) mod ring_size (extent_size h) /\
  wraparound (Nat.iter n incr h) =
    wraparound h || (ring_size (extent_size h) <=? ring_index h + Z.of_nat n).
Proof.
  intros Hg Hok. pose proof (ring_index_range h Hok) as Hr.
  induction n as [|n (IHok & IHidx & IHw)].
  - cbn [Nat.iter nat_rect Z.of_nat]. split; [exact Hok|].
    rewrite Z.add_0_r, Z.mod_small by exact Hr. split; [reflexivity|].
    destruct (Z.leb_spec (ring_size (extent_size h)) (ring_index h)); [lia|].
    now rewrite orb_false_r.
  - rewrite Nat.iter_succ.
    assert (geometry_ok (extent_size (Nat.iter n incr h))) as Hg'
      by now rewrite extent_size_iter.
    split; [now apply head_ok_incr|]. split.
    + rewrite ring_index_incr, extent_size_iter, IHidx by assumption.
      rewrite Z.add_mod_idemp_l by lia. f_equal. lia.
    + rewrite wraparound_incr, extent_size_iter, IHw, IHidx by assumption.
      rewrite <- orb_assoc. f_equal.
      destruct (Z.leb_spec (ring_size (extent_size h)) (ring_index h + Z.of_nat n))
        as [Hle|Hlt].
      * destruct (Z.leb_spec (ring_size (extent_size h))
                             (ring_index h + Z.of_nat (S n))); [reflexivity | lia].
      * rewrite Z.mod_small by lia. cbn [orb].
        destruct (Z.eqb_spec (ring_index h + Z.of_nat n + 1) (ring_size (extent_size h))),
                 (Z.leb_spec (ring_size (extent_size h)) (ring_index h + Z.of_nat (S n)));
          reflexivity || lia.
Qed.

(** A record written at [offset h] lies inside extent
    [extent h * MB_EXTENT_SEPERATION] of the file. *)
Lemma offset_inside_extent h :
  geometry_ok (extent_size h) -> head_ok h ->
  static_header_size + (extent h * MB_EXTENT_SEPERATION) * extent_size h <= offset h /\
  offset h + sizeof_crc_metablock
    <= static_header_size + (extent h * MB_EXTENT_SEPERATION + 1) * extent_size h.
Proof.
  intros [Hsz Hspe] [Hslot Hext]. unfold offset, slots_per_extent in *.
  pose proof (Z.mul_div_le (extent_size h) sizeof_crc_metablock Hsz). nia.
Qed.

Lemma version_bytes_roundtrip (r : crc_metablock_t metablock_t) :
  in_int (version r) -> version_of_bytes (version_bytes r) = version r.
Proof.
  unfold version_of_bytes, version_bytes, sizeof_int, in_int, INT_MIN, INT_MAX.
  intros Hr. rewrite decode_encode_le. unfold int_wrap.
  change (8 * Z.of_nat 4) with 32.
  rewrite Z.add_mod_idemp_l by lia. rewrite Z.mod_small; lia.
Qed.

(** What recovery reports about a device: the payload of a valid record
    whose version no valid record exceeds, or nothing when no record is
    valid. *)
Definition selects_newest (d : device) (mr : manager) : Prop :=
  match mb_out mr with
  | Some p =>
      exists i r,
        d !! i = Some r /\ valid r /\ metablock r = p /\ m_version mr = version r /\
        forall j r', d !! j = Some r' -> valid r' -> version r' <= version r
  | None => forall j r, d !! j = Some r -> ~ valid r
  end.

Lemma start_selects_newest (d : device) (m : manager) :
  geometry_ok (extent_size (head m)) ->
  length d = Z.to_nat (ring_size (extent_size (head m))) ->
  state m = state_unstarted ->
  exists mr, start d m = Some mr /\ state mr = state_ready /\ selects_newest d mr.
Proof.
  intros Hg Hlen Hst.
  destruct (start_tracks _ d (m_version m) Hg Hlen m Hst eq_refl eq_refl)
    as (mr & Hs & Hready & (_ & _ & Hbest) & _).
  exists mr. split; [exact Hs|]. split; [exact Hready|].
  pose proof (newest_is_newest d) as Hnew. unfold selects_newest.
  destruct (newest d) as [[c b]|].
  - destruct Hbest as (-> & Hv & _). destruct Hnew as (Hc & Hb & Hmax).
    exists c, b. split; [exact Hc|]. split; [exact Hb|]. split; [reflexivity|].
    split; [exact Hv|]. intros j r' Hj Hr'. now destruct (Hmax j r' Hj Hr').
  - destruct Hbest as (-> & _). intros j r Hj Hr. unfold valid in Hr.
    rewrite (Hnew j r Hj) in Hr. discriminate.
Qed.

(** C1 (modelled from the specification): a record is valid exactly when
    its stored CRC equals the CRC recomputed from it; on any device [start]
    terminates and reports a valid record of the largest version, or
    nothing when no record is valid; and whatever the device held before,
    after [start] and the commits of the payloads [ps ++ [p]] in this order
    a fresh [start] finds a metablock and returns the last payload [p]: the
    record holding it is valid, carries the version recovery ends with, and
    every other valid record of the device has a strictly smaller version,
    so the selected record is unique. *)
Theorem monotonic_recovery (d0 : device) (m mf : manager)
    (ps : list metablock_t) (p : metablock_t) :
  let es := extent_size (head m) in
  let k := Z.of_nat (length ps) + 1 in
  geometry_ok es ->
  length d0 = Z.to_nat (ring_size es) ->
  state m = state_unstarted ->
  state mf = state_unstarted -> extent_size (head mf) = es ->
  INT_MIN <= m_version m /\ m_version m + k <= INT_MAX ->
  Forall (fun r => INT_MIN <= version r /\ version r + k <= INT_MAX) d0 ->
  (forall r : crc_metablock_t metablock_t, valid r <-> _crc r = crc r) /\
  (forall d : device, length d = Z.to_nat (ring_size es) ->
     exists mr, start d mf = Some mr /\ selects_newest d mr) /\
  exists m0 mk dk mr,
    start d0 m = Some m0 /\
    write_all (ps ++ [p]) (m0, d0) = Some (mk, dk) /\
    start dk mf = Some mr /\
    mb_found mr = true /\ mb_out mr = Some p /\
    exists i r,
      dk !! i = Some r /\ valid r /\ metablock r = p /\ m_version mr = version r /\
      forall j r', dk !! j = Some r' -> valid r' -> j <> i -> version r' < version r.
Proof.
  intros es k Hg Hlen Hst Hstf Hesf [Hlo Hhi] Hdev.
  split.
  { intros r. unfold valid, check_crc. apply Z.eqb_eq. }
  split.
  { intros d Hd. rewrite <- Hesf in Hg, Hd.
    destruct (start_selects_newest d mf Hg Hd Hstf) as (mr & Hs & _ & Hsel).
    now exists mr. }
  destruct (start_tracks es d0 (m_version m) Hg Hlen m Hst eq_refl eq_refl)
    as (m0 & Hs0 & Hst0 & (Hes0 & Hok0 & Hbest0) & _).
  pose proof (newest_is_newest d0) as Hnew0.
  assert (committed es (m0, d0) /\ INT_MIN <= m_version m0 /\ m_version m0 + k <= INT_MAX)
    as (Hc0 & Hlo0 & Hhi0).
  { cbv beta iota delta [committed]. destruct (newest d0) as [[c b]|].
    - destruct Hbest0 as (_ & Hv & _). destruct Hnew0 as (Hc & Hb & Hmax).
      pose proof (proj1 (Forall_lookup _ _) Hdev c b Hc) as Hb'. cbn beta in Hb'.
      rewrite Hv. split; [|lia].
      split; [exact Hst0|]. split; [exact Hes0|]. split; [exact Hok0|].
      split; [exact Hlen|].
      intros j r Hj Hr. now destruct (Hmax j r Hj Hr).
    - destruct Hbest0 as (_ & Hv). rewrite Hv. split; [|lia].
      split; [exact Hst0|]. split; [exact Hes0|]. split; [exact Hok0|].
      split; [exact Hlen|].
      intros j r Hj Hr. unfold valid in Hr. rewrite (Hnew0 j r Hj) in Hr. discriminate. }
  destruct (write_all_committed es ps p m0 d0 Hg Hc0 Hlo0 ltac:(unfold k in Hhi0; lia))
    as (mk & dk & Hw & Hck & Hlast).
  destruct (newest_last_written mk dk p Hlast) as (i' & r' & Hn & Hp' & Hv').
  destruct Hck as (_ & _ & _ & Hlenk & _).
  destruct (start_tracks es dk (m_version mf) Hg Hlenk mf Hstf Hesf eq_refl)
    as (mr & Hsr & _ & (_ & _ & Hbestr) & _).
  rewrite Hn in Hbestr. destruct Hbestr as (Hout & Hvr & _).
  destruct Hlast as (i & r & Hi & Hr & Hp & Hv & Huniq).
  exists m0, mk, dk, mr.
  split; [exact Hs0|]. split; [exact Hw|]. split; [exact Hsr|].
  split; [unfold mb_found; now rewrite Hout|].
  split; [now rewrite Hout, Hp'|].
  exists i, r. split; [exact Hi|]. split; [exact Hr|]. split; [exact Hp|].
  split; [congruence | exact Huniq].
Qed.

(** C2: the CRC the manager stores and checks is the [crc_optimal] instance
    of width 32 with polynomial [0x04C11DB7], initial value and final XOR
    [0xFFFFFFFF], reflected input and output, that is, the standard CRC-32,
    a value of 32 bits, taken over the bytes of the payload; no other field
    of the record, the version in particular, contributes. *)
Theorem crc_is_standard_crc32_of_payload (r : crc_metablock_t metablock_t) :
  crc r =
    crc_optimal {| Bits := 32; TruncPoly := 0x04C11DB7; InitRem := 0xFFFFFFFF;
                   FinalXor := 0xFFFFFFFF; ReflectIn := true; ReflectRem := true |}
                (object_bytes (metablock r))
  /\ crc r = standard_crc32 (object_bytes (metablock r))
  /\ 0 <= crc r < 2 ^ 32
  /\ _crc (set_crc r) = standard_crc32 (object_bytes (metablock r))
  /\ (check_crc r = true <-> _crc r = standard_crc32 (object_bytes (metablock r)))
  /\ forall c v, crc {| _crc := c; version := v; metablock := metablock r |} = crc r.
Proof.
  split; [reflexivity|].
  assert (crc r = standard_crc32 (object_bytes (metablock r))) as Hstd
    by apply crc_optimal_is_standard_crc32.
  split; [exact Hstd|]. split; [apply crc_optimal_range|].
  split; [exact Hstd|]. split; [|reflexivity].
  unfold check_crc. rewrite Hstd. apply Z.eqb_eq.
Qed.

(** C9: after [set_crc], [check_crc] holds, and the outcome of [check_crc]
    does not depend on the version field, which [crc] never reads. *)
Theorem check_after_set_and_version_independence (r : crc_metablock_t metablock_t) :
  check_crc (set_crc r) = true
  /\ (forall v, check_crc (set_version v r) = check_crc r)
  /\ (forall v, check_crc {| _crc := _crc r; version := v; metablock := metablock r |}
                 = check_crc r)
  /\ (forall v, crc (set_version v r) = crc r).
Proof.
  split; [apply valid_set_crc|]. repeat split.
Qed.

(** C3, as amended: the version field is a C [int], a 32-bit counter of four
    little-endian bytes: it holds the values of the [int] range and no
    others, the value read back from its four bytes is the value it holds,
    and bumping it by one yields a strictly greater version as long as it
    is below [INT_MAX]. *)
Theorem version_is_int_counter (r : crc_metablock_t metablock_t) :
  in_int (version r) ->
  length (version_bytes r) = 4%nat
  /\ version_of_bytes (version_bytes r) = version r
  /\ (forall v, - 2 ^ 31 <= version (set_version v r) < 2 ^ 31)
  /\ (forall v, - 2 ^ 31 <= v < 2 ^ 31 -> version (set_version v r) = v)
  /\ (version r < INT_MAX ->
      version (set_version (version r + 1) r) = version r + 1 /\
      version r < version (set_version (version r + 1) r) /\
      version_of_bytes (version_bytes (set_version (version r + 1) r)) = version r + 1).
Proof.
  intros Hr.
  split; [apply length_encode_le|].
  split; [now apply version_bytes_roundtrip|].
  split.
  { intros v. cbn [version set_version]. pose proof (int_wrap_range v) as Hw.
    unfold in_int, INT_MIN, INT_MAX in Hw. lia. }
  split.
  { intros v Hv. cbn [version set_version]. apply int_wrap_id.
    unfold in_int, INT_MIN, INT_MAX. lia. }
  intros Hmax.
  assert (in_int (version r + 1)) as Hnext.
  { unfold in_int, INT_MIN, INT_MAX in *. lia. }
  assert (version (set_version (version r + 1) r) = version r + 1) as Hbump.
  { cbn [version set_version]. now apply int_wrap_id. }
  split; [exact Hbump|]. split; [lia|].
  rewrite version_bytes_roundtrip; [exact Hbump | now rewrite Hbump].
Qed.

(** C6 (modelled from the specification): the offset of a cursor is
    [static_header_size + (extent * MB_EXTENT_SEPERATION) * extent_size
     + slot * sizeof(crc_metablock_t)] with [MB_NEXTENTS = 2] and
    [MB_EXTENT_SEPERATION = 4], the record at that offset lies inside its
    extent, and advancing moves to the next slot, or from the last slot of
    an extent to slot 0 of the next extent modulo [MB_NEXTENTS], setting
    [wraparound] when that extent is extent 0 again; [n] advances move the
    cursor [n] slots along the ring. *)
Theorem head_offset_and_advance (h : head_t) :
  geometry_ok (extent_size h) -> head_ok h ->
  MB_NEXTENTS = 2 /\ MB_EXTENT_SEPERATION = 4
  /\ offset h = static_header_size
                + (extent h * 4) * extent_size h
                + mb_slot h * sizeof_crc_metablock
  /\ (static_header_size + (extent h * 4) * extent_size h <= offset h
      /\ offset h + sizeof_crc_metablock
         <= static_header_size + (extent h * 4 + 1) * extent_size h)
  /\ (mb_slot h + 1 < slots_per_extent h ->
      mb_slot (incr h) = mb_slot h + 1 /\ extent (incr h) = extent h /\
      wraparound (incr h) = wraparound h)
  /\ (mb_slot h + 1 = slots_per_extent h ->
      mb_slot (incr h) = 0 /\ extent (incr h) = (extent h + 1) mod 2 /\
      wraparound (incr h) = wraparound h || (extent h =? 1))
  /\ forall n : nat,
       head_ok (Nat.iter n incr h) /\
       ring_index (Nat.iter n incr h) =
         (ring_index h + Z.of_nat n) mod ring_size (extent_size h) /\
       wraparound (Nat.iter n incr h) =
         wraparound h || (ring_size (extent_size h) <=? ring_index h + Z.of_nat n).
Proof.
  intros Hg Hok.
  split; [reflexivity|]. split; [reflexivity|]. split; [reflexivity|].
  split; [exact (offset_inside_extent h Hg Hok)|].
  split; [|split].
  - intros Hlt. destruct (incr_cases h Hg Hok) as [(_ & ? & ? & ?) | (Heq & _)];
      [auto | lia].
  - intros Heq. destruct (incr_cases h Hg Hok) as [(Hlt & _) | (_ & ? & ? & ?)];
      [lia | auto].
  - intros n. now apply iter_incr.
Qed.

End Ring.

(** *** A small ring

    Records of 16 bytes in extents of 32 bytes after a static header of
    4096 bytes: two slots per extent, four slots in the ring; payloads are
    raw bytes. *)

Definition zeroed_slot : crc_metablock_t (list byte) :=
  {| _crc := 0; version := 0; metablock := [x00; x00; x00; x00] |}.

Definition zeroed_device : list (crc_metablock_t (list byte)) :=
  [zeroed_slot; zeroed_slot; zeroed_slot; zeroed_slot].

Definition unstarted_manager : manager (metablock_t := list byte) :=
  {| head := head_init 32; mb_out := None; m_version := 0; state := state_unstarted |}.

Definition last_slot : head_t :=
  {| mb_slot := 1; extent := 1; saved_mb_slot := 0; saved_extent := 0;
     extent_size := 32; wraparound := false |}.

Example zeroed_slot_invalid : check_crc zeroed_slot = false.
Proof. vm_compute. reflexivity. Qed.

(** Closed arithmetic facts about concrete values, by evaluation. *)
Ltac by_evaluation :=
  vm_compute; repeat split; try reflexivity;
  try (let Hcmp := fresh "Hcmp" in intro Hcmp; discriminate Hcmp).

Lemma geometry_small : geometry_ok 16 32.
Proof. by_evaluation. Defined.

Lemma monotonic_recovery_witness :
  exists m0 mk dk mr,
    start 16 zeroed_device unstarted_manager = Some m0 /\
    write_all 16 [[x01]; [x02]; [x03]] (m0, zeroed_device) = Some (mk, dk) /\
    start 16 dk unstarted_manager = Some mr /\
    mb_found mr = true /\ mb_out mr = Some [x03].
Proof.
  destruct (monotonic_recovery 16 zeroed_device unstarted_manager unstarted_manager
              [[x01]; [x02]] [x03])
    as (_ & _ & m0 & mk & dk & mr & Hs0 & Hw & Hsr & Hf & Hout & _).
  - exact geometry_small.
  - reflexivity.
  - reflexivity.
  - reflexivity.
  - reflexivity.
  - by_evaluation.
  - repeat constructor; by_evaluation.
  - exists m0, mk, dk, mr. auto.
Defined.

Lemma version_is_int_counter_witness :
  length (version_bytes zeroed_slot) = 4%nat /\
  version (set_version (version zeroed_slot + 1) zeroed_slot) = 1.
Proof.
  destruct (version_is_int_counter zeroed_slot) as (Hlen & _ & _ & _ & Hbump).
  - by_evaluation.
  - destruct Hbump as (Hv & _); [by_evaluation|].
    split; [exact Hlen | exact Hv].
Defined.

(** C3, as the specification states it, fails: the field occupies four
    bytes, not eight, and the value [2^31], which a 64-bit counter holds,
    is not the value read back after it was stored. *)
Lemma version_field_not_64_bit :
  length (version_bytes zeroed_slot) <> 8%nat /\
  version (set_version (2 ^ 31) zeroed_slot) <> 2 ^ 31.
Proof. split; vm_compute; discriminate. Qed.

Lemma head_offset_and_advance_witness :
  offset 4096 16 last_slot = 4096 + (1 * 4) * 32 + 1 * 16 /\
  mb_slot (incr 16 last_slot) = 0 /\ extent (incr 16 last_slot) = 0 /\
  wraparound (incr 16 last_slot) = true.
Proof.
  destruct (head_offset_and_advance 4096 16 last_slot)
    as (_ & _ & Hoff & _ & _ & Hlast & _).
  - exact geometry_small.
  - by_evaluation.
  - destruct Hlast as (Hs & He & Hw); [reflexivity|]. auto.
Defined.

End Metablock.

(** ** The thread pool: [linux_thread_pool_t] *)

Module ThreadPool.

(** A [linux_thread_message_t] object, identified by its address. *)
Definition message : Type := nat.

(** The part of [linux_thread_t] the pool touches: the message hub (its
    inbox for messages from outside the pool and its local queue) and the
    flag [do_shutdown]. *)
Record linux_thread_t := {
  external_messages : list message;
  local_messages : list message;
  thread_do_shutdown : bool
}.

(** [blocker_pool_t], built on the event queue of one thread. *)
Record blocker_pool_t := {
  blocker_queue : nat
}.

(** What happens to [shutdown_cond] and [shutdown_cond_mutex], in order. *)
Inductive sync_event :=
| mutex_locked
| do_shutdown_stored (b : bool)
| cond_signalled
| mutex_unlocked.

(** The members of the pool.  [threads] is the table [threads[]], whose
    entries are null until a worker registers; [sync_history] is a ghost
    record of the operations on the shutdown condition and its mutex. *)
Record linux_thread_pool_t := {
  interrupt_message : option message;
  generic_blocker_pool : option blocker_pool_t;
  n_threads : Z;
  do_set_affinity : bool;
  do_shutdown : bool;
  threads : list (option linux_thread_t);
  shutdown_cond_mutex : bool;
  sync_history : list sync_event
}.

Definition set_interrupt (v : option message) (p : linux_thread_pool_t) :=
  {| interrupt_message := v;
     generic_blocker_pool := generic_blocker_pool p;
     n_threads := n_threads p; do_set_affinity := do_set_affinity p;
     do_shutdown := do_shutdown p; threads := threads p;
     shutdown_cond_mutex := shutdown_cond_mutex p;
     sync_history := sync_history p |}.

Definition set_blocker_pool (v : option blocker_pool_t) (p : linux_thread_pool_t) :=
  {| interrupt_message := interrupt_message p;
     generic_blocker_pool := v;
     n_threads := n_threads p; do_set_affinity := do_set_affinity p;
     do_shutdown := do_shutdown p; threads := threads p;
     shutdown_cond_mutex := shutdown_cond_mutex p;
     sync_history := sync_history p |}.

Definition set_threads (v : list (option linux_thread_t)) (p : linux_thread_pool_t) :=
  {| interrupt_message := interrupt_message p;
     generic_blocker_pool := generic_blocker_pool p;
     n_threads := n_threads p; do_set_affinity := do_set_affinity p;
     do_shutdown := do_shutdown p; threads := v;
     shutdown_cond_mutex := shutdown_cond_mutex p;
     sync_history := sync_history p |}.

Definition set_do_shutdown (v : bool) (p : linux_thread_pool_t) :=
  {| interrupt_message := interrupt_message p;
     generic_blocker_pool := generic_blocker_pool p;
     n_threads := n_threads p; do_set_affinity := do_set_affinity p;
     do_shutdown := v; threads := threads p;
     shutdown_cond_mutex := shutdown_cond_mutex p;
     sync_history := sync_history p ++ [do_shutdown_stored v] |}.

Definition log_sync (e : sync_event) (p : linux_thread_pool_t) :=
  {| interrupt_message := interrupt_message p;
     generic_blocker_pool := generic_blocker_pool p;
     n_threads := n_threads p; do_set_affinity := do_set_affinity p;
     do_shutdown := do_shutdown p; threads := threads p;
     shutdown_cond_mutex := shutdown_cond_mutex p;
     sync_history := sync_history p ++ [e] |}.

Definition set_mutex (v : bool) (e : sync_event) (p : linux_thread_pool_t) :=
  {| interrupt_message := interrupt_message p;
     generic_blocker_pool := generic_blocker_pool p;
     n_threads := n_threads p; do_set_affinity := do_set_affinity p;
     do_shutdown := do_shutdown p; threads := threads p;
     shutdown_cond_mutex := v;
     sync_history := sync_history p ++ [e] |}.

(** The member initialisers of the constructor: [interrupt_message(NULL)],
    [generic_blocker_pool(NULL)], [n_threads(worker_threads + 1)],
    [do_set_affinity(_do_set_affinity)].  The constructor writes neither
    [do_shutdown] nor [threads[]]: [run_thread_pool] assigns [do_shutdown]
    on entry and [start_thread] writes an entry of [threads[]] before
    anything reads it, so they stand here as [false] and as a table of
    [n_threads] null entries.  The body of the constructor, with its two
    [rassert]s, is [construct_linux_thread_pool_t] below. *)
Definition new_linux_thread_pool_t (worker_threads : Z) (_do_set_affinity : bool)
  : linux_thread_pool_t :=
  {| interrupt_message := None;
     generic_blocker_pool := None;
     n_threads := worker_threads + 1;
     do_set_affinity := _do_set_affinity;
     do_shutdown := false;
     threads := replicate (Z.to_nat (worker_threads + 1)) None;
     shutdown_cond_mutex := false;
     sync_history := [] |}.

(** The constructor [linux_thread_pool_t(worker_threads, _do_set_affinity)].
    [worker_threads + 1] is computed in [int], so there is no result where
    it exceeds [INT_MAX]; the body checks [rassert(n_threads > 1)] and
    [rassert(n_threads <= MAX_THREADS)], as in a debug build, and
    initialises the condition and the mutex.  It calls neither
    [pthread_create] nor anything else that starts a thread.
    [MAX_THREADS], a constant of the configuration headers, is a
    parameter. *)
Definition construct_linux_thread_pool_t (MAX_THREADS : Z)
    (worker_threads : Z) (_do_set_affinity : bool) : option linux_thread_pool_t :=
  if negb (worker_threads + 1 <=? MachineInt.INT_MAX) then None
  else
    let p := new_linux_thread_pool_t worker_threads _do_set_affinity in
    if negb (1 <? n_threads p) then None
    else if negb (n_threads p <=? MAX_THREADS) then None
    else Some p.

(** The utility thread is the extra one, the last of the table;
    [interrupt_handler] addresses it as [threads[n_threads - 1]]. *)
Definition utility_thread (p : linux_thread_pool_t) : nat := Z.to_nat (n_threads p - 1).

(** [set_interrupt_message]: exchange under [interrupt_message_lock]. *)
Definition set_interrupt_message (m : option message) (p : linux_thread_pool_t)
  : option message * linux_thread_pool_t :=
  (interrupt_message p, set_interrupt m p).

(** Modelled from the spec: [message_hub_t::insert_external_message], which
    is not among the sources, appends to the inbox for messages from
    outside the pool; delivery is first in, first out. *)
Definition insert_external_message (msg : message) (t : linux_thread_t) : linux_thread_t :=
  {| external_messages := external_messages t ++ [msg];
     local_messages := local_messages t;
     thread_do_shutdown := thread_do_shutdown t |}.

(** [threads[i]->message_hub.insert_external_message(msg)]; there is no
    result when [threads[i]] is null. *)
Definition post_external (i : nat) (msg : message) (p : linux_thread_pool_t)
  : option linux_thread_pool_t :=
  match threads p !! i with
  | Some (Some t) =>
      Some (set_threads (<[i := Some (insert_external_message msg t)]> (threads p)) p)
  | _ => None
  end.

(** [interrupt_handler], the handler of [SIGINT] and [SIGTERM]; it runs on
    the main thread (the [rassert] on [thread_id]). *)
Definition interrupt_handler (p : linux_thread_pool_t) : option linux_thread_pool_t :=
  let (interrupt_msg, p1) := set_interrupt_message None p in
  match interrupt_msg with
  | Some msg => post_external (utility_thread p1) msg p1
  | None => Some p1
  end.

(** [n] deliveries of the signal, one after the other. *)
Fixpoint deliver (n : nat) (p : linux_thread_pool_t) : option linux_thread_pool_t :=
  match n with
  | O => Some p
  | S n' =>
      match interrupt_handler p with
      | Some p' => deliver n' p'
      | None => None
      end
  end.

(** [shutdown_thread_pool]: the four library calls and the assignment; a
    call that returns an error makes [guarantee_xerr] abort.  Locking a
    mutex that is held does not return. *)
Definition pthread_mutex_lock (p : linux_thread_pool_t) : option linux_thread_pool_t :=
  if shutdown_cond_mutex p then None else Some (set_mutex true mutex_locked p).

Definition pthread_cond_signal (p : linux_thread_pool_t) : option linux_thread_pool_t :=
  Some (log_sync cond_signalled p).

Definition pthread_mutex_unlock (p : linux_thread_pool_t) : option linux_thread_pool_t :=
  if shutdown_cond_mutex p then Some (set_mutex false mutex_unlocked p) else None.

Definition shutdown_thread_pool (p : linux_thread_pool_t) : option linux_thread_pool_t :=
  p1 ← pthread_mutex_lock p;
  p2 ← pthread_cond_signal (set_do_shutdown true p1);
  pthread_mutex_unlock p2.

(** *** The handler of [SIGINT] and [SIGTERM], step by step

    A second signal may arrive while a handler runs, so an invocation is
    also given as its two atomic steps: the exchange under the spin lock,
    then the conditional post. *)
Inductive handler_pc :=
| entered
| swapped (interrupt_msg : option message)
| handler_returned.

Definition handler_step (p : linux_thread_pool_t) (pc : handler_pc)
  : option (linux_thread_pool_t * handler_pc) :=
  match pc with
  | entered =>
      let (interrupt_msg, p1) := set_interrupt_message None p in
      Some (p1, swapped interrupt_msg)
  | swapped (Some msg) =>
      p' ← post_external (utility_thread p) msg p; Some (p', handler_returned)
  | swapped None => Some (p, handler_returned)
  | handler_returned => None
  end.

(** Invocation [i] takes its next step. *)
Definition step_invocation (i : nat) (s : linux_thread_pool_t * list handler_pc)
  : option (linux_thread_pool_t * list handler_pc) :=
  pc ← s.2 !! i;
  r ← handler_step s.1 pc;
  Some (r.1, <[i := r.2]> s.2).

Fixpoint run_invocations (schedule : list nat) (s : linux_thread_pool_t * list handler_pc)
  : option (linux_thread_pool_t * list handler_pc) :=
  match schedule with
  | [] => Some s
  | i :: schedule' => s' ← step_invocation i s; run_invocations schedule' s'
  end.

(** *** The handler of [SIGSEGV] *)

(** Values of [<signal.h>] on Linux. *)
Definition SIGSEGV : Z := 11.
Definition SA_SIGINFO : Z := 4.
Definition SA_ONSTACK : Z := 0x08000000.
Definition SIGSTKSZ : Z := 8192.

(** [const int SEGV_STACK_SIZE = SIGSTKSZ;] *)
Definition SEGV_STACK_SIZE : Z := SIGSTKSZ.

Record stack_t := {
  ss_sp : Z;
  ss_flags : Z;
  ss_size : Z
}.

Inductive handler_t :=
| SIG_DFL
| SIG_IGN
| handler_interrupt
| handler_sigsegv.

Record sigaction_t := {
  sa_flags : Z;
  sa_handler : handler_t
}.

(** A thread of the process: the main thread, which calls
    [run_thread_pool], or thread [i] of the pool. *)
Inductive os_thread :=
| the_main_thread
| pool_thread (i : nat).

(** What the kernel holds for one thread: the mask of blocked signals and
    the alternate stack.  [pthread_sigmask] and [sigaltstack] act on the
    calling thread only. *)
Record thread_signals := {
  blocked : Z -> bool;
  altstack : option stack_t
}.

(** What the kernel holds for the process: the disposition of [SIGSEGV],
    which [sigaction] sets for all its threads at once, and the state of
    every thread. *)
Record signal_state := {
  segv_action : sigaction_t;
  main_signals : thread_signals;
  pool_signals : list thread_signals
}.

Definition signals_of (k : signal_state) (t : os_thread) : option thread_signals :=
  match t with
  | the_main_thread => Some (main_signals k)
  | pool_thread i => pool_signals k !! i
  end.

(** [crash(format, arguments)] reports and aborts the process. *)
Inductive handler_result :=
| aborted (format : string) (arguments : list Z)
| resumed.

Inductive stack_kind :=
| on_alternate_stack (s : stack_t)
| on_thread_stack.

Section Sigsegv.
(** [is_coroutine_stack_overflow], of the coroutine runtime: whether an
    address lies in the guard page of a coroutine stack. *)
Variable is_coroutine_stack_overflow : Z -> bool.

Definition sigsegv_handler (signum : Z) (si_addr : Z) : handler_result :=
  if signum =? SIGSEGV then
    if is_coroutine_stack_overflow si_addr then
      aborted "Callstack overflow in a coroutine" []
    else
      aborted "Segmentation fault from reading the address %p." [si_addr]
  else
    aborted "Unexpected signal: %d\n" [signum].

(** The signal set-up at the head of [start_thread], run by thread [i] of
    the pool: the thread blocks every signal but [SIGSEGV]; unless built
    for Valgrind, it installs for itself an alternate stack of
    [SEGV_STACK_SIZE] bytes at [sp] (the result of [malloc_aligned], which
    must not be null) and registers [sigsegv_handler] with
    [SA_SIGINFO | SA_ONSTACK], for the whole process. *)
Definition start_thread_signals (valgrind : bool) (sp : Z) (i : nat) (k : signal_state)
  : option signal_state :=
  ts ← pool_signals k !! i;
  let masked := fun signum => negb (signum =? SIGSEGV) in
  if valgrind then
    Some {| segv_action := segv_action k;
            main_signals := main_signals k;
            pool_signals :=
              <[i := {| blocked := masked; altstack := altstack ts |}]> (pool_signals k) |}
  else if sp =? 0 then None
  else
    Some {| segv_action := {| sa_flags := Z.lor SA_SIGINFO SA_ONSTACK;
                              sa_handler := handler_sigsegv |};
            main_signals := main_signals k;
            pool_signals :=
              <[i := {| blocked := masked;
                        altstack := Some {| ss_sp := sp; ss_flags := 0;
                                            ss_size := SEGV_STACK_SIZE |} |}]>
                (pool_signals k) |}.

(** The stack a handler registered with [flags] runs on in a thread: the
    alternate stack when the action has [SA_ONSTACK] and the thread has
    installed one, the stack of the thread otherwise. *)
Definition handler_stack (flags : Z) (ts : thread_signals) : stack_kind :=
  match altstack ts with
  | Some s => if Z.land flags SA_ONSTACK =? 0 then on_thread_stack else on_alternate_stack s
  | None => on_thread_stack
  end.

(** Delivery of [SIGSEGV] to thread [t].  There is no result when the
    thread has the signal blocked or no handler of the pool is
    registered. *)
Definition deliver_sigsegv (k : signal_state) (t : os_thread) (si_addr : Z)
  : option (stack_kind * handler_result) :=
  ts ← signals_of k t;
  if blocked ts SIGSEGV then None
  else
    match sa_handler (segv_action k) with
    | handler_sigsegv =>
        Some (handler_stack (sa_flags (segv_action k)) ts, sigsegv_handler SIGSEGV si_addr)
    | _ => None
    end.

End Sigsegv.

(** *** The interrupt message is posted once *)

Lemma set_interrupt_same p : interrupt_message p = None -> set_interrupt None p = p.
Proof. destruct p. cbn. now intros ->. Qed.

Lemma interrupt_handler_idle p : interrupt_message p = None -> interrupt_handler p = Some p.
Proof.
  intros Hnone. unfold interrupt_handler, set_interrupt_message.
  rewrite Hnone. now rewrite set_interrupt_same.
Qed.

Lemma deliver_idle n p : interrupt_message p = None -> deliver n p = Some p.
Proof.
  intros Hnone. induction n as [|n IH]; [reflexivity|].
  cbn [deliver]. now rewrite interrupt_handler_idle.
Qed.

(** The state after the single post of [msg] to the utility thread [t]. *)
Definition posted (msg : message) (t : linux_thread_t) (p : linux_thread_pool_t) :=
  set_threads (<[utility_thread p := Some (insert_external_message msg t)]> (threads p))
              (set_interrupt None p).

Lemma interrupt_handler_armed p msg t :
  interrupt_message p = Some msg ->
  threads p !! utility_thread p = Some (Some t) ->
  interrupt_handler p = Some (posted msg t p).
Proof.
  intros Hmsg Ht. unfold interrupt_handler, set_interrupt_message, post_external.
  rewrite Hmsg.
  change (utility_thread (set_interrupt None p)) with (utility_thread p).
  change (threads (set_interrupt None p)) with (threads p).
  now rewrite Ht.
Qed.

(** A whole invocation is its two steps. *)
Lemma interrupt_handler_steps p :
  interrupt_handler p =
  (r ← handler_step p entered; r' ← handler_step r.1 r.2; Some r'.1).
Proof.
  unfold interrupt_handler, handler_step, set_interrupt_message. cbn.
  destruct (interrupt_message p) as [msg|]; [|reflexivity].
  now destruct (post_external _ msg _).
Qed.

(** [N >= 1] deliveries, one after the other, amount to one post. *)
Lemma deliver_posts_once (N : nat) (p : linux_thread_pool_t)
    (msg : message) (t : linux_thread_t) :
  (1 <= N)%nat ->
  interrupt_message p = Some msg ->
  threads p !! utility_thread p = Some (Some t) ->
  deliver N p = Some (posted msg t p).
Proof.
  intros HN Hmsg Ht. destruct N as [|N]; [lia|].
  cbn [deliver]. rewrite (interrupt_handler_armed p msg t Hmsg Ht).
  now apply deliver_idle.
Qed.

(** An invocation that does not hold the message. *)
Definition benign (pc : handler_pc) : Prop :=
  match pc with swapped (Some _) => False | _ => True end.

(** Under any interleaving of the steps of the invocations, the message is
    in the pool, or in the hands of exactly one invocation, or posted. *)
Definition interleaving_inv (p : linux_thread_pool_t) (msg : message) (t : linux_thread_t)
    (s : linux_thread_pool_t * list handler_pc) : Prop :=
  (s.1 = p /\ Forall (fun pc => pc = entered) s.2)
  \/ (s.1 = set_interrupt None p /\
      exists i, s.2 !! i = Some (swapped (Some msg)) /\
                forall j pc, j <> i -> s.2 !! j = Some pc -> benign pc)
  \/ (s.1 = posted msg t p /\ Forall benign s.2).

Lemma step_invocation_inv p msg t i s s' :
  interrupt_message p = Some msg ->
  threads p !! utility_thread p = Some (Some t) ->
  interleaving_inv p msg t s -> step_invocation i s = Some s' ->
  interleaving_inv p msg t s'.
Proof.
  intros Hmsg Ht Hinv Hstep. destruct s as [q pcs].
  unfold step_invocation in Hstep. unfold interleaving_inv in *.
  cbn [fst snd] in *.
  destruct (pcs !! i) as [pc|] eqn:Hpc; [|discriminate]. cbn in Hstep.
  assert (i < length pcs)%nat as Hi by now apply lookup_lt_Some in Hpc.
  destruct Hinv as [[-> Hall] | [[-> (k & Hk & Hothers)] | [-> Hall]]].
  - (* nobody has exchanged yet *)
    rewrite (proj1 (Forall_lookup _ _) Hall i pc Hpc) in *.
    cbn in Hstep. rewrite Hmsg in Hstep. injection Hstep as <-.
    right. left. split; [reflexivity|]. exists i. cbn [snd].
    split; [now apply list_lookup_insert_eq|].
    intros j pc' Hne Hj. rewrite list_lookup_insert_ne in Hj by congruence.
    now rewrite (proj1 (Forall_lookup _ _) Hall j pc' Hj).
  - (* one invocation holds the message *)
    destruct (Nat.eq_dec i k) as [->|Hne].
    + rewrite Hk in Hpc. injection Hpc as <-. cbn in Hstep.
      change (utility_thread (set_interrupt None p)) with (utility_thread p) in Hstep.
      unfold post_external in Hstep.
      change (threads (set_interrupt None p)) with (threads p) in Hstep.
      rewrite Ht in Hstep. cbn in Hstep. injection Hstep as <-.
      right. right. split; [reflexivity|]. cbn [snd].
      apply Forall_lookup. intros j pc' Hj.
      destruct (Nat.eq_dec j k) as [->|Hne].
      * rewrite list_lookup_insert_eq in Hj by exact Hi. now injection Hj as <-.
      * rewrite list_lookup_insert_ne in Hj by congruence. now apply (Hothers j).
    + pose proof (Hothers i pc Hne Hpc) as Hb.
      destruct pc as [|[m|]|]; cbn in Hstep; try discriminate; try contradiction.
      * injection Hstep as <-. right. left. split; [reflexivity|].
        exists k. cbn [snd]. split; [now rewrite list_lookup_insert_ne|].
        intros j pc' Hjk Hj. destruct (Nat.eq_dec j i) as [->|Hji].
        -- rewrite list_lookup_insert_eq in Hj by exact Hi. now injection Hj as <-.
        -- rewrite list_lookup_insert_ne in Hj by congruence. now apply (Hothers j).
      * injection Hstep as <-. right. left. split; [reflexivity|].
        exists k. cbn [snd]. split; [now rewrite list_lookup_insert_ne|].
        intros j pc' Hjk Hj. destruct (Nat.eq_dec j i) as [->|Hji].
        -- rewrite list_lookup_insert_eq in Hj by exact Hi. now injection Hj as <-.
        -- rewrite list_lookup_insert_ne in Hj by congruence. now apply (Hothers j).
  - (* the message was posted *)
    pose proof (proj1 (Forall_lookup _ _) Hall i pc Hpc) as Hb.
    assert (forall pc', benign pc' -> Forall benign (<[i := pc']> pcs)) as Hins.
    { intros pc' Hpc'. apply Forall_lookup. intros j pc'' Hj.
      destruct (Nat.eq_dec j i) as [->|Hji].
      - rewrite list_lookup_insert_eq in Hj by exact Hi. now injection Hj as <-.
      - rewrite list_lookup_insert_ne in Hj by congruence.
        exact (proj1 (Forall_lookup _ _) Hall j pc'' Hj). }
    destruct pc as [|[m|]|]; cbn in Hstep; try discriminate; try contradiction.
    + injection Hstep as <-. right. right. split; [reflexivity|]. now apply Hins.
    + injection Hstep as <-. right. right. split; [reflexivity|]. now apply Hins.
Qed.

Lemma run_invocations_inv p msg t schedule : forall s s',
  interrupt_message p = Some msg ->
  threads p !! utility_thread p = Some (Some t) ->
  interleaving_inv p msg t s -> run_invocations schedule s = Some s' ->
  interleaving_inv p msg t s'.
Proof.
  induction schedule as [|i schedule IH]; intros s s' Hmsg Ht Hinv Hrun.
  - cbn in Hrun. now injection Hrun as <-.
  - cbn [run_invocations] in Hrun.
    destruct (step_invocation i s) as [s1|] eqn:Hstep; [|discriminate].
    cbn in Hrun. apply (IH s1 s' Hmsg Ht); [|exact Hrun].
    exact (step_invocation_inv p msg t i s s1 Hmsg Ht Hinv Hstep).
Qed.

Lemma run_invocations_length schedule : forall s s',
  run_invocations schedule s = Some s' -> length s'.2 = length s.2.
Proof.
  induction schedule as [|i schedule IH]; intros s s' Hrun.
  - cbn in Hrun. now injection Hrun as <-.
  - cbn [run_invocations] in Hrun.
    destruct (step_invocation i s) as [s1|] eqn:Hstep; [|discriminate].
    cbn in Hrun. rewrite (IH _ _ Hrun).
    unfold step_invocation in Hstep.
    destruct (s.2 !! i) as [pc|]; [|discriminate]. cbn in Hstep.
    destruct (handler_step s.1 pc) as [r|]; [|discriminate]. cbn in Hstep.
    injection Hstep as <-. cbn [snd]. apply length_insert.
Qed.

(** However the steps of [N >= 1] invocations are interleaved, once all of
    them have returned the message has been posted exactly once. *)
Lemma interleaved_invocations_post_once (N : nat) (schedule : list nat)
    (p p' : linux_thread_pool_t) (pcs' : list handler_pc)
    (msg : message) (t : linux_thread_t) :
  (1 <= N)%nat ->
  interrupt_message p = Some msg ->
  threads p !! utility_thread p = Some (Some t) ->
  run_invocations schedule (p, replicate N entered) = Some (p', pcs') ->
  Forall (fun pc => pc = handler_returned) pcs' ->
  p' = posted msg t p.
Proof.
  intros HN Hmsg Ht Hrun Hdone.
  pose proof (run_invocations_length _ _ _ Hrun) as Hlen.
  cbn [snd] in Hlen. rewrite length_replicate in Hlen.
  assert (interleaving_inv p msg t (p', pcs')) as Hinv.
  { apply (run_invocations_inv p msg t schedule _ _ Hmsg Ht) in Hrun; [exact Hrun|].
    left. split; [reflexivity|]. cbn [snd]. apply Forall_replicate. reflexivity. }
  unfold interleaving_inv in Hinv. cbn [fst snd] in Hinv.
  destruct Hinv as [[_ Hall] | [[_ (i & Hi & _)] | [-> _]]].
  - destruct pcs' as [|pc pcs']; [cbn in Hlen; lia|].
    apply Forall_cons in Hall as [-> _]. apply Forall_cons in Hdone as [Hd _].
    discriminate.
  - pose proof (proj1 (Forall_lookup _ _) Hdone i _ Hi). discriminate.
  - reflexivity.
Qed.

(** C4: with an interrupt message stored and the utility thread registered,
    [N >= 1] deliveries of the signal enqueue the message exactly once, on
    the utility thread [threads[n_threads - 1]]: the message is appended
    once to its inbox, the pointer is left null, every other thread is
    untouched; and the same final state is reached however the two steps
    (exchange, post) of the [N] invocations are interleaved. *)
Theorem interrupt_delivered_once (N : nat) (p : linux_thread_pool_t)
    (msg : message) (t : linux_thread_t) :
  (1 <= N)%nat ->
  interrupt_message p = Some msg ->
  threads p !! utility_thread p = Some (Some t) ->
  (exists p',
     deliver N p = Some p' /\
     interrupt_message p' = None /\
     threads p' !! Z.to_nat (n_threads p - 1) =
       Some (Some {| external_messages := external_messages t ++ [msg];
                     local_messages := local_messages t;
                     thread_do_shutdown := thread_do_shutdown t |}) /\
     (forall i, i <> Z.to_nat (n_threads p - 1) -> threads p' !! i = threads p !! i) /\
     forall schedule q pcs,
       run_invocations schedule (p, replicate N entered) = Some (q, pcs) ->
       Forall (fun pc => pc = handler_returned) pcs ->
       q = p')
  /\ (forall q, interrupt_message q = None -> interrupt_handler q = Some q).
Proof.
  intros HN Hmsg Ht. split; [|exact interrupt_handler_idle].
  exists (posted msg t p).
  split; [now apply deliver_posts_once|]. split; [reflexivity|].
  unfold posted at 1 2. cbn [threads set_threads]. fold (utility_thread p).
  split; [|split].
  - apply list_lookup_insert_eq. now apply lookup_lt_Some in Ht.
  - intros i Hi. now apply list_lookup_insert_ne.
  - intros schedule q pcs Hrun Hdone.
    exact (interleaved_invocations_post_once N schedule p q pcs msg t HN Hmsg Ht Hrun Hdone).
Qed.

(** *** [SIGSEGV] aborts, on the alternate stack of a worker *)

(** What [sigsegv_handler] reports for a fault at [si_addr]. *)
Definition sigsegv_report (is_coroutine_stack_overflow : Z -> bool) (si_addr : Z)
  : handler_result :=
  if is_coroutine_stack_overflow si_addr
  then aborted "Callstack overflow in a coroutine" []
  else aborted "Segmentation fault from reading the address %p." [si_addr].

Lemma sigsegv_handler_never_resumes (is_coroutine_stack_overflow : Z -> bool)
    (signum addr : Z) :
  sigsegv_handler is_coroutine_stack_overflow signum addr <> resumed.
Proof.
  unfold sigsegv_handler.
  destruct (signum =? SIGSEGV); [|discriminate].
  destruct (is_coroutine_stack_overflow addr); discriminate.
Qed.

(** Once a worker has registered the handler, a [SIGSEGV] delivered to any
    thread that does not block it runs the handler, on the stack that
    thread has. *)
Lemma deliver_sigsegv_registered (is_coroutine_stack_overflow : Z -> bool)
    (k : signal_state) (t : os_thread) (ts : thread_signals) (si_addr : Z) :
  segv_action k = {| sa_flags := Z.lor SA_SIGINFO SA_ONSTACK;
                     sa_handler := handler_sigsegv |} ->
  signals_of k t = Some ts -> blocked ts SIGSEGV = false ->
  deliver_sigsegv is_coroutine_stack_overflow k t si_addr =
    Some (match altstack ts with
          | Some s => on_alternate_stack s
          | None => on_thread_stack
          end,
          sigsegv_report is_coroutine_stack_overflow si_addr).
Proof.
  intros Hact Hts Hunblocked. unfold deliver_sigsegv. rewrite Hts. cbn.
  rewrite Hunblocked, Hact. cbn [sa_handler sa_flags]. unfold handler_stack.
  unfold sigsegv_handler, sigsegv_report.
  now destruct (altstack ts).
Qed.

(** C8, as amended: after thread [i] of the pool has gone through the
    signal set-up of [start_thread] (not built for Valgrind), a [SIGSEGV]
    delivered to thread [i] runs [sigsegv_handler] on the alternate stack
    of [SEGV_STACK_SIZE] bytes that the thread installed.  The handler is
    registered for the whole process while the alternate stack belongs to
    the thread: a [SIGSEGV] delivered to any thread that does not block it
    runs the handler, on the alternate stack of that thread if it has
    installed one and on its ordinary stack otherwise, and the set-up of
    thread [i] changes the alternate stack of no other thread.  Wherever it
    runs, the handler reports a stack overflow of a coroutine when the
    faulting address is in a guard page and the faulting address otherwise,
    and in no case resumes the program. *)
Theorem sigsegv_aborts_on_alternate_stack (is_coroutine_stack_overflow : Z -> bool)
    (k : signal_state) (i : nat) (sp si_addr : Z) :
  sp <> 0 -> (i < length (pool_signals k))%nat ->
  exists k',
    start_thread_signals false sp i k = Some k' /\
    deliver_sigsegv is_coroutine_stack_overflow k' (pool_thread i) si_addr =
      Some (on_alternate_stack {| ss_sp := sp; ss_flags := 0; ss_size := SEGV_STACK_SIZE |},
            if is_coroutine_stack_overflow si_addr
            then aborted "Callstack overflow in a coroutine" []
            else aborted "Segmentation fault from reading the address %p." [si_addr]) /\
    (forall t ts, signals_of k' t = Some ts -> blocked ts SIGSEGV = false ->
       deliver_sigsegv is_coroutine_stack_overflow k' t si_addr =
         Some (match altstack ts with
               | Some s => on_alternate_stack s
               | None => on_thread_stack
               end,
               if is_coroutine_stack_overflow si_addr
               then aborted "Callstack overflow in a coroutine" []
               else aborted "Segmentation fault from reading the address %p." [si_addr])) /\
    signals_of k' the_main_thread = signals_of k the_main_thread /\
    (forall j, j <> i -> signals_of k' (pool_thread j) = signals_of k (pool_thread j)) /\
    forall signum addr, sigsegv_handler is_coroutine_stack_overflow signum addr <> resumed.
Proof.
  intros Hsp Hi. unfold start_thread_signals.
  destruct (lookup_lt_is_Some_2 (pool_signals k) i Hi) as [ts Hts]. rewrite Hts. cbn.
  destruct (Z.eqb_spec sp 0) as [|_]; [contradiction|].
  eexists. split; [reflexivity|].
  split; [|split; [|split; [reflexivity|split]]].
  - apply (deliver_sigsegv_registered is_coroutine_stack_overflow _ (pool_thread i)
             {| blocked := fun signum => negb (signum =? SIGSEGV);
                altstack := Some {| ss_sp := sp; ss_flags := 0;
                                    ss_size := SEGV_STACK_SIZE |} |} si_addr).
    + reflexivity.
    + cbn [signals_of pool_signals]. now apply list_lookup_insert_eq.
    + reflexivity.
  - intros t ts' Ht Hunblocked.
    apply (deliver_sigsegv_registered is_coroutine_stack_overflow _ t ts' si_addr);
      [reflexivity | exact Ht | exact Hunblocked].
  - intros j Hj. cbn [signals_of pool_signals]. now apply list_lookup_insert_ne.
  - apply sigsegv_handler_never_resumes.
Qed.

(** A process in which no signal is blocked, no alternate stack is
    installed and [SIGSEGV] has its default action, with two threads in
    the pool. *)
Definition untouched_thread : thread_signals :=
  {| blocked := fun _ => false; altstack := None |}.

Definition fresh_process : signal_state :=
  {| segv_action := {| sa_flags := 0; sa_handler := SIG_DFL |};
     main_signals := untouched_thread;
     pool_signals := [untouched_thread; untouched_thread] |}.

Lemma sigsegv_aborts_on_alternate_stack_witness :
  exists k',
    start_thread_signals false 4096 0 fresh_process = Some k' /\
    deliver_sigsegv (fun a => (8192 <=? a) && (a <? 12288)) k' (pool_thread 0) 8200 =
      Some (on_alternate_stack {| ss_sp := 4096; ss_flags := 0; ss_size := 8192 |},
            aborted "Callstack overflow in a coroutine" []).
Proof.
  destruct (sigsegv_aborts_on_alternate_stack
              (fun a => (8192 <=? a) && (a <? 12288)) fresh_process 0 4096 8200)
    as (k' & Hk & Hd & _).
  - discriminate.
  - cbn. lia.
  - exists k'. split; [exact Hk | exact Hd].
Defined.

(** C8, as the specification states it, fails: not every delivered
    [SIGSEGV] is handled on an alternate stack.  After thread 0 of the pool
    has run its set-up, the handler is registered for the process, but the
    main thread, which never runs [start_thread], has no alternate stack: a
    [SIGSEGV] delivered to it runs [sigsegv_handler] on the ordinary stack
    of the main thread.  The same holds for thread 1 as long as it has not
    reached its own set-up.  In a build for Valgrind no thread registers
    the handler, and a [SIGSEGV] runs no handler of the pool at all. *)
Lemma sigsegv_on_main_thread_uses_thread_stack :
  exists k' kv,
    start_thread_signals false 4096 0 fresh_process = Some k' /\
    deliver_sigsegv (fun a => (8192 <=? a) && (a <? 12288)) k' the_main_thread 100 =
      Some (on_thread_stack, aborted "Segmentation fault from reading the address %p." [100]) /\
    deliver_sigsegv (fun a => (8192 <=? a) && (a <? 12288)) k' (pool_thread 1) 100 =
      Some (on_thread_stack, aborted "Segmentation fault from reading the address %p." [100]) /\
    (forall s r,
       deliver_sigsegv (fun a => (8192 <=? a) && (a <? 12288)) k' the_main_thread 100
         <> Some (on_alternate_stack s, r)) /\
    start_thread_signals true 4096 0 fresh_process = Some kv /\
    deliver_sigsegv (fun a => (8192 <=? a) && (a <? 12288)) kv (pool_thread 0) 100 = None.
Proof.
  eexists. eexists. split; [reflexivity|]. split; [reflexivity|]. split; [reflexivity|].
  split; [intros s r; discriminate|]. split; reflexivity.
Qed.

(** *** [shutdown_thread_pool] *)

(** C10: when [shutdown_cond_mutex] is free, [shutdown_thread_pool] returns;
    it takes the mutex, sets [do_shutdown], signals the condition and
    releases the mutex, in this order, and changes nothing else: the
    interrupt message, the table of threads with the state of every worker,
    the blocker pool, [n_threads] and the affinity flag are as before. *)
Theorem shutdown_thread_pool_frame (p : linux_thread_pool_t) :
  shutdown_cond_mutex p = false ->
  exists p',
    shutdown_thread_pool p = Some p' /\
    do_shutdown p' = true /\
    sync_history p' =
      sync_history p ++ [mutex_locked; do_shutdown_stored true; cond_signalled; mutex_unlocked] /\
    shutdown_cond_mutex p' = false /\
    interrupt_message p' = interrupt_message p /\
    threads p' = threads p /\
    generic_blocker_pool p' = generic_blocker_pool p /\
    n_threads p' = n_threads p /\
    do_set_affinity p' = do_set_affinity p.
Proof.
  intros Hfree. unfold shutdown_thread_pool, pthread_mutex_lock. rewrite Hfree.
  cbn. eexists. split; [reflexivity|]. cbn.
  rewrite <- !app_assoc. repeat split.
Qed.

Definition three_thread_pool : linux_thread_pool_t :=
  {| interrupt_message := Some 7%nat;
     generic_blocker_pool := None;
     n_threads := 3; do_set_affinity := false; do_shutdown := false;
     threads := replicate 3 (Some {| external_messages := []; local_messages := [];
                                     thread_do_shutdown := false |});
     shutdown_cond_mutex := false; sync_history := [] |}.

Lemma interrupt_delivered_once_witness :
  exists p',
    deliver 5 three_thread_pool = Some p' /\
    interrupt_message p' = None /\
    threads p' !! 2%nat =
      Some (Some {| external_messages := [7%nat]; local_messages := [];
                    thread_do_shutdown := false |}).
Proof.
  destruct (interrupt_delivered_once 5 three_thread_pool 7%nat
              {| external_messages := []; local_messages := [];
                 thread_do_shutdown := false |})
    as [(p' & Hd & Hnone & Hu & _) _].
  - repeat constructor.
  - reflexivity.
  - reflexivity.
  - exists p'. auto.
Defined.

Lemma shutdown_thread_pool_frame_witness :
  exists p',
    shutdown_thread_pool three_thread_pool = Some p' /\
    do_shutdown p' = true /\
    interrupt_message p' = Some 7%nat /\
    threads p' = threads three_thread_pool.
Proof.
  destruct (shutdown_thread_pool_frame three_thread_pool)
    as (p' & Hs & Hd & _ & _ & Hi & Ht & _).
  - reflexivity.
  - exists p'. auto.
Defined.

End ThreadPool.

(** ** Start-up and shutdown of the pool

    [run_thread_pool] (the main thread) and [start_thread] (one per worker)
    as a transition system over the shared pool, the barrier and the
    position of every thread in its function.  A step is taken by the main
    thread, by a worker, by a message handler running in the event loop of a
    worker, or by a signal delivered to the main thread. *)

Module Lifecycle.
Import ThreadPool.

(** Modelled from the spec: [thread_barrier_t] ([arch/barrier.hpp]) is not
    among the sources.  [wait] returns once [arity] threads have called
    it, and the barrier can then be used again. *)
Record thread_barrier_t := {
  arity : nat;
  waiting : nat;
  generation : nat
}.

(** Modelled from the spec: [thread_barrier_t::wait], which is not among
    the sources, at the moment a thread enters it: the last thread to
    arrive releases the barrier, the others stay inside until the
    generation has changed. *)
Definition barrier_arrive (b : thread_barrier_t) : thread_barrier_t * bool :=
  if (S (waiting b) =? arity b)%nat then
    ({| arity := arity b; waiting := 0; generation := S (generation b) |}, true)
  else
    ({| arity := arity b; waiting := S (waiting b); generation := generation b |}, false).

(** Positions in [start_thread]. *)
Inductive worker_pc :=
| not_created
| at_setup
| at_start_barrier
| in_start_barrier (g : nat)
| past_start_barrier
| in_queue_run
| at_exit_barrier
| in_exit_barrier (g : nat)
| past_exit_barrier
| exited.

(** Positions in [run_thread_pool]. *)
Inductive main_pc :=
| main_creating (i : nat)
| main_at_start_barrier
| main_in_start_barrier (g : nat)
| main_install_handlers
| main_wait_shutdown
| main_remove_handlers
| main_initiating (i : nat)
| main_at_exit_barrier
| main_in_exit_barrier (g : nat)
| main_joining (i : nat)
| main_returned.

Record system := {
  pool : linux_thread_pool_t;
  barrier : thread_barrier_t;
  main : main_pc;
  workers : list worker_pc;
  interrupt_handlers_installed : bool
}.

Definition with_pool (p : linux_thread_pool_t) (s : system) : system :=
  {| pool := p; barrier := barrier s; main := main s; workers := workers s;
     interrupt_handlers_installed := interrupt_handlers_installed s |}.

Definition with_barrier (b : thread_barrier_t) (s : system) : system :=
  {| pool := pool s; barrier := b; main := main s; workers := workers s;
     interrupt_handlers_installed := interrupt_handlers_installed s |}.

Definition with_main (pc : main_pc) (s : system) : system :=
  {| pool := pool s; barrier := barrier s; main := pc; workers := workers s;
     interrupt_handlers_installed := interrupt_handlers_installed s |}.

Definition with_worker (i : nat) (pc : worker_pc) (s : system) : system :=
  {| pool := pool s; barrier := barrier s; main := main s;
     workers := <[i := pc]> (workers s);
     interrupt_handlers_installed := interrupt_handlers_installed s |}.

Definition with_handlers (v : bool) (s : system) : system :=
  {| pool := pool s; barrier := barrier s; main := main s; workers := workers s;
     interrupt_handlers_installed := v |}.

(** [tdata->initial_message = (i == 0) ? initial_message : NULL] *)
Definition tdata_initial_message (initial_message : option message) (i : nat)
  : option message :=
  if (i =? 0)%nat then initial_message else None.

(** The constructor of [linux_thread_t]: an empty hub, [do_shutdown(false)]. *)
Definition new_linux_thread_t : linux_thread_t :=
  {| external_messages := []; local_messages := []; thread_do_shutdown := false |}.

(** [start_thread] up to the first [barrier->wait()]: the thread registers
    its [linux_thread_t] in [threads[current_thread]], and the thread that
    was given the initial message builds the blocker pool on its own queue
    ([rassert]: there must be none yet). *)
Definition start_thread_setup (initial_message : option message) (i : nat)
    (p : linux_thread_pool_t) : option linux_thread_pool_t :=
  let p1 := set_threads (<[i := Some new_linux_thread_t]> (threads p)) p in
  match tdata_initial_message initial_message i with
  | Some _ =>
      match generic_blocker_pool p1 with
      | Some _ => None
      | None => Some (set_blocker_pool (Some {| blocker_queue := i |}) p1)
      end
  | None => Some p1
  end.

(** Modelled from the spec: [message_hub_t::store_message] queues a message
    on the hub of the calling thread. *)
Definition store_message (msg : message) (t : linux_thread_t) : linux_thread_t :=
  {| external_messages := external_messages t;
     local_messages := local_messages t ++ [msg];
     thread_do_shutdown := thread_do_shutdown t |}.

(** [start_thread] between the first barrier and [queue.run()]: the
    [rassert] that the blocker pool exists, then the initial message is
    stored on the hub of its thread. *)
Definition start_thread_after_barrier (initial_message : option message) (i : nat)
    (p : linux_thread_pool_t) : option linux_thread_pool_t :=
  match generic_blocker_pool p with
  | None => None
  | Some _ =>
      match tdata_initial_message initial_message i with
      | Some msg =>
          match threads p !! i with
          | Some (Some t) => Some (set_threads (<[i := Some (store_message msg t)]> (threads p)) p)
          | _ => None
          end
      | None => Some p
      end
  end.

(** [start_thread] after the second barrier: the thread that built the
    blocker pool deletes it, and the entry of the thread is cleared. *)
Definition start_thread_teardown (initial_message : option message) (i : nat)
    (p : linux_thread_pool_t) : linux_thread_pool_t :=
  let p1 :=
    match tdata_initial_message initial_message i with
    | Some _ => set_blocker_pool None p
    | None => p
    end in
  set_threads (<[i := None]> (threads p1)) p1.

(** [linux_thread_t::should_shut_down] and [initiate_shut_down]. *)
Definition should_shut_down (i : nat) (p : linux_thread_pool_t) : bool :=
  match threads p !! i with
  | Some (Some t) => thread_do_shutdown t
  | _ => false
  end.

Definition initiate_shut_down (i : nat) (p : linux_thread_pool_t)
  : option linux_thread_pool_t :=
  match threads p !! i with
  | Some (Some t) =>
      Some (set_threads
              (<[i := Some {| external_messages := external_messages t;
                              local_messages := local_messages t;
                              thread_do_shutdown := true |}]> (threads p)) p)
  | _ => None
  end.

(** The wait for the order to shut down: the mutex is taken, the loop is
    left when [do_shutdown] holds, the mutex is released. *)
Definition wait_for_shutdown (p : linux_thread_pool_t) : option linux_thread_pool_t :=
  p1 ← pthread_mutex_lock p;
  if do_shutdown p1 then pthread_mutex_unlock p1 else None.

(** The head of [for (int i = ...; i < n_threads; i++)]. *)
Definition next_in_loop (i n : nat) (again : nat -> main_pc) (after : main_pc) : main_pc :=
  if (i <? n)%nat then again i else after.

(** What a message handler may do to the pool from the event loop. *)
Inductive handler_action :=
| call_shutdown_thread_pool
| call_set_interrupt_message (m : option message).

Inductive actor :=
| main_thread
| worker_thread (i : nat)
| message_handler (i : nat) (a : handler_action)
| interrupt_signal.

Section Run.
(** The argument of [run_thread_pool]. *)
Variable initial_message : option message.

(** One step of the main thread in [run_thread_pool]: the loop of
    [pthread_create] (the affinity of the threads is left out), the first
    [barrier.wait()], the installation of the handlers of [SIGTERM] and
    [SIGINT], the wait for [do_shutdown], the removal of the handlers, the
    loop of [initiate_shut_down], the second [barrier.wait()] and the loop
    of [pthread_join].  [n] is [n_threads].  There is no next state where
    the thread is blocked or the function has returned. *)
Definition main_step (s : system) : option system :=
  let n := length (workers s) in
  match main s with
  | main_creating i =>
      match workers s !! i with
      | Some not_created =>
          Some (with_main (next_in_loop (S i) n main_creating main_at_start_barrier)
                  (with_worker i at_setup s))
      | _ => None
      end
  | main_at_start_barrier =>
      let (b, released) := barrier_arrive (barrier s) in
      Some (with_main (if released then main_install_handlers
                       else main_in_start_barrier (generation (barrier s)))
              (with_barrier b s))
  | main_in_start_barrier g =>
      if (generation (barrier s) =? g)%nat then None
      else Some (with_main main_install_handlers s)
  | main_install_handlers =>
      Some (with_main main_wait_shutdown (with_handlers true s))
  | main_wait_shutdown =>
      p ← wait_for_shutdown (pool s);
      Some (with_main main_remove_handlers (with_pool p s))
  | main_remove_handlers =>
      Some (with_main (next_in_loop 0 n main_initiating main_at_exit_barrier)
              (with_handlers false s))
  | main_initiating i =>
      p ← initiate_shut_down i (pool s);
      Some (with_main (next_in_loop (S i) n main_initiating main_at_exit_barrier)
              (with_pool p s))
  | main_at_exit_barrier =>
      let (b, released) := barrier_arrive (barrier s) in
      Some (with_main (if released then next_in_loop 0 n main_joining main_returned
                       else main_in_exit_barrier (generation (barrier s)))
              (with_barrier b s))
  | main_in_exit_barrier g =>
      if (generation (barrier s) =? g)%nat then None
      else Some (with_main (next_in_loop 0 n main_joining main_returned) s)
  | main_joining i =>
      match workers s !! i with
      | Some exited =>
          Some (with_main (next_in_loop (S i) n main_joining main_returned) s)
      | _ => None
      end
  | main_returned => None
  end.

(** One step of worker [i] in [start_thread]: the part before the first
    [barrier->wait()], the wait, the part up to [queue.run()], the event
    loop, which is left when [should_shut_down] holds, the second wait and
    the tear-down.  The [rassert]s are checked, as in a debug build: where
    one fails there is no next state.

    The event queue is not among the sources.  A thread at [in_queue_run]
    stands for a running event loop: its handlers act on the pool through
    [handler_action_step], and the only step of the loop itself is its
    return.  What the loop does to the message hub of its thread, which it
    drains, is not followed: the queues of a [linux_thread_t] say what
    [thread_pool.cc] has put there, not what is still waiting. *)
Definition worker_step (i : nat) (s : system) : option system :=
  pc ← workers s !! i;
  match pc with
  | not_created => None
  | at_setup =>
      p ← start_thread_setup initial_message i (pool s);
      Some (with_worker i at_start_barrier (with_pool p s))
  | at_start_barrier =>
      let (b, released) := barrier_arrive (barrier s) in
      Some (with_worker i (if released then past_start_barrier
                           else in_start_barrier (generation (barrier s)))
              (with_barrier b s))
  | in_start_barrier g =>
      if (generation (barrier s) =? g)%nat then None
      else Some (with_worker i past_start_barrier s)
  | past_start_barrier =>
      p ← start_thread_after_barrier initial_message i (pool s);
      Some (with_worker i in_queue_run (with_pool p s))
  | in_queue_run =>
      if should_shut_down i (pool s) then Some (with_worker i at_exit_barrier s)
      else None
  | at_exit_barrier =>
      let (b, released) := barrier_arrive (barrier s) in
      Some (with_worker i (if released then past_exit_barrier
                           else in_exit_barrier (generation (barrier s)))
              (with_barrier b s))
  | in_exit_barrier g =>
      if (generation (barrier s) =? g)%nat then None
      else Some (with_worker i past_exit_barrier s)
  | past_exit_barrier =>
      Some (with_worker i exited
              (with_pool (start_thread_teardown initial_message i (pool s)) s))
  | exited => None
  end.

(** A message handler runs on worker [i] while it is in [queue.run()]. *)
Definition handler_action_step (i : nat) (a : handler_action) (s : system)
  : option system :=
  match workers s !! i with
  | Some in_queue_run =>
      match a with
      | call_shutdown_thread_pool =>
          p ← shutdown_thread_pool (pool s); Some (with_pool p s)
      | call_set_interrupt_message m =>
          Some (with_pool (set_interrupt_message m (pool s)).2 s)
      end
  | _ => None
  end.

(** [SIGINT] or [SIGTERM] is delivered while [interrupt_handler] is
    installed. *)
Definition signal_step (s : system) : option system :=
  if interrupt_handlers_installed s then
    p ← interrupt_handler (pool s); Some (with_pool p s)
  else None.

Definition step (a : actor) (s : system) : option system :=
  match a with
  | main_thread => main_step s
  | worker_thread i => worker_step i s
  | message_handler i h => handler_action_step i h s
  | interrupt_signal => signal_step s
  end.

Fixpoint exec (schedule : list actor) (s : system) : option system :=
  match schedule with
  | [] => Some s
  | a :: schedule' => s' ← step a s; exec schedule' s'
  end.

End Run.

(** [run_thread_pool] before it creates the first thread: [do_shutdown] is
    cleared and the barrier is built for [n_threads + 1] threads; no worker
    exists yet. *)
Definition run_thread_pool_entry (p : linux_thread_pool_t) : system :=
  let n := Z.to_nat (n_threads p) in
  {| pool := set_do_shutdown false p;
     barrier := {| arity := S n; waiting := 0; generation := 0 |};
     main := next_in_loop 0 n main_creating main_at_start_barrier;
     workers := replicate n not_created;
     interrupt_handlers_installed := false |}.

(** The threads [pthread_create] has started so far, whether they still
    run or have exited. *)
Definition created (pc : worker_pc) : bool :=
  match pc with
  | not_created => false
  | _ => true
  end.

Fixpoint count_created (l : list worker_pc) : nat :=
  match l with
  | [] => 0
  | pc :: l' => ((if created pc then 1 else 0) + count_created l')%nat
  end.

Definition threads_created (s : system) : nat := count_created (workers s).

(** The call of [pthread_create] in the loop of [run_thread_pool]. *)
Definition calls_pthread_create (a : actor) (s : system) : bool :=
  match a, main s with
  | main_thread, main_creating _ => true
  | _, _ => false
  end.

(** *** Counting the threads at the barrier *)

(** How many times a thread has entered [wait], and how many times it has
    come out of it. *)
Definition worker_arrivals (pc : worker_pc) : nat :=
  match pc with
  | not_created | at_setup | at_start_barrier => 0
  | in_start_barrier _ | past_start_barrier | in_queue_run | at_exit_barrier => 1
  | in_exit_barrier _ | past_exit_barrier | exited => 2
  end.

Definition worker_passes (pc : worker_pc) : nat :=
  match pc with
  | not_created | at_setup | at_start_barrier | in_start_barrier _ => 0
  | past_start_barrier | in_queue_run | at_exit_barrier | in_exit_barrier _ => 1
  | past_exit_barrier | exited => 2
  end.

Definition main_arrivals (pc : main_pc) : nat :=
  match pc with
  | main_creating _ | main_at_start_barrier => 0
  | main_in_start_barrier _ | main_install_handlers | main_wait_shutdown
  | main_remove_handlers | main_initiating _ | main_at_exit_barrier => 1
  | main_in_exit_barrier _ | main_joining _ | main_returned => 2
  end.

Definition main_passes (pc : main_pc) : nat :=
  match pc with
  | main_creating _ | main_at_start_barrier | main_in_start_barrier _ => 0
  | main_install_handlers | main_wait_shutdown
  | main_remove_handlers | main_initiating _ | main_at_exit_barrier
  | main_in_exit_barrier _ => 1
  | main_joining _ | main_returned => 2
  end.

(** A thread inside [wait] remembers the generation it arrived in. *)
Definition worker_parked_ok (pc : worker_pc) : Prop :=
  match pc with
  | in_start_barrier g => g = 0%nat
  | in_exit_barrier g => g = 1%nat
  | _ => True
  end.

Definition main_parked_ok (pc : main_pc) : Prop :=
  match pc with
  | main_in_start_barrier g => g = 0%nat
  | main_in_exit_barrier g => g = 1%nat
  | _ => True
  end.

Definition arrivals (s : system) : list nat :=
  main_arrivals (main s) :: (worker_arrivals <$> workers s).

Definition passes (s : system) : list nat :=
  main_passes (main s) :: (worker_passes <$> workers s).

Fixpoint count_eq (v : nat) (l : list nat) : nat :=
  match l with
  | [] => 0
  | a :: l' => ((if (a =? v)%nat then 1 else 0) + count_eq v l')%nat
  end.

(** The barrier against the arrivals [A] and the passes [Q] of the threads. *)
Definition barrier_counts (b : thread_barrier_t) (A Q : list nat) : Prop :=
  arity b = length A /\
  waiting b = count_eq (S (generation b)) A /\
  (waiting b < arity b)%nat /\
  Forall (fun a => (generation b <= a)%nat) A /\
  Forall (fun q => (q <= generation b)%nat) Q.

Definition barrier_inv (s : system) : Prop :=
  barrier_counts (barrier s) (arrivals s) (passes s) /\
  main_parked_ok (main s) /\ Forall worker_parked_ok (workers s).

Lemma count_eq_le v l : (count_eq v l <= length l)%nat.
Proof.
  induction l as [|a l IH]; cbn [count_eq length]; [lia|].
  destruct (a =? v)%nat; lia.
Qed.

Lemma count_eq_insert v a' l : forall k a,
  l !! k = Some a ->
  (count_eq v (<[k := a']> l) + (if (a =? v)%nat then 1 else 0)
   = count_eq v l + (if (a' =? v)%nat then 1 else 0))%nat.
Proof.
  induction l as [|x l IH]; intros k a Hk; [discriminate|].
  destruct k as [|k].
  - injection Hk as ->. cbn [count_eq]. cbn. lia.
  - cbn in Hk. cbn [count_eq]. change (<[S k := a']> (x :: l)) with (x :: <[k := a']> l).
    cbn [count_eq]. pose proof (IH k a Hk). lia.
Qed.

Lemma count_eq_full v l : count_eq v l = length l -> Forall (fun a => a = v) l.
Proof.
  induction l as [|a l IH]; cbn [count_eq length]; intros Hc; [constructor|].
  pose proof (count_eq_le v l).
  destruct (Nat.eqb_spec a v) as [->|Hne]; [|lia].
  constructor; [reflexivity|]. apply IH. lia.
Qed.

Lemma count_eq_none v l : Forall (fun a => a <> v) l -> count_eq v l = 0%nat.
Proof.
  induction 1 as [|a l Ha _ IH]; [reflexivity|].
  cbn [count_eq]. destruct (Nat.eqb_spec a v); [contradiction|]. now rewrite IH.
Qed.

(** A thread that has come out of [wait] as often as it went in arrives. *)
Lemma barrier_counts_arrive b A Q k a :
  barrier_counts b A Q -> A !! k = Some a -> Q !! k = Some a ->
  generation b = a /\
  barrier_counts (barrier_arrive b).1 (<[k := S a]> A)
                 (<[k := if (barrier_arrive b).2 then S a else a]> Q).
Proof.
  intros (Har & Hw & Hlt & HA & HQ) HkA HkQ.
  pose proof (proj1 (Forall_lookup _ _) HA k a HkA) as Hga. cbn beta in Hga.
  pose proof (proj1 (Forall_lookup _ _) HQ k a HkQ) as Hag. cbn beta in Hag.
  assert (generation b = a) as Hg by lia. split; [exact Hg|]. subst a.
  pose proof (count_eq_insert (S (generation b)) (S (generation b)) A k _ HkA) as Hc.
  rewrite Nat.eqb_refl in Hc.
  destruct (Nat.eqb_spec (generation b) (S (generation b))) as [|_]; [lia|].
  unfold barrier_arrive.
  destruct (Nat.eqb_spec (S (waiting b)) (arity b)) as [Hlast|Hmore]; cbn [fst snd].
  - (* the last thread to arrive releases the barrier *)
    assert (Forall (fun a => a = S (generation b)) (<[k := S (generation b)]> A)) as Hall.
    { apply count_eq_full. rewrite length_insert. lia. }
    unfold barrier_counts. cbn [arity waiting generation]. rewrite length_insert.
    split; [exact Har|]. split.
    { symmetry. apply count_eq_none. eapply Forall_impl; [exact Hall|].
      cbn beta. intros; lia. }
    split; [lia|]. split.
    { eapply Forall_impl; [exact Hall|]. cbn beta. intros; lia. }
    apply Forall_insert; [|lia].
    eapply Forall_impl; [exact HQ|]. cbn beta. intros; lia.
  - unfold barrier_counts. cbn [arity waiting generation]. rewrite length_insert.
    split; [exact Har|]. split; [lia|]. split; [lia|]. split.
    { apply Forall_insert; [exact HA | lia]. }
    rewrite list_insert_id by exact HkQ. exact HQ.
Qed.

(** A thread leaves [wait] once the generation has moved on. *)
Lemma barrier_counts_leave b A Q k q :
  barrier_counts b A Q -> Q !! k = Some q -> generation b <> q ->
  barrier_counts b A (<[k := S q]> Q).
Proof.
  intros (Har & Hw & Hlt & HA & HQ) HkQ Hne.
  pose proof (proj1 (Forall_lookup _ _) HQ k q HkQ) as Hq. cbn beta in Hq.
  unfold barrier_counts. repeat (split; [assumption|]).
  apply Forall_insert; [exact HQ | lia].
Qed.

Lemma barrier_counts_same b A Q k a q :
  barrier_counts b A Q -> A !! k = Some a -> Q !! k = Some q ->
  barrier_counts b (<[k := a]> A) (<[k := q]> Q).
Proof. intros Hc HA HQ. now rewrite !list_insert_id. Qed.

Lemma arrivals_worker s i pc :
  workers s !! i = Some pc -> arrivals s !! S i = Some (worker_arrivals pc).
Proof.
  intros Hpc. unfold arrivals.
  change ((worker_arrivals <$> workers s) !! i = Some (worker_arrivals pc)).
  now rewrite list_lookup_fmap, Hpc.
Qed.

Lemma passes_worker s i pc :
  workers s !! i = Some pc -> passes s !! S i = Some (worker_passes pc).
Proof.
  intros Hpc. unfold passes.
  change ((worker_passes <$> workers s) !! i = Some (worker_passes pc)).
  now rewrite list_lookup_fmap, Hpc.
Qed.

Lemma barrier_inv_set_worker s i pc' b' p' h' :
  barrier_counts b' (<[S i := worker_arrivals pc']> (arrivals s))
                    (<[S i := worker_passes pc']> (passes s)) ->
  main_parked_ok (main s) -> Forall worker_parked_ok (workers s) ->
  worker_parked_ok pc' ->
  barrier_inv {| pool := p'; barrier := b'; main := main s;
                 workers := <[i := pc']> (workers s);
                 interrupt_handlers_installed := h' |}.
Proof.
  intros Hc Hm Hw Hpc. unfold barrier_inv, arrivals, passes in *.
  cbn [barrier main workers]. rewrite !list_fmap_insert.
  split; [exact Hc|]. split; [exact Hm|]. now apply Forall_insert.
Qed.

Lemma barrier_inv_set_main s pc' b' p' h' :
  barrier_counts b' (<[0%nat := main_arrivals pc']> (arrivals s))
                    (<[0%nat := main_passes pc']> (passes s)) ->
  Forall worker_parked_ok (workers s) -> main_parked_ok pc' ->
  barrier_inv {| pool := p'; barrier := b'; main := pc'; workers := workers s;
                 interrupt_handlers_installed := h' |}.
Proof.
  intros Hc Hw Hpc. unfold barrier_inv, arrivals, passes in *.
  cbn [barrier main workers]. split; [exact Hc|]. now split.
Qed.

Section Invariants.
Variable initial_message : option message.

Lemma worker_step_barrier_inv i s s' :
  barrier_inv s -> worker_step initial_message i s = Some s' -> barrier_inv s'.
Proof.
  intros (Hc & Hm & Hw) Hstep. unfold worker_step in Hstep.
  destruct (workers s !! i) as [pc|] eqn:Hpc; [|discriminate]. cbn in Hstep.
  pose proof (arrivals_worker s i pc Hpc) as HA.
  pose proof (passes_worker s i pc Hpc) as HQ.
  pose proof (proj1 (Forall_lookup _ _) Hw i pc Hpc) as Hok.
  destruct pc; cbn [worker_arrivals worker_passes worker_parked_ok] in HA, HQ, Hok.
  - discriminate.
  - destruct (start_thread_setup initial_message i (pool s)); [|discriminate].
    cbn in Hstep. injection Hstep as <-.
    apply barrier_inv_set_worker; try assumption; try exact I.
    now apply barrier_counts_same.
  - destruct (barrier_counts_arrive _ _ _ _ _ Hc HA HQ) as [Hg Hc'].
    destruct (barrier_arrive (barrier s)) as [b' released]. cbn [fst snd] in Hc'.
    injection Hstep as <-.
    apply barrier_inv_set_worker; try assumption.
    + now destruct released.
    + destruct released; [exact I | exact Hg].
  - destruct (Nat.eqb_spec (generation (barrier s)) g) as [|Hne]; [discriminate|].
    injection Hstep as <-.
    apply barrier_inv_set_worker; try assumption; try exact I.
    cbn [worker_arrivals worker_passes]. rewrite (list_insert_id _ _ _ HA).
    apply (barrier_counts_leave _ _ _ _ _ Hc HQ). lia.
  - destruct (start_thread_after_barrier initial_message i (pool s)); [|discriminate].
    cbn in Hstep. injection Hstep as <-.
    apply barrier_inv_set_worker; try assumption; try exact I.
    now apply barrier_counts_same.
  - destruct (should_shut_down i (pool s)); [|discriminate].
    injection Hstep as <-.
    apply barrier_inv_set_worker; try assumption; try exact I.
    now apply barrier_counts_same.
  - destruct (barrier_counts_arrive _ _ _ _ _ Hc HA HQ) as [Hg Hc'].
    destruct (barrier_arrive (barrier s)) as [b' released]. cbn [fst snd] in Hc'.
    injection Hstep as <-.
    apply barrier_inv_set_worker; try assumption.
    + now destruct released.
    + destruct released; [exact I | exact Hg].
  - destruct (Nat.eqb_spec (generation (barrier s)) g) as [|Hne]; [discriminate|].
    injection Hstep as <-.
    apply barrier_inv_set_worker; try assumption; try exact I.
    cbn [worker_arrivals worker_passes]. rewrite (list_insert_id _ _ _ HA).
    apply (barrier_counts_leave _ _ _ _ _ Hc HQ). lia.
  - injection Hstep as <-.
    apply barrier_inv_set_worker; try assumption; try exact I.
    now apply barrier_counts_same.
  - discriminate.
Qed.

Lemma main_step_barrier_inv s s' :
  barrier_inv s -> main_step s = Some s' -> barrier_inv s'.
Proof.
  intros (Hc & Hm & Hw) Hstep. unfold main_step in Hstep.
  assert (arrivals s !! 0%nat = Some (main_arrivals (main s))) as HA by reflexivity.
  assert (passes s !! 0%nat = Some (main_passes (main s))) as HQ by reflexivity.
  destruct (main s) as [i| |g| | | |i| |g|i|] eqn:Hmain;
    cbn [main_arrivals main_passes main_parked_ok] in HA, HQ, Hm.
  - (* pthread_create *)
    destruct (workers s !! i) as [[]|] eqn:Hpc; try discriminate.
    injection Hstep as <-.
    assert (barrier_inv (with_worker i at_setup s)) as (Hc1 & _ & Hw1).
    { apply barrier_inv_set_worker; try assumption; try exact I.
      - apply barrier_counts_same; [exact Hc | |].
        + exact (arrivals_worker s i _ Hpc).
        + exact (passes_worker s i _ Hpc).
      - now rewrite Hmain. }
    apply (barrier_inv_set_main (with_worker i at_setup s)); [|exact Hw1|].
    + unfold next_in_loop. unfold arrivals, passes in *.
      cbn [main with_worker] in *. rewrite Hmain in Hc1.
      now destruct (S i <? length (workers s))%nat.
    + unfold next_in_loop. now destruct (S i <? length (workers s))%nat.
  - destruct (barrier_counts_arrive _ _ _ _ _ Hc HA HQ) as [Hg Hc'].
    destruct (barrier_arrive (barrier s)) as [b' released]. cbn [fst snd] in Hc'.
    injection Hstep as <-.
    apply (barrier_inv_set_main s); try assumption.
    + now destruct released.
    + destruct released; [exact I | exact Hg].
  - destruct (Nat.eqb_spec (generation (barrier s)) g) as [|Hne]; [discriminate|].
    injection Hstep as <-.
    apply (barrier_inv_set_main s); try assumption; try exact I.
    cbn [main_arrivals main_passes]. rewrite (list_insert_id _ _ _ HA).
    apply (barrier_counts_leave _ _ _ _ _ Hc HQ). lia.
  - injection Hstep as <-.
    apply (barrier_inv_set_main s); try assumption; try exact I.
    now apply barrier_counts_same.
  - destruct (wait_for_shutdown (pool s)); [|discriminate].
    cbn in Hstep. injection Hstep as <-.
    apply (barrier_inv_set_main s); try assumption; try exact I.
    now apply barrier_counts_same.
  - injection Hstep as <-.
    apply (barrier_inv_set_main s); try assumption.
    + unfold next_in_loop. destruct (0 <? length (workers s))%nat;
        now apply barrier_counts_same.
    + unfold next_in_loop. now destruct (0 <? length (workers s))%nat.
  - destruct (initiate_shut_down i (pool s)); [|discriminate].
    cbn in Hstep. injection Hstep as <-.
    apply (barrier_inv_set_main s); try assumption.
    + unfold next_in_loop. destruct (S i <? length (workers s))%nat;
        now apply barrier_counts_same.
    + unfold next_in_loop. now destruct (S i <? length (workers s))%nat.
  - destruct (barrier_counts_arrive _ _ _ _ _ Hc HA HQ) as [Hg Hc'].
    destruct (barrier_arrive (barrier s)) as [b' released]. cbn [fst snd] in Hc'.
    injection Hstep as <-.
    apply (barrier_inv_set_main s); try assumption.
    + unfold next_in_loop.
      destruct released; [destruct (0 <? length (workers s))%nat|]; exact Hc'.
    + unfold next_in_loop.
      destruct released; [now destruct (0 <? length (workers s))%nat | exact Hg].
  - destruct (Nat.eqb_spec (generation (barrier s)) g) as [|Hne]; [discriminate|].
    injection Hstep as <-.
    apply (barrier_inv_set_main s); try assumption.
    + unfold next_in_loop.
      assert (barrier_counts (barrier s) (arrivals s) (<[0%nat := 2%nat]> (passes s)))
        as Hc' by (apply (barrier_counts_leave _ _ _ _ _ Hc HQ); lia).
      destruct (0 <? length (workers s))%nat; cbn [main_arrivals main_passes];
        now rewrite (list_insert_id _ _ _ HA).
    + unfold next_in_loop. now destruct (0 <? length (workers s))%nat.
  - destruct (workers s !! i) as [[]|] eqn:Hpc; try discriminate.
    injection Hstep as <-.
    apply (barrier_inv_set_main s); try assumption.
    + unfold next_in_loop. destruct (S i <? length (workers s))%nat;
        now apply barrier_counts_same.
    + unfold next_in_loop. now destruct (S i <? length (workers s))%nat.
  - discriminate.
Qed.

Lemma step_barrier_inv a s s' :
  barrier_inv s -> step initial_message a s = Some s' -> barrier_inv s'.
Proof.
  intros Hinv Hstep. destruct a as [|i|i h|]; cbn [step] in Hstep.
  - exact (main_step_barrier_inv s s' Hinv Hstep).
  - exact (worker_step_barrier_inv i s s' Hinv Hstep).
  - unfold handler_action_step in Hstep.
    destruct (workers s !! i) as [[]|]; try discriminate.
    destruct h.
    + destruct (shutdown_thread_pool (pool s)); [|discriminate].
      cbn in Hstep. now injection Hstep as <-.
    + now injection Hstep as <-.
  - unfold signal_step in Hstep.
    destruct (interrupt_handlers_installed s); [|discriminate].
    destruct (interrupt_handler (pool s)); [|discriminate].
    cbn in Hstep. now injection Hstep as <-.
Qed.

Lemma exec_barrier_inv schedule : forall s s',
  barrier_inv s -> exec initial_message schedule s = Some s' -> barrier_inv s'.
Proof.
  induction schedule as [|a schedule IH]; intros s s' Hinv Hexec.
  - cbn in Hexec. now injection Hexec as <-.
  - cbn [exec] in Hexec.
    destruct (step initial_message a s) as [s1|] eqn:Hstep; [|discriminate].
    cbn in Hexec. apply (IH s1 s'); [|exact Hexec].
    exact (step_barrier_inv a s s1 Hinv Hstep).
Qed.

(** *** The table of threads and the blocker pool *)

(** Between its set-up and its tear-down a worker is registered. *)
Definition worker_live (pc : worker_pc) : bool :=
  match pc with
  | not_created | at_setup | exited => false
  | _ => true
  end.

Definition registered (p : linux_thread_pool_t) (i : nat) : Prop :=
  exists t, threads p !! i = Some (Some t).

(** Operations that neither register nor unregister a thread and leave the
    blocker pool and [n_threads] alone. *)
Definition preserves (p p' : linux_thread_pool_t) : Prop :=
  length (threads p') = length (threads p) /\
  generic_blocker_pool p' = generic_blocker_pool p /\
  n_threads p' = n_threads p /\
  forall j, registered p j -> registered p' j.

Lemma preserves_refl p : preserves p p.
Proof. unfold preserves. auto. Qed.

Lemma preserves_same_threads p p' :
  threads p' = threads p -> generic_blocker_pool p' = generic_blocker_pool p ->
  n_threads p' = n_threads p -> preserves p p'.
Proof.
  intros Ht Hb Hn. unfold preserves, registered. rewrite Ht. auto.
Qed.

Lemma preserves_update p i t t' :
  threads p !! i = Some (Some t) ->
  preserves p (set_threads (<[i := Some t']> (threads p)) p).
Proof.
  intros Hi. unfold preserves, registered. cbn [threads set_threads
    generic_blocker_pool n_threads]. rewrite length_insert.
  repeat split; try reflexivity.
  intros j [tj Hj]. destruct (Nat.eq_dec i j) as [<-|Hne].
  - exists t'. apply list_lookup_insert_eq. now apply lookup_lt_Some in Hi.
  - exists tj. now rewrite list_lookup_insert_ne.
Qed.

Lemma shutdown_thread_pool_preserves p p' :
  shutdown_thread_pool p = Some p' -> preserves p p'.
Proof.
  unfold shutdown_thread_pool, pthread_mutex_lock, pthread_cond_signal,
    pthread_mutex_unlock.
  destruct (shutdown_cond_mutex p); [discriminate|]. cbn.
  intros [= <-]. now apply preserves_same_threads.
Qed.

Lemma wait_for_shutdown_preserves p p' :
  wait_for_shutdown p = Some p' -> preserves p p'.
Proof.
  unfold wait_for_shutdown, pthread_mutex_lock, pthread_mutex_unlock.
  destruct (shutdown_cond_mutex p); [discriminate|]. cbn.
  destruct (do_shutdown p); [|discriminate]. cbn.
  intros [= <-]. now apply preserves_same_threads.
Qed.

Lemma interrupt_handler_preserves p p' :
  interrupt_handler p = Some p' -> preserves p p'.
Proof.
  unfold interrupt_handler, set_interrupt_message, post_external.
  destruct (interrupt_message p) as [msg|].
  - change (threads (set_interrupt None p)) with (threads p).
    destruct (threads p !! utility_thread (set_interrupt None p))
      as [[t|]|] eqn:Hu; try discriminate.
    intros [= <-].
    destruct (preserves_update p _ t (insert_external_message msg t) Hu)
      as (Hl & Hb & Hn & Hr).
    unfold preserves, registered in *. cbn [threads set_threads set_interrupt
      generic_blocker_pool n_threads] in *. auto.
  - intros [= <-]. now apply preserves_same_threads.
Qed.

Lemma initiate_shut_down_preserves i p p' :
  initiate_shut_down i p = Some p' -> preserves p p'.
Proof.
  unfold initiate_shut_down.
  destruct (threads p !! i) as [[t|]|] eqn:Hi; try discriminate.
  intros [= <-]. exact (preserves_update p i t _ Hi).
Qed.

Lemma start_thread_after_barrier_preserves i p p' :
  start_thread_after_barrier initial_message i p = Some p' ->
  preserves p p' /\ exists bp, generic_blocker_pool p = Some bp.
Proof.
  unfold start_thread_after_barrier.
  destruct (generic_blocker_pool p) as [bp|] eqn:Hbp; [|discriminate].
  intros Hs. split; [|now exists bp].
  destruct (tdata_initial_message initial_message i) as [msg|].
  - destruct (threads p !! i) as [[t|]|] eqn:Hi; try discriminate.
    injection Hs as <-. exact (preserves_update p i t _ Hi).
  - injection Hs as <-. apply preserves_refl.
Qed.

(** The blocker pool exists exactly while thread 0 is live, provided an
    initial message was given; it is built on the queue of thread 0. *)
Definition expected_blocker_pool (pc0 : worker_pc) : option blocker_pool_t :=
  if worker_live pc0 then
    match initial_message with
    | Some _ => Some {| blocker_queue := 0 |}
    | None => None
    end
  else None.

Definition pool_inv (n0 : Z) (s : system) : Prop :=
  n_threads (pool s) = n0 /\
  length (workers s) = Z.to_nat n0 /\
  length (threads (pool s)) = length (workers s) /\
  (forall i pc, workers s !! i = Some pc -> worker_live pc = true ->
                registered (pool s) i) /\
  (forall pc0, workers s !! 0%nat = Some pc0 ->
               generic_blocker_pool (pool s) = expected_blocker_pool pc0).

Lemma pool_inv_same_liveness n0 s i pc pc' p' b' m' h' :
  pool_inv n0 s -> preserves (pool s) p' ->
  workers s !! i = Some pc -> worker_live pc' = worker_live pc ->
  pool_inv n0 {| pool := p'; barrier := b'; main := m';
                 workers := <[i := pc']> (workers s);
                 interrupt_handlers_installed := h' |}.
Proof.
  intros (Hn & Hlw & Hlt & Hreg & Hbp) (Hl' & Hb' & Hn' & Hr') Hpc Hlive.
  pose proof (lookup_lt_Some _ _ _ Hpc) as Hi.
  unfold pool_inv. cbn [pool workers]. rewrite length_insert.
  split; [congruence|]. split; [exact Hlw|]. split; [congruence|]. split.
  - intros j pcj Hj Hlj. apply Hr'.
    destruct (Nat.eq_dec i j) as [<-|Hne].
    + rewrite list_lookup_insert_eq in Hj by exact Hi. injection Hj as <-.
      apply (Hreg i pc Hpc). congruence.
    + rewrite list_lookup_insert_ne in Hj by exact Hne. now apply (Hreg j pcj).
  - intros pc0 H0. rewrite Hb'.
    destruct (Nat.eq_dec i 0%nat) as [->|Hne].
    + rewrite list_lookup_insert_eq in H0 by exact Hi. injection H0 as <-.
      rewrite (Hbp pc Hpc). unfold expected_blocker_pool. now rewrite Hlive.
    + rewrite list_lookup_insert_ne in H0 by exact Hne. now apply Hbp.
Qed.

Lemma pool_inv_same_workers n0 s p' b' m' h' :
  pool_inv n0 s -> preserves (pool s) p' ->
  pool_inv n0 {| pool := p'; barrier := b'; main := m'; workers := workers s;
                 interrupt_handlers_installed := h' |}.
Proof.
  intros (Hn & Hlw & Hlt & Hreg & Hbp) (Hl' & Hb' & Hn' & Hr').
  unfold pool_inv. cbn [pool workers].
  split; [congruence|]. split; [exact Hlw|]. split; [congruence|]. split.
  - intros j pcj Hj Hlj. apply Hr'. now apply (Hreg j pcj).
  - intros pc0 H0. rewrite Hb'. now apply Hbp.
Qed.

Lemma tdata_initial_message_other i :
  i <> 0%nat -> tdata_initial_message initial_message i = None.
Proof. intros Hi. unfold tdata_initial_message. now destruct (Nat.eqb_spec i 0%nat). Qed.

Lemma pool_inv_setup n0 s i p' :
  pool_inv n0 s -> workers s !! i = Some at_setup ->
  start_thread_setup initial_message i (pool s) = Some p' ->
  pool_inv n0 (with_worker i at_start_barrier (with_pool p' s)).
Proof.
  intros (Hn & Hlw & Hlt & Hreg & Hbp) Hpc Hsetup.
  pose proof (lookup_lt_Some _ _ _ Hpc) as Hi.
  assert (threads p' = <[i := Some new_linux_thread_t]> (threads (pool s)) /\
          n_threads p' = n_threads (pool s) /\
          generic_blocker_pool p' =
            match tdata_initial_message initial_message i with
            | Some _ => Some {| blocker_queue := i |}
            | None => generic_blocker_pool (pool s)
            end) as (Ht' & Hn' & Hb').
  { unfold start_thread_setup in Hsetup.
    destruct (tdata_initial_message initial_message i).
    - cbn in Hsetup. destruct (generic_blocker_pool (pool s)); [discriminate|].
      now injection Hsetup as <-.
    - now injection Hsetup as <-. }
  unfold pool_inv, with_worker, with_pool. cbn [pool workers].
  rewrite length_insert, Ht', length_insert.
  split; [congruence|]. split; [exact Hlw|]. split; [exact Hlt|]. split.
  - intros j pcj Hj Hlj. unfold registered. rewrite Ht'.
    destruct (Nat.eq_dec i j) as [<-|Hne].
    + exists new_linux_thread_t. apply list_lookup_insert_eq. lia.
    + rewrite list_lookup_insert_ne in Hj by exact Hne.
      rewrite list_lookup_insert_ne by exact Hne. now apply (Hreg j pcj).
  - intros pc0 H0. rewrite Hb'.
    destruct (Nat.eq_dec i 0%nat) as [->|Hne].
    + rewrite list_lookup_insert_eq in H0 by exact Hi. injection H0 as <-.
      unfold expected_blocker_pool, tdata_initial_message. cbn.
      destruct initial_message; [reflexivity|].
      now rewrite (Hbp _ Hpc).
    + rewrite list_lookup_insert_ne in H0 by exact Hne.
      rewrite (tdata_initial_message_other i Hne). now apply Hbp.
Qed.

Lemma pool_inv_teardown n0 s i :
  pool_inv n0 s -> workers s !! i = Some past_exit_barrier ->
  pool_inv n0 (with_worker i exited
                 (with_pool (start_thread_teardown initial_message i (pool s)) s)).
Proof.
  intros (Hn & Hlw & Hlt & Hreg & Hbp) Hpc.
  pose proof (lookup_lt_Some _ _ _ Hpc) as Hi.
  set (p' := start_thread_teardown initial_message i (pool s)).
  assert (threads p' = <[i := None]> (threads (pool s)) /\
          n_threads p' = n_threads (pool s) /\
          generic_blocker_pool p' =
            match tdata_initial_message initial_message i with
            | Some _ => None
            | None => generic_blocker_pool (pool s)
            end) as (Ht' & Hn' & Hb').
  { unfold p', start_thread_teardown.
    now destruct (tdata_initial_message initial_message i). }
  unfold pool_inv, with_worker, with_pool. cbn [pool workers].
  rewrite length_insert, Ht', length_insert.
  split; [congruence|]. split; [exact Hlw|]. split; [exact Hlt|]. split.
  - intros j pcj Hj Hlj. unfold registered. rewrite Ht'.
    destruct (Nat.eq_dec i j) as [<-|Hne].
    + rewrite list_lookup_insert_eq in Hj by exact Hi. injection Hj as <-.
      discriminate.
    + rewrite list_lookup_insert_ne in Hj by exact Hne.
      rewrite list_lookup_insert_ne by exact Hne. now apply (Hreg j pcj).
  - intros pc0 H0. rewrite Hb'.
    destruct (Nat.eq_dec i 0%nat) as [->|Hne].
    + rewrite list_lookup_insert_eq in H0 by exact Hi. injection H0 as <-.
      unfold expected_blocker_pool, tdata_initial_message. cbn.
      destruct initial_message eqn:Him; [reflexivity|].
      rewrite (Hbp _ Hpc). unfold expected_blocker_pool. now rewrite Him.
    + rewrite list_lookup_insert_ne in H0 by exact Hne.
      rewrite (tdata_initial_message_other i Hne). now apply Hbp.
Qed.

Lemma step_pool_inv n0 a s s' :
  pool_inv n0 s -> step initial_message a s = Some s' -> pool_inv n0 s'.
Proof.
  intros Hinv Hstep. destruct a as [|i|i h|]; cbn [step] in Hstep.
  - (* the main thread *)
    unfold main_step in Hstep.
    destruct (main s) as [i| |g| | | |i| |g|i|].
    + destruct (workers s !! i) as [[]|] eqn:Hpc; try discriminate.
      injection Hstep as <-.
      exact (pool_inv_same_liveness n0 s i _ at_setup (pool s) _ _ _ Hinv
               (preserves_refl _) Hpc eq_refl).
    + destruct (barrier_arrive (barrier s)) as [b' released].
      injection Hstep as <-.
      exact (pool_inv_same_workers n0 s (pool s) _ _ _ Hinv (preserves_refl _)).
    + destruct (generation (barrier s) =? g)%nat; [discriminate|].
      injection Hstep as <-.
      exact (pool_inv_same_workers n0 s (pool s) _ _ _ Hinv (preserves_refl _)).
    + injection Hstep as <-.
      exact (pool_inv_same_workers n0 s (pool s) _ _ _ Hinv (preserves_refl _)).
    + destruct (wait_for_shutdown (pool s)) as [p'|] eqn:Hw; [|discriminate].
      cbn in Hstep. injection Hstep as <-.
      exact (pool_inv_same_workers n0 s p' _ _ _ Hinv
               (wait_for_shutdown_preserves _ _ Hw)).
    + injection Hstep as <-.
      exact (pool_inv_same_workers n0 s (pool s) _ _ _ Hinv (preserves_refl _)).
    + destruct (initiate_shut_down i (pool s)) as [p'|] eqn:Hi; [|discriminate].
      cbn in Hstep. injection Hstep as <-.
      exact (pool_inv_same_workers n0 s p' _ _ _ Hinv
               (initiate_shut_down_preserves _ _ _ Hi)).
    + destruct (barrier_arrive (barrier s)) as [b' released].
      injection Hstep as <-.
      exact (pool_inv_same_workers n0 s (pool s) _ _ _ Hinv (preserves_refl _)).
    + destruct (generation (barrier s) =? g)%nat; [discriminate|].
      injection Hstep as <-.
      exact (pool_inv_same_workers n0 s (pool s) _ _ _ Hinv (preserves_refl _)).
    + destruct (workers s !! i) as [[]|] eqn:Hpc; try discriminate.
      injection Hstep as <-.
      exact (pool_inv_same_workers n0 s (pool s) _ _ _ Hinv (preserves_refl _)).
    + discriminate.
  - (* a worker *)
    unfold worker_step in Hstep.
    destruct (workers s !! i) as [pc|] eqn:Hpc; [|discriminate]. cbn in Hstep.
    destruct pc.
    + discriminate.
    + destruct (start_thread_setup initial_message i (pool s)) as [p'|] eqn:Hs;
        [|discriminate].
      cbn in Hstep. injection Hstep as <-. now apply pool_inv_setup.
    + destruct (barrier_arrive (barrier s)) as [b' released].
      injection Hstep as <-.
      apply (pool_inv_same_liveness n0 s i _ _ (pool s) _ _ _ Hinv
               (preserves_refl _) Hpc).
      now destruct released.
    + destruct (generation (barrier s) =? g)%nat; [discriminate|].
      injection Hstep as <-.
      exact (pool_inv_same_liveness n0 s i _ past_start_barrier (pool s) _ _ _ Hinv
               (preserves_refl _) Hpc eq_refl).
    + destruct (start_thread_after_barrier initial_message i (pool s)) as [p'|] eqn:Hs;
        [|discriminate].
      cbn in Hstep. injection Hstep as <-.
      exact (pool_inv_same_liveness n0 s i _ in_queue_run p' _ _ _ Hinv
               (proj1 (start_thread_after_barrier_preserves _ _ _ Hs)) Hpc eq_refl).
    + destruct (should_shut_down i (pool s)); [|discriminate].
      injection Hstep as <-.
      exact (pool_inv_same_liveness n0 s i _ at_exit_barrier (pool s) _ _ _ Hinv
               (preserves_refl _) Hpc eq_refl).
    + destruct (barrier_arrive (barrier s)) as [b' released].
      injection Hstep as <-.
      apply (pool_inv_same_liveness n0 s i _ _ (pool s) _ _ _ Hinv
               (preserves_refl _) Hpc).
      now destruct released.
    + destruct (generation (barrier s) =? g)%nat; [discriminate|].
      injection Hstep as <-.
      exact (pool_inv_same_liveness n0 s i _ past_exit_barrier (pool s) _ _ _ Hinv
               (preserves_refl _) Hpc eq_refl).
    + injection Hstep as <-. now apply pool_inv_teardown.
    + discriminate.
  - (* a message handler *)
    unfold handler_action_step in Hstep.
    destruct (workers s !! i) as [[]|]; try discriminate.
    destruct h.
    + destruct (shutdown_thread_pool (pool s)) as [p'|] eqn:Hs; [|discriminate].
      cbn in Hstep. injection Hstep as <-.
      exact (pool_inv_same_workers n0 s p' _ _ _ Hinv
               (shutdown_thread_pool_preserves _ _ Hs)).
    + injection Hstep as <-.
      apply (pool_inv_same_workers n0 s _ _ _ _ Hinv).
      now apply preserves_same_threads.
  - (* a signal *)
    unfold signal_step in Hstep.
    destruct (interrupt_handlers_installed s); [|discriminate].
    destruct (interrupt_handler (pool s)) as [p'|] eqn:Hs; [|discriminate].
    cbn in Hstep. injection Hstep as <-.
    exact (pool_inv_same_workers n0 s p' _ _ _ Hinv
             (interrupt_handler_preserves _ _ Hs)).
Qed.

(** *** Joining *)

Definition join_inv (s : system) : Prop :=
  match main s with
  | main_joining i => forall j, (j < i)%nat -> workers s !! j = Some exited
  | main_returned => Forall (fun pc => pc = exited) (workers s)
  | _ => True
  end.

Lemma join_inv_next s i :
  (forall j, (j < i)%nat -> workers s !! j = Some exited) ->
  (i <= length (workers s))%nat ->
  join_inv (with_main (next_in_loop i (length (workers s)) main_joining main_returned) s).
Proof.
  intros Hbelow Hi. unfold join_inv, next_in_loop.
  destruct (Nat.ltb_spec i (length (workers s))) as [Hlt|Hge]; cbn [main with_main workers].
  - exact Hbelow.
  - apply Forall_lookup. intros j pc Hj.
    pose proof (lookup_lt_Some _ _ _ Hj).
    rewrite Hbelow in Hj by lia. now injection Hj as <-.
Qed.

Lemma step_join_inv a s s' :
  join_inv s -> step initial_message a s = Some s' -> join_inv s'.
Proof.
  intros Hinv Hstep. destruct a as [|i|i h|]; cbn [step] in Hstep.
  - unfold main_step in Hstep. unfold join_inv in Hinv.
    destruct (main s) as [i| |g| | | |i| |g|i|] eqn:Hmain.
    + destruct (workers s !! i) as [[]|]; try discriminate.
      injection Hstep as <-. unfold join_inv, next_in_loop. cbn [main with_main].
      now destruct (S i <? length (workers s))%nat.
    + destruct (barrier_arrive (barrier s)) as [b' released].
      injection Hstep as <-. unfold join_inv. cbn [main with_main].
      now destruct released.
    + destruct (generation (barrier s) =? g)%nat; [discriminate|].
      now injection Hstep as <-.
    + now injection Hstep as <-.
    + destruct (wait_for_shutdown (pool s)); [|discriminate].
      cbn in Hstep. now injection Hstep as <-.
    + injection Hstep as <-. unfold join_inv, next_in_loop. cbn [main with_main].
      now destruct (0 <? length (workers s))%nat.
    + destruct (initiate_shut_down i (pool s)); [|discriminate].
      cbn in Hstep. injection Hstep as <-.
      unfold join_inv, next_in_loop. cbn [main with_main].
      now destruct (S i <? length (workers s))%nat.
    + destruct (barrier_arrive (barrier s)) as [b' released].
      injection Hstep as <-. destruct released; [|exact I].
      apply (join_inv_next (with_barrier b' s) 0); [intros; lia | lia].
    + destruct (generation (barrier s) =? g)%nat; [discriminate|].
      injection Hstep as <-. apply (join_inv_next s 0); [intros; lia | lia].
    + destruct (workers s !! i) as [[]|] eqn:Hpc; try discriminate.
      injection Hstep as <-. apply (join_inv_next s (S i)).
      * intros j Hj. destruct (Nat.eq_dec j i) as [->|]; [exact Hpc|].
        apply Hinv. lia.
      * apply lookup_lt_Some in Hpc. lia.
    + discriminate.
  - unfold worker_step in Hstep.
    destruct (workers s !! i) as [pc|] eqn:Hpc; [|discriminate]. cbn in Hstep.
    assert (pc <> exited -> forall pc' p' b',
              join_inv {| pool := p'; barrier := b'; main := main s;
                          workers := <[i := pc']> (workers s);
                          interrupt_handlers_installed :=
                            interrupt_handlers_installed s |}) as Hgen.
    { intros Hne pc' p' b'. unfold join_inv in *. cbn [main workers].
      destruct (main s); try exact I.
      - intros j Hj. destruct (Nat.eq_dec i j) as [<-|Hij].
        + rewrite (Hinv i Hj) in Hpc. congruence.
        + rewrite list_lookup_insert_ne by exact Hij. now apply Hinv.
      - pose proof (proj1 (Forall_lookup _ _) Hinv i pc Hpc). contradiction. }
    destruct pc; try discriminate.
    + destruct (start_thread_setup initial_message i (pool s)); [|discriminate].
      cbn in Hstep. injection Hstep as <-. now apply Hgen.
    + destruct (barrier_arrive (barrier s)) as [b' released].
      injection Hstep as <-. now apply Hgen.
    + destruct (generation (barrier s) =? g)%nat; [discriminate|].
      injection Hstep as <-. now apply Hgen.
    + destruct (start_thread_after_barrier initial_message i (pool s)); [|discriminate].
      cbn in Hstep. injection Hstep as <-. now apply Hgen.
    + destruct (should_shut_down i (pool s)); [|discriminate].
      injection Hstep as <-. now apply Hgen.
    + destruct (barrier_arrive (barrier s)) as [b' released].
      injection Hstep as <-. now apply Hgen.
    + destruct (generation (barrier s) =? g)%nat; [discriminate|].
      injection Hstep as <-. now apply Hgen.
    + injection Hstep as <-. now apply Hgen.
  - unfold handler_action_step in Hstep.
    destruct (workers s !! i) as [[]|]; try discriminate.
    destruct h.
    + destruct (shutdown_thread_pool (pool s)); [|discriminate].
      cbn in Hstep. now injection Hstep as <-.
    + now injection Hstep as <-.
  - unfold signal_step in Hstep.
    destruct (interrupt_handlers_installed s); [|discriminate].
    destruct (interrupt_handler (pool s)); [|discriminate].
    cbn in Hstep. now injection Hstep as <-.
Qed.

(** *** The order to shut down *)

(** The positions of [run_thread_pool] after the wait for [do_shutdown]. *)
Definition main_after_wait (pc : main_pc) : bool :=
  match pc with
  | main_remove_handlers | main_initiating _ | main_at_exit_barrier
  | main_in_exit_barrier _ | main_joining _ | main_returned => true
  | _ => false
  end.

Definition shutdown_inv (s : system) : Prop :=
  main_after_wait (main s) = true -> do_shutdown (pool s) = true.

Lemma start_thread_setup_do_shutdown i p p' :
  start_thread_setup initial_message i p = Some p' -> do_shutdown p' = do_shutdown p.
Proof.
  unfold start_thread_setup.
  destruct (tdata_initial_message initial_message i).
  - cbn. destruct (generic_blocker_pool p); [discriminate|]. now intros [= <-].
  - now intros [= <-].
Qed.

Lemma start_thread_after_barrier_do_shutdown i p p' :
  start_thread_after_barrier initial_message i p = Some p' ->
  do_shutdown p' = do_shutdown p.
Proof.
  unfold start_thread_after_barrier.
  destruct (generic_blocker_pool p); [|discriminate].
  destruct (tdata_initial_message initial_message i).
  - destruct (threads p !! i) as [[t|]|]; try discriminate. now intros [= <-].
  - now intros [= <-].
Qed.

Lemma start_thread_teardown_do_shutdown i p :
  do_shutdown (start_thread_teardown initial_message i p) = do_shutdown p.
Proof.
  unfold start_thread_teardown.
  now destruct (tdata_initial_message initial_message i).
Qed.

Lemma initiate_shut_down_do_shutdown i p p' :
  initiate_shut_down i p = Some p' -> do_shutdown p' = do_shutdown p.
Proof.
  unfold initiate_shut_down.
  destruct (threads p !! i) as [[t|]|]; try discriminate. now intros [= <-].
Qed.

Lemma wait_for_shutdown_do_shutdown p p' :
  wait_for_shutdown p = Some p' -> do_shutdown p' = true.
Proof.
  unfold wait_for_shutdown, pthread_mutex_lock, pthread_mutex_unlock.
  destruct (shutdown_cond_mutex p); [discriminate|]. cbn.
  destruct (do_shutdown p) eqn:Hd; [|discriminate]. cbn.
  now intros [= <-].
Qed.

Lemma shutdown_thread_pool_do_shutdown p p' :
  shutdown_thread_pool p = Some p' -> do_shutdown p' = true.
Proof.
  unfold shutdown_thread_pool, pthread_mutex_lock, pthread_cond_signal,
    pthread_mutex_unlock.
  destruct (shutdown_cond_mutex p); [discriminate|]. cbn. now intros [= <-].
Qed.

Lemma interrupt_handler_do_shutdown p p' :
  interrupt_handler p = Some p' -> do_shutdown p' = do_shutdown p.
Proof.
  unfold interrupt_handler, set_interrupt_message, post_external.
  destruct (interrupt_message p) as [msg|].
  - destruct (threads (set_interrupt None p) !! utility_thread (set_interrupt None p))
      as [[t|]|]; try discriminate.
    now intros [= <-].
  - now intros [= <-].
Qed.

Lemma step_shutdown_inv a s s' :
  shutdown_inv s -> step initial_message a s = Some s' -> shutdown_inv s'.
Proof.
  unfold shutdown_inv. intros Hinv Hstep.
  destruct a as [|i|i h|]; cbn [step] in Hstep.
  - unfold main_step in Hstep.
    destruct (main s) as [i| |g| | | |i| |g|i|] eqn:Hmain; cbn [main_after_wait] in Hinv.
    + destruct (workers s !! i) as [[]|]; try discriminate.
      injection Hstep as <-. cbn [main pool with_main with_worker].
      unfold next_in_loop. now destruct (S i <? length (workers s))%nat.
    + destruct (barrier_arrive (barrier s)) as [b' released].
      injection Hstep as <-. cbn [main pool with_main with_barrier].
      now destruct released.
    + destruct (generation (barrier s) =? g)%nat; [discriminate|].
      now injection Hstep as <-.
    + now injection Hstep as <-.
    + destruct (wait_for_shutdown (pool s)) as [p'|] eqn:Hw; [|discriminate].
      cbn in Hstep. injection Hstep as <-. intros _.
      exact (wait_for_shutdown_do_shutdown _ _ Hw).
    + injection Hstep as <-. intros _. now apply Hinv.
    + destruct (initiate_shut_down i (pool s)) as [p'|] eqn:Hi; [|discriminate].
      cbn in Hstep. injection Hstep as <-. intros _. cbn [pool with_main with_pool].
      rewrite (initiate_shut_down_do_shutdown _ _ _ Hi). now apply Hinv.
    + destruct (barrier_arrive (barrier s)) as [b' released].
      injection Hstep as <-. intros _. now apply Hinv.
    + destruct (generation (barrier s) =? g)%nat; [discriminate|].
      injection Hstep as <-. intros _. now apply Hinv.
    + destruct (workers s !! i) as [[]|]; try discriminate.
      injection Hstep as <-. intros _. now apply Hinv.
    + discriminate.
  - unfold worker_step in Hstep.
    destruct (workers s !! i) as [pc|]; [|discriminate]. cbn in Hstep.
    destruct pc; try discriminate.
    + destruct (start_thread_setup initial_message i (pool s)) as [p'|] eqn:Hs;
        [|discriminate].
      cbn in Hstep. injection Hstep as <-. cbn [main pool with_worker with_pool].
      now rewrite (start_thread_setup_do_shutdown _ _ _ Hs).
    + destruct (barrier_arrive (barrier s)) as [b' released].
      now injection Hstep as <-.
    + destruct (generation (barrier s) =? g)%nat; [discriminate|].
      now injection Hstep as <-.
    + destruct (start_thread_after_barrier initial_message i (pool s)) as [p'|] eqn:Hs;
        [|discriminate].
      cbn in Hstep. injection Hstep as <-. cbn [main pool with_worker with_pool].
      now rewrite (start_thread_after_barrier_do_shutdown _ _ _ Hs).
    + destruct (should_shut_down i (pool s)); [|discriminate].
      now injection Hstep as <-.
    + destruct (barrier_arrive (barrier s)) as [b' released].
      now injection Hstep as <-.
    + destruct (generation (barrier s) =? g)%nat; [discriminate|].
      now injection Hstep as <-.
    + injection Hstep as <-. cbn [main pool with_worker with_pool].
      now rewrite start_thread_teardown_do_shutdown.
  - unfold handler_action_step in Hstep.
    destruct (workers s !! i) as [[]|]; try discriminate.
    destruct h.
    + destruct (shutdown_thread_pool (pool s)) as [p'|] eqn:Hs; [|discriminate].
      cbn in Hstep. injection Hstep as <-. intros _.
      exact (shutdown_thread_pool_do_shutdown _ _ Hs).
    + now injection Hstep as <-.
  - unfold signal_step in Hstep.
    destruct (interrupt_handlers_installed s); [|discriminate].
    destruct (interrupt_handler (pool s)) as [p'|] eqn:Hs; [|discriminate].
    cbn in Hstep. injection Hstep as <-. cbn [main pool with_pool].
    now rewrite (interrupt_handler_do_shutdown _ _ Hs).
Qed.

Lemma exec_shutdown_inv schedule : forall s s',
  shutdown_inv s -> exec initial_message schedule s = Some s' -> shutdown_inv s'.
Proof.
  induction schedule as [|a schedule IH]; intros s s' Hinv Hexec.
  - cbn in Hexec. now injection Hexec as <-.
  - cbn [exec] in Hexec.
    destruct (step initial_message a s) as [s1|] eqn:Hstep; [|discriminate].
    cbn in Hexec. apply (IH s1 s'); [|exact Hexec].
    exact (step_shutdown_inv a s s1 Hinv Hstep).
Qed.

(** *** Every reachable state *)

Definition system_inv (n0 : Z) (s : system) : Prop :=
  barrier_inv s /\ pool_inv n0 s /\ join_inv s.

Lemma exec_system_inv n0 schedule : forall s s',
  system_inv n0 s -> exec initial_message schedule s = Some s' -> system_inv n0 s'.
Proof.
  induction schedule as [|a schedule IH]; intros s s' Hinv Hexec.
  - cbn in Hexec. now injection Hexec as <-.
  - cbn [exec] in Hexec.
    destruct (step initial_message a s) as [s1|] eqn:Hstep; [|discriminate].
    cbn in Hexec. apply (IH s1 s'); [|exact Hexec].
    destruct Hinv as (Hb & Hp & Hj). split; [|split].
    + exact (step_barrier_inv a s s1 Hb Hstep).
    + exact (step_pool_inv n0 a s s1 Hp Hstep).
    + exact (step_join_inv a s s1 Hj Hstep).
Qed.

Lemma entry_system_inv (worker_threads : Z) (aff : bool) :
  0 <= worker_threads ->
  system_inv (worker_threads + 1)
    (run_thread_pool_entry (new_linux_thread_pool_t worker_threads aff)).
Proof.
  intros HN. unfold run_thread_pool_entry, new_linux_thread_pool_t.
  cbn [n_threads]. set (n := Z.to_nat (worker_threads + 1)).
  assert (forall pc, pc = next_in_loop 0 n main_creating main_at_start_barrier ->
            main_arrivals pc = 0%nat /\ main_passes pc = 0%nat /\ main_parked_ok pc)
    as Hmain.
  { intros pc ->. unfold next_in_loop. now destruct (0 <? n)%nat. }
  destruct (Hmain _ eq_refl) as (Ha & Hq & Hok).
  split; [|split].
  - unfold barrier_inv, barrier_counts, arrivals, passes.
    cbn [barrier main workers arity waiting generation]. rewrite Ha, Hq.
    cbn [length]. rewrite length_fmap, length_replicate.
    split; [|split; [exact Hok|]].
    + split; [reflexivity|]. split.
      { symmetry. apply count_eq_none. constructor; [discriminate|].
        apply Forall_fmap, Forall_replicate. discriminate. }
      split; [lia|]. split.
      { apply Forall_forall. intros; lia. }
      constructor; [lia|]. apply Forall_fmap, Forall_replicate. cbn. lia.
    + apply Forall_replicate. exact I.
  - unfold pool_inv. cbn [pool workers threads n_threads set_do_shutdown
      generic_blocker_pool]. rewrite !length_replicate.
    split; [reflexivity|]. split; [reflexivity|]. split; [reflexivity|]. split.
    + intros i pc Hi Hlive. apply lookup_replicate in Hi as [-> _]. discriminate.
    + intros pc0 H0. apply lookup_replicate in H0 as [-> _]. reflexivity.
  - unfold join_inv. cbn [main]. unfold next_in_loop. now destruct (0 <? n)%nat.
Qed.

End Invariants.

(** The positions between the two barriers at which the barrier has been
    released exactly once. *)
Definition between_barriers (pc : worker_pc) : bool :=
  match pc with
  | past_start_barrier | in_queue_run | at_exit_barrier => true
  | _ => false
  end.

Lemma worker_arrivals_le pc : (worker_arrivals pc <= 2)%nat.
Proof. destruct pc; cbn; lia. Qed.

Lemma main_arrivals_le pc : (main_arrivals pc <= 2)%nat.
Proof. destruct pc; cbn; lia. Qed.

Lemma count_created_le l : (count_created l <= length l)%nat.
Proof.
  induction l as [|pc l IH]; cbn [count_created length]; [lia|].
  destruct (created pc); lia.
Qed.

Lemma count_created_replicate n : count_created (replicate n not_created) = 0%nat.
Proof. induction n as [|n IH]; [reflexivity|]. cbn. exact IH. Qed.

Lemma count_created_all l :
  Forall (fun pc => pc <> not_created) l -> count_created l = length l.
Proof.
  induction 1 as [|pc l Hpc _ IH]; [reflexivity|].
  cbn [count_created length]. rewrite IH. now destruct pc.
Qed.

Lemma count_created_insert l pc' : forall k pc,
  l !! k = Some pc ->
  (count_created (<[k := pc']> l) + (if created pc then 1 else 0)
   = count_created l + (if created pc' then 1 else 0))%nat.
Proof.
  induction l as [|x l IH]; intros k pc Hk; [discriminate|].
  destruct k as [|k].
  - injection Hk as ->. cbn [count_created]. cbn. lia.
  - cbn in Hk. change (<[S k := pc']> (x :: l)) with (x :: <[k := pc']> l).
    cbn [count_created]. pose proof (IH k pc Hk). lia.
Qed.

(** A thread is started by the call of [pthread_create] in the loop of
    [run_thread_pool], and by no other step of any thread. *)
Lemma step_threads_created (initial_message : option message) (a : actor)
    (s s' : system) :
  step initial_message a s = Some s' ->
  threads_created s' =
    (threads_created s + (if calls_pthread_create a s then 1 else 0))%nat.
Proof.
  intros Hstep. unfold threads_created, calls_pthread_create.
  destruct a as [|i|i h|]; cbn [step] in Hstep.
  - unfold main_step in Hstep. destruct (main s) as [i| |g| | | |i| |g|i|].
    + destruct (workers s !! i) as [[]|] eqn:Hpc; try discriminate.
      injection Hstep as <-. cbn [workers with_main with_worker].
      pose proof (count_created_insert (workers s) at_setup i not_created Hpc) as Hc.
      cbn [created] in Hc. lia.
    + destruct (barrier_arrive (barrier s)). injection Hstep as <-. cbn. lia.
    + destruct (generation (barrier s) =? g)%nat; [discriminate|].
      injection Hstep as <-. cbn. lia.
    + injection Hstep as <-. cbn. lia.
    + destruct (wait_for_shutdown (pool s)); [|discriminate].
      cbn in Hstep. injection Hstep as <-. cbn. lia.
    + injection Hstep as <-. cbn. lia.
    + destruct (initiate_shut_down i (pool s)); [|discriminate].
      cbn in Hstep. injection Hstep as <-. cbn. lia.
    + destruct (barrier_arrive (barrier s)). injection Hstep as <-. cbn. lia.
    + destruct (generation (barrier s) =? g)%nat; [discriminate|].
      injection Hstep as <-. cbn. lia.
    + destruct (workers s !! i) as [[]|]; try discriminate.
      injection Hstep as <-. cbn. lia.
    + discriminate.
  - assert (forall pc pc', workers s !! i = Some pc -> created pc = true ->
              created pc' = true ->
              count_created (<[i := pc']> (workers s)) = (count_created (workers s) + 0)%nat)
      as Hmove.
    { intros pc pc' Hpc Hc Hc'.
      pose proof (count_created_insert (workers s) pc' i pc Hpc) as Hins.
      rewrite Hc, Hc' in Hins. lia. }
    unfold worker_step in Hstep.
    destruct (workers s !! i) as [pc|] eqn:Hpc; [|discriminate]. cbn in Hstep.
    destruct pc; try discriminate.
    + destruct (start_thread_setup initial_message i (pool s)); [|discriminate].
      cbn in Hstep. injection Hstep as <-. cbn [workers with_worker with_pool].
      now apply (Hmove at_setup).
    + destruct (barrier_arrive (barrier s)) as [b released]. injection Hstep as <-.
      cbn [workers with_worker with_barrier].
      apply (Hmove at_start_barrier); [reflexivity|reflexivity|now destruct released].
    + destruct (generation (barrier s) =? g)%nat; [discriminate|].
      injection Hstep as <-. cbn [workers with_worker].
      now apply (Hmove (in_start_barrier g)).
    + destruct (start_thread_after_barrier initial_message i (pool s)); [|discriminate].
      cbn in Hstep. injection Hstep as <-. cbn [workers with_worker with_pool].
      now apply (Hmove past_start_barrier).
    + destruct (should_shut_down i (pool s)); [|discriminate].
      injection Hstep as <-. cbn [workers with_worker].
      now apply (Hmove in_queue_run).
    + destruct (barrier_arrive (barrier s)) as [b released]. injection Hstep as <-.
      cbn [workers with_worker with_barrier].
      apply (Hmove at_exit_barrier); [reflexivity|reflexivity|now destruct released].
    + destruct (generation (barrier s) =? g)%nat; [discriminate|].
      injection Hstep as <-. cbn [workers with_worker].
      now apply (Hmove (in_exit_barrier g)).
    + injection Hstep as <-. cbn [workers with_worker with_pool].
      now apply (Hmove past_exit_barrier).
  - unfold handler_action_step in Hstep.
    destruct (workers s !! i) as [[]|]; try discriminate. destruct h.
    + destruct (shutdown_thread_pool (pool s)); [|discriminate].
      cbn in Hstep. injection Hstep as <-. cbn. lia.
    + injection Hstep as <-. cbn. lia.
  - unfold signal_step in Hstep.
    destruct (interrupt_handlers_installed s); [|discriminate].
    destruct (interrupt_handler (pool s)); [|discriminate].
    cbn in Hstep. injection Hstep as <-. cbn. lia.
Qed.

(** The constructor returns a pool exactly for the arguments its
    [rassert]s let through. *)
Lemma construct_linux_thread_pool_t_range (MAX_THREADS worker_threads : Z) (aff : bool) :
  MAX_THREADS <= MachineInt.INT_MAX ->
  construct_linux_thread_pool_t MAX_THREADS worker_threads aff =
    if (1 <=? worker_threads) && (worker_threads + 1 <=? MAX_THREADS)
    then Some (new_linux_thread_pool_t worker_threads aff) else None.
Proof.
  intros Hmax. unfold construct_linux_thread_pool_t. cbn [n_threads new_linux_thread_pool_t].
  destruct (Z.leb_spec (worker_threads + 1) MachineInt.INT_MAX);
    destruct (Z.ltb_spec 1 (worker_threads + 1));
    destruct (Z.leb_spec (worker_threads + 1) MAX_THREADS);
    destruct (Z.leb_spec 1 worker_threads); cbn; try reflexivity; lia.
Qed.

(** What holds of the barrier and of the threads in a state of the run of
    a pool of [n0] threads. *)
Lemma barrier_and_threads_in_run (initial_message : option message) (n0 : Z)
    (schedule : list actor) (s0 s : system) :
  0 <= n0 -> system_inv initial_message n0 s0 -> shutdown_inv s0 ->
  exec initial_message schedule s0 = Some s ->
  n_threads (pool s) = n0
  /\ Z.of_nat (length (workers s)) = n0
  /\ Z.of_nat (arity (barrier s)) = n0 + 1
  /\ (generation (barrier s) <= 2)%nat
  /\ (main_passes (main s) <= generation (barrier s) <= main_arrivals (main s))%nat
  /\ (forall i pc, workers s !! i = Some pc ->
        (worker_passes pc <= generation (barrier s) <= worker_arrivals pc)%nat)
  /\ ((1 <= generation (barrier s))%nat ->
      forall i pc, workers s !! i = Some pc ->
        pc <> not_created /\ pc <> at_setup /\ pc <> at_start_barrier /\
        (generation (barrier s) = 1%nat -> registered (pool s) i))
  /\ ((2 <= generation (barrier s))%nat -> do_shutdown (pool s) = true)
  /\ (main s = main_returned ->
      generation (barrier s) = 2%nat /\ waiting (barrier s) = 0%nat /\
      Forall (fun pc => pc = exited) (workers s)).
Proof.
  intros Hn0 Hentry Hsd0 Hexec.
  destruct (exec_system_inv initial_message n0 schedule _ s Hentry Hexec)
    as (((Har & Hw & Hlt & HA & HQ) & _ & _) & (Hn & Hlw & Hlen & Hreg & _) & Hjoin).
  unfold arrivals, passes in *. cbn [length] in Har. rewrite length_fmap in Har.
  apply Forall_cons in HA as [HAm HAw]. apply Forall_cons in HQ as [HQm HQw].
  assert (forall i pc, workers s !! i = Some pc ->
            (worker_passes pc <= generation (barrier s) <= worker_arrivals pc)%nat)
    as Hworkers.
  { intros i pc Hpc. split.
    - apply (proj1 (Forall_lookup _ _) HQw i). now rewrite list_lookup_fmap, Hpc.
    - apply (proj1 (Forall_lookup _ _) HAw i). now rewrite list_lookup_fmap, Hpc. }
  split; [exact Hn|]. split; [lia|]. split; [lia|].
  split; [pose proof (main_arrivals_le (main s)); lia|].
  split; [lia|]. split; [exact Hworkers|]. split; [|split].
  - intros Hg i pc Hpc. pose proof (Hworkers i pc Hpc) as [Hlo Hhi].
    repeat split.
    + intros ->. cbn in Hhi. lia.
    + intros ->. cbn in Hhi. lia.
    + intros ->. cbn in Hhi. lia.
    + intros Hone. apply (Hreg i pc Hpc).
      destruct pc; cbn in Hlo, Hhi; try reflexivity; lia.
  - intros Hg.
    assert (shutdown_inv s) as Hsd
      by exact (exec_shutdown_inv initial_message schedule s0 s Hsd0 Hexec).
    apply Hsd. destruct (main s); cbn in HAm; try reflexivity; lia.
  - intros Hret. rewrite Hret in *. cbn in HAm, HQm. unfold join_inv in Hjoin.
    rewrite Hret in Hjoin. split; [lia|]. split; [|exact Hjoin].
    rewrite Hw. apply count_eq_none. constructor; [cbn; lia|].
    apply Forall_fmap, Forall_forall. intros pc _. cbn.
    pose proof (worker_arrivals_le pc). lia.
Qed.

(** C7, as amended: the constructor, called with [worker_threads >= 1] and
    [worker_threads + 1 <= MAX_THREADS], returns a pool of
    [n_threads = worker_threads + 1] threads and starts none of them: when
    [run_thread_pool] is entered no thread exists.  The threads are
    started by [run_thread_pool]: only the call of [pthread_create] in its
    loop adds a thread, there are never more than [worker_threads + 1],
    and all of them exist when the barrier is first released.  In every
    state [run_thread_pool] can reach the barrier has arity
    [worker_threads + 1 + 1] and has been released at most twice; the main
    thread and every worker have entered it at least as often as it was
    released and left it at most as often; its first release finds every
    worker created, past its set-up and registered in the table; its
    second release comes after the order to shut down; when
    [run_thread_pool] has returned it was released exactly twice, nobody
    waits in it, and every worker has exited. *)
Theorem barrier_used_twice (MAX_THREADS worker_threads : Z) (aff : bool) :
  1 <= worker_threads -> worker_threads + 1 <= MAX_THREADS ->
  MAX_THREADS <= MachineInt.INT_MAX ->
  exists p,
    construct_linux_thread_pool_t MAX_THREADS worker_threads aff = Some p
    /\ n_threads p = worker_threads + 1
    /\ threads_created (run_thread_pool_entry p) = 0%nat
    /\ forall (initial_message : option message) (schedule : list actor) (s : system),
         exec initial_message schedule (run_thread_pool_entry p) = Some s ->
         n_threads (pool s) = worker_threads + 1
         /\ Z.of_nat (length (workers s)) = worker_threads + 1
         /\ Z.of_nat (threads_created s) <= worker_threads + 1
         /\ (forall a s', step initial_message a s = Some s' ->
               threads_created s' =
                 (threads_created s + (if calls_pthread_create a s then 1 else 0))%nat)
         /\ Z.of_nat (arity (barrier s)) = worker_threads + 1 + 1
         /\ (generation (barrier s) <= 2)%nat
         /\ (main_passes (main s) <= generation (barrier s) <= main_arrivals (main s))%nat
         /\ (forall i pc, workers s !! i = Some pc ->
               (worker_passes pc <= generation (barrier s) <= worker_arrivals pc)%nat)
         /\ ((1 <= generation (barrier s))%nat ->
             Z.of_nat (threads_created s) = worker_threads + 1 /\
             forall i pc, workers s !! i = Some pc ->
               pc <> not_created /\ pc <> at_setup /\ pc <> at_start_barrier /\
               (generation (barrier s) = 1%nat -> registered (pool s) i))
         /\ ((2 <= generation (barrier s))%nat -> do_shutdown (pool s) = true)
         /\ (main s = main_returned ->
             generation (barrier s) = 2%nat /\ waiting (barrier s) = 0%nat /\
             Forall (fun pc => pc = exited) (workers s)).
Proof.
  intros HN Hmax Hint.
  exists (new_linux_thread_pool_t worker_threads aff).
  split.
  { rewrite construct_linux_thread_pool_t_range by exact Hint.
    destruct (Z.leb_spec 1 worker_threads); [|lia].
    destruct (Z.leb_spec (worker_threads + 1) MAX_THREADS); [reflexivity|lia]. }
  split; [reflexivity|]. split.
  { unfold threads_created, run_thread_pool_entry. cbn [workers].
    apply count_created_replicate. }
  intros initial_message schedule s Hexec.
  destruct (barrier_and_threads_in_run initial_message (worker_threads + 1) schedule _ s
              ltac:(lia)
              (entry_system_inv initial_message worker_threads aff ltac:(lia))
              ltac:(unfold shutdown_inv, run_thread_pool_entry, next_in_loop; cbn [main];
                    now destruct (0 <? _)%nat)
              Hexec)
    as (Hn & Hlen & Har & Hgen & Hmain & Hworkers & Hfirst & Hsecond & Hret).
  pose proof (count_created_le (workers s)) as Hle. fold (threads_created s) in Hle.
  split; [exact Hn|]. split; [exact Hlen|]. split; [lia|].
  split; [intros a s'; apply step_threads_created|].
  split; [exact Har|]. split; [exact Hgen|]. split; [exact Hmain|].
  split; [exact Hworkers|]. split; [|split; [exact Hsecond|exact Hret]].
  intros Hg. split; [|exact (Hfirst Hg)].
  unfold threads_created. rewrite count_created_all; [exact Hlen|].
  apply Forall_lookup. intros i pc Hpc. exact (proj1 (Hfirst Hg i pc Hpc)).
Qed.

(** C5, as amended: given an initial message, the blocker pool is built,
    before the first barrier, by thread 0, the thread that receives the
    initial message, on its own queue; thread 0 is not the utility thread
    [n_threads - 1].  The pool is in place from the moment thread 0 reaches
    the barrier, so every worker that has just passed the barrier, or runs
    its event loop, finds it non-null and passes the [rassert]. *)
Theorem blocker_pool_built_by_first_thread (worker_threads : Z) (aff : bool)
    (msg : message) (schedule : list actor) (s : system) :
  1 <= worker_threads ->
  exec (Some msg) schedule
       (run_thread_pool_entry (new_linux_thread_pool_t worker_threads aff)) = Some s ->
  (forall bp, generic_blocker_pool (pool s) = Some bp ->
     blocker_queue bp = 0%nat /\ (0 < utility_thread (pool s))%nat)
  /\ (forall pc0, workers s !! 0%nat = Some pc0 -> worker_live pc0 = true ->
        generic_blocker_pool (pool s) = Some {| blocker_queue := 0 |})
  /\ (forall i pc, workers s !! i = Some pc -> between_barriers pc = true ->
        generic_blocker_pool (pool s) = Some {| blocker_queue := 0 |})
  /\ (forall i, workers s !! i = Some past_start_barrier ->
        exists p', start_thread_after_barrier (Some msg) i (pool s) = Some p').
Proof.
  intros HN Hexec.
  destruct (exec_system_inv (Some msg) (worker_threads + 1) schedule _ s
              (entry_system_inv (Some msg) worker_threads aff ltac:(lia)) Hexec)
    as (((Har & Hw & Hlt & HA & HQ) & _ & _) & (Hn & Hlw & Hlen & Hreg & Hbp) & _).
  unfold arrivals, passes in *.
  apply Forall_cons in HA as [_ HAw]. apply Forall_cons in HQ as [_ HQw].
  assert (forall i pc, workers s !! i = Some pc ->
            (worker_passes pc <= generation (barrier s) <= worker_arrivals pc)%nat)
    as Hworkers.
  { intros i pc Hpc. split.
    - apply (proj1 (Forall_lookup _ _) HQw i). now rewrite list_lookup_fmap, Hpc.
    - apply (proj1 (Forall_lookup _ _) HAw i). now rewrite list_lookup_fmap, Hpc. }
  destruct (lookup_lt_is_Some_2 (workers s) 0%nat ltac:(lia)) as [pc0 H0].
  assert (forall i pc, workers s !! i = Some pc -> between_barriers pc = true ->
            generic_blocker_pool (pool s) = Some {| blocker_queue := 0 |}) as Hbetween.
  { intros i pc Hpc Hb. pose proof (Hworkers i pc Hpc) as [Hlo Hhi].
    pose proof (Hworkers 0%nat pc0 H0) as [Hlo0 Hhi0].
    rewrite (Hbp pc0 H0). unfold expected_blocker_pool.
    destruct pc; try discriminate; cbn in Hlo, Hhi;
      destruct pc0; cbn in Hlo0, Hhi0; try reflexivity; lia. }
  split; [|split; [|split; [exact Hbetween|]]].
  - intros bp Hsome. rewrite (Hbp pc0 H0) in Hsome. unfold expected_blocker_pool in Hsome.
    destruct (worker_live pc0); [|discriminate]. injection Hsome as <-.
    split; [reflexivity|]. unfold utility_thread. lia.
  - intros pc0' H0' Hlive. rewrite (Hbp pc0' H0'). unfold expected_blocker_pool.
    now rewrite Hlive.
  - intros i Hpc. unfold start_thread_after_barrier.
    rewrite (Hbetween i _ Hpc eq_refl). unfold tdata_initial_message.
    destruct (Nat.eqb_spec i 0%nat) as [->|_]; [|eauto].
    destruct (Hreg 0%nat _ Hpc eq_refl) as [t Ht]. rewrite Ht. eauto.
Qed.

(** *** A pool of one worker and the utility thread

    One complete run of [run_thread_pool]: both threads are created and set
    up, the barrier is released, a handler on thread 0 asks for the
    shutdown, the main thread stops both event loops, the barrier is
    released again, the threads tear down and are joined. *)
Definition two_thread_run : list actor :=
  [main_thread; main_thread;
   worker_thread 0; worker_thread 1; worker_thread 0; worker_thread 1;
   main_thread;
   worker_thread 0; worker_thread 1; worker_thread 0; worker_thread 1;
   main_thread;
   message_handler 0 call_shutdown_thread_pool;
   main_thread; main_thread; main_thread; main_thread;
   worker_thread 0; worker_thread 1; worker_thread 0; worker_thread 1;
   main_thread;
   worker_thread 0; worker_thread 1; worker_thread 0; worker_thread 1;
   main_thread; main_thread].

Definition two_thread_entry : system :=
  run_thread_pool_entry (new_linux_thread_pool_t 1 false).

Definition state_after (schedule : list actor) : system :=
  match exec (Some 9%nat) schedule two_thread_entry with
  | Some s => s
  | None => two_thread_entry
  end.

Definition two_thread_returned : system :=
  Eval vm_compute in state_after two_thread_run.

Definition two_thread_started : system :=
  Eval vm_compute in state_after (take 9 two_thread_run).

Lemma barrier_used_twice_witness :
  exists p,
    construct_linux_thread_pool_t 128 1 false = Some p /\
    run_thread_pool_entry p = two_thread_entry /\
    main two_thread_returned = main_returned /\
    generation (barrier two_thread_returned) = 2%nat /\
    arity (barrier two_thread_returned) = 3%nat /\
    workers two_thread_returned = [exited; exited].
Proof.
  destruct (barrier_used_twice 128 1 false) as (p & Hp & _ & _ & Hrun).
  - discriminate.
  - discriminate.
  - discriminate.
  - exists p. split; [exact Hp|].
    assert (p = new_linux_thread_pool_t 1 false) as -> by (vm_compute in Hp; injection Hp as <-; reflexivity).
    split; [reflexivity|].
    destruct (Hrun (Some 9%nat) two_thread_run two_thread_returned)
      as (_ & _ & _ & _ & _ & _ & _ & _ & _ & _ & Hret).
    + vm_compute. reflexivity.
    + destruct (Hret eq_refl) as (Hg & _ & _).
      split; [reflexivity|]. split; [exact Hg|]. split; reflexivity.
Defined.

(** C7, as the specification states it, fails: constructing the pool
    allocates no OS thread.  A pool constructed for one worker has
    [n_threads = 2], and when [run_thread_pool] is entered none of the two
    threads exists; they exist after the two calls of [pthread_create] in
    the loop of [run_thread_pool].  (With [MAX_THREADS] taken as 128; a
    pool asked for 128 workers is not constructed at all.) *)
Lemma constructor_starts_no_thread :
  exists p s,
    construct_linux_thread_pool_t 128 1 false = Some p /\
    n_threads p = 2 /\
    workers (run_thread_pool_entry p) = [not_created; not_created] /\
    threads_created (run_thread_pool_entry p) = 0%nat /\
    threads_created (run_thread_pool_entry p) <> Z.to_nat (1 + 1) /\
    exec (Some 9%nat) [main_thread; main_thread] (run_thread_pool_entry p) = Some s /\
    threads_created s = Z.to_nat (1 + 1) /\
    construct_linux_thread_pool_t 128 128 false = None.
Proof.
  eexists. eexists. split; [reflexivity|]. split; [reflexivity|].
  split; [reflexivity|]. split; [reflexivity|]. split; [discriminate|].
  split; [vm_compute; reflexivity|]. split; reflexivity.
Qed.

Lemma blocker_pool_built_by_first_thread_witness :
  workers two_thread_started = [past_start_barrier; past_start_barrier] /\
  generic_blocker_pool (pool two_thread_started) = Some {| blocker_queue := 0 |} /\
  utility_thread (pool two_thread_started) = 1%nat.
Proof.
  destruct (blocker_pool_built_by_first_thread 1 false 9%nat (take 9 two_thread_run)
              two_thread_started)
    as (_ & _ & Hbetween & _).
  - discriminate.
  - vm_compute. reflexivity.
  - split; [reflexivity|]. split; [|reflexivity].
    exact (Hbetween 1%nat past_start_barrier eq_refl eq_refl).
Defined.

(** C5, as the specification states it, fails: after the main thread has
    created both threads and thread 0 has run up to the barrier, the blocker
    pool exists, built by thread 0 on its own queue, while the utility
    thread, thread 1, has not run at all. *)
Lemma blocker_pool_not_built_by_utility_thread :
  exists s,
    exec (Some 9%nat) [main_thread; main_thread; worker_thread 0] two_thread_entry = Some s /\
    workers s = [at_start_barrier; at_setup] /\
    generic_blocker_pool (pool s) = Some {| blocker_queue := 0 |} /\
    utility_thread (pool s) = 1%nat /\
    blocker_queue {| blocker_queue := 0 |} <> utility_thread (pool s).
Proof.
  eexists. split; [vm_compute; reflexivity|].
  split; [reflexivity|]. split; [reflexivity|]. split; [reflexivity|].
  vm_compute. discriminate.
Qed.

End Lifecycle.

(** ** What every run of the pool keeps

    Further invariants of the transition system of [run_thread_pool] and
    [start_thread]: when the signal handlers are installed, which entries of
    [threads[]] are set, which event loops were told to stop, and where the
    initial message is. *)

Module Safety.
Import ThreadPool Lifecycle.

(** The handlers of [SIGTERM] and [SIGINT] are installed from the end of
    the first [barrier.wait()] to the block that sets them to [SIG_IGN]. *)
Definition handlers_window (pc : main_pc) : bool :=
  match pc with
  | main_wait_shutdown | main_remove_handlers => true
  | _ => false
  end.

Definition handlers_inv (s : system) : Prop :=
  interrupt_handlers_installed s = handlers_window (main s).

(** [shutdown_cond_mutex] is only held inside [shutdown_thread_pool] and
    around the test of [do_shutdown]. *)
Definition mutex_inv (s : system) : Prop :=
  shutdown_cond_mutex (pool s) = false.

(** The loop of [pthread_create] has started the threads below its index,
    and only those. *)
Definition created_inv (s : system) : Prop :=
  match main s with
  | main_creating i =>
      (i < length (workers s))%nat /\
      forall j pc, workers s !! j = Some pc -> (pc = not_created <-> (i <= j)%nat)
  | _ => Forall (fun pc => pc <> not_created) (workers s)
  end.

(** The loop of [initiate_shut_down] has told the threads below its index
    to leave their event loop. *)
Definition initiated (pc : main_pc) (i : nat) : bool :=
  match pc with
  | main_initiating k => (i <? k)%nat
  | main_at_exit_barrier | main_in_exit_barrier _ | main_joining _ | main_returned => true
  | _ => false
  end.

(** The positions of [start_thread] after [queue.run()]. *)
Definition left_loop (pc : worker_pc) : bool :=
  match pc with
  | at_exit_barrier | in_exit_barrier _ | past_exit_barrier | exited => true
  | _ => false
  end.

(** The positions of [start_thread] after the initial message was stored,
    while the thread object exists. *)
Definition primed (pc : worker_pc) : bool :=
  match pc with
  | in_queue_run | at_exit_barrier | in_exit_barrier _ | past_exit_barrier => true
  | _ => false
  end.

(** Case analysis of one step: the actor, the position of the thread that
    moves, and the outcome of every call on the way. *)
Ltac step_cases Hstep :=
  match type of Hstep with
  | step _ ?a ?s = Some _ =>
      destruct a as [|?i|?i ?h|]; cbn [step] in Hstep;
      [ unfold main_step in Hstep; destruct (main s) eqn:?Hmain
      | unfold worker_step in Hstep;
        destruct (workers s !! i) as [[]|] eqn:?Hpc; cbn [mbind option_bind] in Hstep
      | unfold handler_action_step in Hstep;
        destruct (workers s !! i) as [[]|] eqn:?Hpc; try discriminate Hstep; destruct h
      | unfold signal_step in Hstep;
        destruct (interrupt_handlers_installed s) eqn:?Hinst; [|discriminate Hstep] ];
      try discriminate Hstep;
      repeat match type of Hstep with
      | context [match ?x with _ => _ end] =>
          lazymatch x with
          | context [match _ with _ => _ end] => fail
          | _ => destruct x eqn:?; try discriminate Hstep
          end
      | context [let (_, _) := ?x in _] => destruct x eqn:?
      | mbind _ ?x = Some _ =>
          destruct x eqn:?; cbn [mbind option_bind] in Hstep; try discriminate Hstep
      end;
      try (injection Hstep as <-)
  end.

Ltac state_fields :=
  cbn [main pool barrier workers interrupt_handlers_installed
       with_main with_worker with_pool with_barrier with_handlers] in *.

Section Reachable.
Variable initial_message : option message.

(** The local queue of thread [i] as [start_thread] leaves it. *)
Definition expected_local (i : nat) (pc : worker_pc) : list message :=
  if primed pc then
    match tdata_initial_message initial_message i with
    | Some msg => [msg]
    | None => []
    end
  else [].

(** Entry [i] of [threads[]] against the position of thread [i] and of the
    main thread. *)
Definition entry_ok (mpc : main_pc) (i : nat) (pc : worker_pc)
    (e : option linux_thread_t) : Prop :=
  (left_loop pc = true -> initiated mpc i = true) /\
  match e with
  | None => worker_live pc = false
  | Some t =>
      worker_live pc = true /\
      thread_do_shutdown t = initiated mpc i /\
      local_messages t = expected_local i pc
  end.

Definition thread_inv (s : system) : Prop :=
  forall i pc, workers s !! i = Some pc ->
    exists e, threads (pool s) !! i = Some e /\ entry_ok (main s) i pc e.

Lemma step_handlers_inv a s s' :
  handlers_inv s -> step initial_message a s = Some s' -> handlers_inv s'.
Proof.
  unfold handlers_inv. intros Hinv Hstep.
  step_cases Hstep; state_fields; try rewrite Hmain in *;
    cbn [handlers_window] in *; unfold next_in_loop;
    repeat match goal with |- context [(?a <? ?b)%nat] => destruct (a <? b)%nat end;
    cbn [handlers_window]; congruence.
Qed.

(** *** The mutex *)

Lemma start_thread_setup_mutex i p p' :
  start_thread_setup initial_message i p = Some p' ->
  shutdown_cond_mutex p' = shutdown_cond_mutex p.
Proof.
  unfold start_thread_setup.
  destruct (tdata_initial_message initial_message i).
  - cbn. destruct (generic_blocker_pool p); [discriminate|]. now intros [= <-].
  - now intros [= <-].
Qed.

Lemma start_thread_after_barrier_mutex i p p' :
  start_thread_after_barrier initial_message i p = Some p' ->
  shutdown_cond_mutex p' = shutdown_cond_mutex p.
Proof.
  unfold start_thread_after_barrier.
  destruct (generic_blocker_pool p); [|discriminate].
  destruct (tdata_initial_message initial_message i).
  - destruct (threads p !! i) as [[t|]|]; try discriminate. now intros [= <-].
  - now intros [= <-].
Qed.

Lemma start_thread_teardown_mutex i p :
  shutdown_cond_mutex (start_thread_teardown initial_message i p) = shutdown_cond_mutex p.
Proof.
  unfold start_thread_teardown. now destruct (tdata_initial_message initial_message i).
Qed.

Lemma initiate_shut_down_mutex i p p' :
  initiate_shut_down i p = Some p' -> shutdown_cond_mutex p' = shutdown_cond_mutex p.
Proof.
  unfold initiate_shut_down.
  destruct (threads p !! i) as [[t|]|]; try discriminate. now intros [= <-].
Qed.

Lemma wait_for_shutdown_mutex p p' :
  wait_for_shutdown p = Some p' -> shutdown_cond_mutex p' = false.
Proof.
  unfold wait_for_shutdown, pthread_mutex_lock, pthread_mutex_unlock.
  destruct (shutdown_cond_mutex p); [discriminate|]. cbn.
  destruct (do_shutdown p); [|discriminate]. now intros [= <-].
Qed.

Lemma shutdown_thread_pool_mutex p p' :
  shutdown_thread_pool p = Some p' -> shutdown_cond_mutex p' = false.
Proof.
  unfold shutdown_thread_pool, pthread_mutex_lock, pthread_cond_signal, pthread_mutex_unlock.
  destruct (shutdown_cond_mutex p); [discriminate|]. cbn. now intros [= <-].
Qed.

Lemma interrupt_handler_mutex p p' :
  interrupt_handler p = Some p' -> shutdown_cond_mutex p' = shutdown_cond_mutex p.
Proof.
  unfold interrupt_handler, set_interrupt_message, post_external.
  destruct (interrupt_message p); [|now intros [= <-]].
  cbn [threads set_interrupt].
  destruct (threads p !! _) as [[t|]|]; try discriminate. now intros [= <-].
Qed.

Lemma step_mutex_inv a s s' :
  mutex_inv s -> step initial_message a s = Some s' -> mutex_inv s'.
Proof.
  unfold mutex_inv. intros Hinv Hstep.
  step_cases Hstep; state_fields; try assumption;
    repeat match goal with
    | H : start_thread_setup _ _ _ = Some _ |- _ =>
        rewrite (start_thread_setup_mutex _ _ _ H); clear H
    | H : start_thread_after_barrier _ _ _ = Some _ |- _ =>
        rewrite (start_thread_after_barrier_mutex _ _ _ H); clear H
    | H : initiate_shut_down _ _ = Some _ |- _ =>
        rewrite (initiate_shut_down_mutex _ _ _ H); clear H
    | H : interrupt_handler _ = Some _ |- _ =>
        rewrite (interrupt_handler_mutex _ _ H); clear H
    | H : wait_for_shutdown _ = Some _ |- _ => exact (wait_for_shutdown_mutex _ _ H)
    | H : shutdown_thread_pool _ = Some _ |- _ => exact (shutdown_thread_pool_mutex _ _ H)
    | |- context [start_thread_teardown _ _ _] => rewrite start_thread_teardown_mutex
    end; try assumption.
Qed.


(** *** The loop of [pthread_create] *)

Lemma created_inv_worker s i pc pc' p b h :
  created_inv s -> workers s !! i = Some pc ->
  pc <> not_created -> pc' <> not_created ->
  created_inv {| pool := p; barrier := b; main := main s;
                 workers := <[i := pc']> (workers s);
                 interrupt_handlers_installed := h |}.
Proof.
  unfold created_inv. cbn [main workers]. intros Hinv Hpc Hold Hnew.
  assert (i < length (workers s))%nat as Hi by now apply lookup_lt_Some in Hpc.
  destruct (main s).
  1: { destruct Hinv as [Hlt Hinv]. split; [now rewrite length_insert|].
       intros j pcj Hj. destruct (Nat.eq_dec j i) as [->|Hne].
       - rewrite list_lookup_insert_eq in Hj by exact Hi. injection Hj as <-.
         pose proof (Hinv i pc Hpc) as Hiff. tauto.
       - rewrite list_lookup_insert_ne in Hj by congruence. now apply Hinv. }
  all: apply Forall_insert; assumption.
Qed.

Lemma step_created_inv a s s' :
  created_inv s -> step initial_message a s = Some s' -> created_inv s'.
Proof.
  intros Hinv Hstep.
  step_cases Hstep; state_fields;
    try (eapply created_inv_worker; [exact Hinv|eassumption|discriminate|
                                     try destruct b; discriminate]);
    try exact Hinv.
  all: unfold created_inv in *; cbn [main workers]; rewrite Hmain in Hinv.
  all: unfold next_in_loop;
    repeat match goal with |- context [(?a <? ?b)%nat] =>
      destruct (Nat.ltb_spec a b) end; try destruct b; state_fields; try exact Hinv.
  all: destruct Hinv as [Hlt Hinv]; rewrite ?length_insert in *.
  - (* the next thread is created *)
    split; [assumption|].
    intros j pcj Hj. destruct (Nat.eq_dec j i) as [->|Hne].
    + rewrite list_lookup_insert_eq in Hj by exact Hlt. injection Hj as <-.
      split; [discriminate|lia].
    + rewrite list_lookup_insert_ne in Hj by congruence.
      rewrite (Hinv j pcj Hj). lia.
  - (* the last thread is created *)
    apply Forall_lookup. intros j pcj Hj. destruct (Nat.eq_dec j i) as [->|Hne].
    + rewrite list_lookup_insert_eq in Hj by exact Hlt. now injection Hj as <-.
    + rewrite list_lookup_insert_ne in Hj by congruence.
      pose proof (lookup_lt_Some _ _ _ Hj). rewrite (Hinv j pcj Hj). lia.
Qed.


(** *** The table of threads *)

Lemma barrier_bounds s :
  barrier_inv s ->
  (main_passes (main s) <= generation (barrier s) <= main_arrivals (main s))%nat /\
  forall i pc, workers s !! i = Some pc ->
    (worker_passes pc <= generation (barrier s) <= worker_arrivals pc)%nat.
Proof.
  intros ((_ & _ & _ & HA & HQ) & _ & _). unfold arrivals, passes in *.
  apply Forall_cons in HA as [HAm HAw]. apply Forall_cons in HQ as [HQm HQw].
  split; [lia|]. intros i pc Hpc. split.
  - apply (proj1 (Forall_lookup _ _) HQw i). now rewrite list_lookup_fmap, Hpc.
  - apply (proj1 (Forall_lookup _ _) HAw i). now rewrite list_lookup_fmap, Hpc.
Qed.

Lemma start_thread_setup_threads i p p' :
  start_thread_setup initial_message i p = Some p' ->
  threads p' = <[i := Some new_linux_thread_t]> (threads p).
Proof.
  unfold start_thread_setup.
  destruct (tdata_initial_message initial_message i).
  - cbn. destruct (generic_blocker_pool p); [discriminate|]. now intros [= <-].
  - now intros [= <-].
Qed.

Lemma start_thread_after_barrier_threads i p p' :
  start_thread_after_barrier initial_message i p = Some p' ->
  (tdata_initial_message initial_message i = None /\ threads p' = threads p) \/
  exists msg t,
    tdata_initial_message initial_message i = Some msg /\
    threads p !! i = Some (Some t) /\
    threads p' = <[i := Some (store_message msg t)]> (threads p).
Proof.
  unfold start_thread_after_barrier.
  destruct (generic_blocker_pool p); [|discriminate].
  destruct (tdata_initial_message initial_message i) as [msg|].
  - destruct (threads p !! i) as [[t|]|]; try discriminate. intros [= <-].
    right. now exists msg, t.
  - intros [= <-]. now left.
Qed.

Lemma start_thread_teardown_threads i p :
  threads (start_thread_teardown initial_message i p) = <[i := None]> (threads p).
Proof.
  unfold start_thread_teardown. now destruct (tdata_initial_message initial_message i).
Qed.

Lemma initiate_shut_down_threads i p p' :
  initiate_shut_down i p = Some p' ->
  exists t,
    threads p !! i = Some (Some t) /\
    threads p' = <[i := Some {| external_messages := external_messages t;
                                local_messages := local_messages t;
                                thread_do_shutdown := true |}]> (threads p).
Proof.
  unfold initiate_shut_down.
  destruct (threads p !! i) as [[t|]|]; try discriminate. intros [= <-]. now exists t.
Qed.

Lemma wait_for_shutdown_threads p p' :
  wait_for_shutdown p = Some p' -> threads p' = threads p.
Proof.
  unfold wait_for_shutdown, pthread_mutex_lock, pthread_mutex_unlock.
  destruct (shutdown_cond_mutex p); [discriminate|]. cbn.
  destruct (do_shutdown p); [|discriminate]. now intros [= <-].
Qed.

Lemma shutdown_thread_pool_threads p p' :
  shutdown_thread_pool p = Some p' -> threads p' = threads p.
Proof.
  unfold shutdown_thread_pool, pthread_mutex_lock, pthread_cond_signal, pthread_mutex_unlock.
  destruct (shutdown_cond_mutex p); [discriminate|]. cbn. now intros [= <-].
Qed.

Lemma interrupt_handler_threads p p' :
  interrupt_handler p = Some p' ->
  (interrupt_message p = None /\ threads p' = threads p) \/
  exists msg t,
    interrupt_message p = Some msg /\
    threads p !! utility_thread p = Some (Some t) /\
    threads p' = <[utility_thread p := Some (insert_external_message msg t)]> (threads p).
Proof.
  unfold interrupt_handler, set_interrupt_message, post_external.
  destruct (interrupt_message p) as [msg|]; [|intros [= <-]; now left].
  cbn [threads set_interrupt].
  change (utility_thread (set_interrupt None p)) with (utility_thread p).
  destruct (threads p !! utility_thread p) as [[t|]|]; try discriminate.
  intros [= <-]. right. now exists msg, t.
Qed.

(** An entry stays right when the thread moves inside one class of
    positions, when the main thread moves without telling it to stop, and
    when a message is put in its inbox. *)
Lemma entry_ok_same_class mpc mpc' i pc pc' e :
  left_loop pc' = left_loop pc -> worker_live pc' = worker_live pc ->
  primed pc' = primed pc -> initiated mpc' i = initiated mpc i ->
  entry_ok mpc i pc e -> entry_ok mpc' i pc' e.
Proof.
  unfold entry_ok, expected_local. intros -> -> -> ->. tauto.
Qed.

Lemma entry_ok_inbox mpc i pc t msg :
  entry_ok mpc i pc (Some t) -> entry_ok mpc i pc (Some (insert_external_message msg t)).
Proof. unfold entry_ok. cbn. tauto. Qed.

(** One thread moves; its entry is given, the others are as before. *)
Lemma thread_inv_worker s i pc' ths p b h :
  thread_inv s -> (i < length (workers s))%nat -> threads p = ths ->
  (forall j, j <> i -> ths !! j = threads (pool s) !! j) ->
  (exists e, ths !! i = Some e /\ entry_ok (main s) i pc' e) ->
  thread_inv {| pool := p; barrier := b; main := main s;
                workers := <[i := pc']> (workers s);
                interrupt_handlers_installed := h |}.
Proof.
  intros Hinv Hi <- Hother Hnew j pcj Hj. cbn [main workers pool] in *.
  destruct (Nat.eq_dec j i) as [->|Hne].
  - rewrite list_lookup_insert_eq in Hj by exact Hi. now injection Hj as <-.
  - rewrite list_lookup_insert_ne in Hj by congruence. rewrite (Hother j Hne).
    now apply Hinv.
Qed.

(** The main thread moves. *)
Lemma thread_inv_main s mpc' p b h :
  thread_inv s -> threads p = threads (pool s) ->
  (forall j, (j < length (workers s))%nat -> initiated mpc' j = initiated (main s) j) ->
  thread_inv {| pool := p; barrier := b; main := mpc'; workers := workers s;
                interrupt_handlers_installed := h |}.
Proof.
  intros Hinv Hths Hsame j pcj Hj. cbn [main workers pool] in *. rewrite Hths.
  destruct (Hinv j pcj Hj) as (e & He & Hok). exists e. split; [exact He|].
  apply (entry_ok_same_class (main s) mpc' j pcj pcj e); try reflexivity; [|exact Hok].
  apply Hsame. now apply lookup_lt_Some in Hj.
Qed.

(** A thread moves inside one class of positions. *)
Lemma thread_inv_worker_same_class s i pc pc' b h :
  thread_inv s -> workers s !! i = Some pc ->
  left_loop pc' = left_loop pc -> worker_live pc' = worker_live pc ->
  primed pc' = primed pc ->
  thread_inv {| pool := pool s; barrier := b; main := main s;
                workers := <[i := pc']> (workers s);
                interrupt_handlers_installed := h |}.
Proof.
  intros Hinv Hpc Hleft Hlive Hprimed.
  apply (thread_inv_worker s i pc' (threads (pool s))); try reflexivity.
  - exact Hinv.
  - now apply lookup_lt_Some in Hpc.
  - destruct (Hinv i pc Hpc) as (e & He & Hok). exists e. split; [exact He|].
    now apply (entry_ok_same_class (main s) (main s) i pc pc' e).
Qed.

(** The pool changes, the table of threads does not. *)
Lemma thread_inv_pool s p b h :
  thread_inv s -> threads p = threads (pool s) ->
  thread_inv {| pool := p; barrier := b; main := main s; workers := workers s;
                interrupt_handlers_installed := h |}.
Proof. intros Hinv Hths. now apply (thread_inv_main s). Qed.

Lemma step_thread_inv n0 a s s' :
  barrier_inv s -> pool_inv initial_message n0 s -> thread_inv s ->
  step initial_message a s = Some s' -> thread_inv s'.
Proof.
  intros Hbar Hpool Hinv Hstep.
  destruct (barrier_bounds s Hbar) as [Hmb Hwb].
  destruct Hpool as (_ & _ & Hlen & _ & _).
  step_cases Hstep; state_fields.
  (* the main thread moves and tells no thread to stop *)
  all: try (apply (thread_inv_main s);
            [ exact Hinv
            | first [ reflexivity | eapply wait_for_shutdown_threads; eassumption ]
            | intros j Hj; rewrite Hmain; unfold next_in_loop;
              repeat match goal with |- context [(?a <? ?b)%nat] =>
                destruct (Nat.ltb_spec a b) end;
              cbn [initiated]; first [ reflexivity | lia ] ]).
  (* a thread moves inside one class of positions *)
  all: try (eapply (thread_inv_worker_same_class s);
            [ exact Hinv | eassumption | reflexivity .. ]).
  (* a handler or a signal leaves the table alone *)
  all: try (apply (thread_inv_pool s);
            [ exact Hinv
            | first [ reflexivity | eapply shutdown_thread_pool_threads; eassumption ] ]).
  - (* [pthread_create] *)
    apply (thread_inv_main (with_worker i at_setup s)); [|reflexivity|].
    + eapply (thread_inv_worker_same_class s); [exact Hinv|eassumption|reflexivity..].
    + intros j Hj. cbn [main with_worker]. rewrite Hmain. unfold next_in_loop.
      now destruct (_ <? _)%nat.
  - (* [threads[i]->initiate_shut_down()] *)
    match goal with H : initiate_shut_down _ _ = Some _ |- _ =>
      destruct (initiate_shut_down_threads _ _ _ H) as (t & Ht & Hths) end.
    intros j pcj Hj. state_fields. rewrite Hths.
    destruct (Hinv j pcj Hj) as (e & He & Hleft & Hok). rewrite Hmain in *.
    cbn [initiated] in *.
    assert (j < length (workers s))%nat as Hjn by now apply lookup_lt_Some in Hj.
    assert (initiated (next_in_loop (S i) (length (workers s)) main_initiating
                         main_at_exit_barrier) j = (j <? S i)%nat) as Hnext.
    { unfold next_in_loop.
      destruct (Nat.ltb_spec (S i) (length (workers s))); cbn [initiated].
      - reflexivity.
      - symmetry. apply Nat.ltb_lt. lia. }
    destruct (Nat.eq_dec j i) as [->|Hne].
    + rewrite list_lookup_insert_eq by now apply lookup_lt_Some in Ht.
      eexists. split; [reflexivity|]. rewrite Ht in He. injection He as <-.
      destruct Hok as (Hlive & Hflag & Hloc). unfold entry_ok. rewrite Hnext.
      cbn [thread_do_shutdown local_messages].
      assert ((i <? S i)%nat = true) as -> by (apply Nat.ltb_lt; lia). tauto.
    + rewrite list_lookup_insert_ne by congruence. exists e. split; [exact He|].
      unfold entry_ok. rewrite Hnext.
      assert ((j <? S i)%nat = (j <? i)%nat) as ->.
      { destruct (Nat.ltb_spec j (S i)), (Nat.ltb_spec j i); try reflexivity; lia. }
      exact (conj Hleft Hok).
  - (* the thread registers *)
    match goal with H : start_thread_setup _ _ _ = Some _ |- _ =>
      pose proof (start_thread_setup_threads _ _ _ H) as Hths end.
    assert (i < length (workers s))%nat as Hi by now apply lookup_lt_Some in Hpc.
    apply (thread_inv_worker s i at_start_barrier
             (<[i := Some new_linux_thread_t]> (threads (pool s)))).
    + exact Hinv.
    + exact Hi.
    + exact Hths.
    + intros j Hne. apply list_lookup_insert_ne. congruence.
    + exists (Some new_linux_thread_t).
      split; [apply list_lookup_insert_eq; now rewrite Hlen|].
      unfold entry_ok, expected_local. cbn.
      split; [discriminate|]. split; [reflexivity|]. split; [|reflexivity].
      pose proof (Hwb i at_setup Hpc) as Hgen. cbn in Hgen.
      destruct (main s); cbn in Hmb; try reflexivity; lia.
  - (* the initial message is stored *)
    assert (i < length (workers s))%nat as Hi by now apply lookup_lt_Some in Hpc.
    destruct (Hinv i _ Hpc) as (e & He & Hleft & Hok).
    match goal with H : start_thread_after_barrier _ _ _ = Some _ |- _ =>
      destruct (start_thread_after_barrier_threads _ _ _ H)
        as [[Htd Hths] | (msg & t & Htd & Ht & Hths)] end.
    + apply (thread_inv_worker s i in_queue_run (threads (pool s)));
        [exact Hinv|exact Hi|exact Hths|reflexivity|].
      exists e. split; [exact He|]. unfold entry_ok, expected_local in *.
      rewrite Htd. cbn in *. split; [discriminate|].
      destruct e; [exact Hok|discriminate Hok].
    + apply (thread_inv_worker s i in_queue_run
               (<[i := Some (store_message msg t)]> (threads (pool s))));
        [exact Hinv|exact Hi|exact Hths| |].
      * intros j Hne. apply list_lookup_insert_ne. congruence.
      * eexists. split; [apply list_lookup_insert_eq; now rewrite Hlen|].
        rewrite Ht in He. injection He as <-.
        unfold entry_ok, expected_local in *. rewrite Htd. cbn in *.
        destruct Hok as (_ & Hflag & ->). split; [discriminate|]. tauto.
  - (* the event loop is left *)
    assert (i < length (workers s))%nat as Hi by now apply lookup_lt_Some in Hpc.
    destruct (Hinv i _ Hpc) as (e & He & Hleft & Hok).
    apply (thread_inv_worker s i at_exit_barrier (threads (pool s)));
      [exact Hinv|exact Hi|reflexivity|reflexivity|].
    exists e. split; [exact He|].
    match goal with H : should_shut_down _ _ = true |- _ =>
      unfold should_shut_down in H; rewrite He in H;
      destruct e as [t|]; [|discriminate H];
      destruct Hok as (Hlive & Hflag & Hloc); rewrite H in Hflag end.
    unfold entry_ok, expected_local in *. cbn in *. now rewrite <- Hflag.
  - (* the thread unregisters *)
    assert (i < length (workers s))%nat as Hi by now apply lookup_lt_Some in Hpc.
    destruct (Hinv i _ Hpc) as (e & He & Hleft & Hok).
    apply (thread_inv_worker s i exited (<[i := None]> (threads (pool s))));
      [exact Hinv|exact Hi|apply start_thread_teardown_threads| |].
    + intros j Hne. apply list_lookup_insert_ne. congruence.
    + exists None. split; [apply list_lookup_insert_eq; now rewrite Hlen|].
      unfold entry_ok. cbn. split; [|reflexivity]. intros _. now apply Hleft.
  - (* the interrupt message is posted *)
    match goal with H : interrupt_handler _ = Some _ |- _ =>
      destruct (interrupt_handler_threads _ _ H)
        as [[_ Hths] | (msg & t & _ & Ht & Hths)] end.
    + now apply (thread_inv_pool s).
    + intros j pcj Hj. state_fields. rewrite Hths.
      destruct (Hinv j pcj Hj) as (e & He & Hok).
      destruct (Nat.eq_dec j (utility_thread (pool s))) as [->|Hne].
      * rewrite list_lookup_insert_eq by now apply lookup_lt_Some in Ht.
        eexists. split; [reflexivity|]. rewrite Ht in He. injection He as <-.
        now apply entry_ok_inbox.
      * rewrite list_lookup_insert_ne by congruence. now exists e.
Qed.


(** *** The loops over the threads *)

(** The index of a loop of [run_thread_pool] is below [n_threads] inside
    its body. *)
Definition index_inv (s : system) : Prop :=
  match main s with
  | main_creating i | main_initiating i | main_joining i => (i < length (workers s))%nat
  | _ => True
  end.

Lemma step_index_inv a s s' :
  index_inv s -> step initial_message a s = Some s' -> index_inv s'.
Proof.
  unfold index_inv. intros Hinv Hstep.
  step_cases Hstep; state_fields; rewrite ?length_insert; try exact Hinv.
  all: unfold next_in_loop;
    repeat match goal with |- context [(?a <? ?b)%nat] =>
      destruct (Nat.ltb_spec a b) end; try exact I; try assumption.
Qed.

(** *** Every reachable state *)

Definition safety_inv (n0 : Z) (s : system) : Prop :=
  system_inv initial_message n0 s /\ shutdown_inv s /\ handlers_inv s /\
  mutex_inv s /\ created_inv s /\ index_inv s /\ thread_inv s.

Lemma step_safety_inv n0 a s s' :
  safety_inv n0 s -> step initial_message a s = Some s' -> safety_inv n0 s'.
Proof.
  intros ((Hb & Hp & Hj) & Hsd & Hh & Hm & Hc & Hi & Ht) Hstep.
  split; [split; [|split]|split; [|split; [|split; [|split; [|split]]]]].
  - exact (step_barrier_inv initial_message a s s' Hb Hstep).
  - exact (step_pool_inv initial_message n0 a s s' Hp Hstep).
  - exact (step_join_inv initial_message a s s' Hj Hstep).
  - exact (step_shutdown_inv initial_message a s s' Hsd Hstep).
  - exact (step_handlers_inv a s s' Hh Hstep).
  - exact (step_mutex_inv a s s' Hm Hstep).
  - exact (step_created_inv a s s' Hc Hstep).
  - exact (step_index_inv a s s' Hi Hstep).
  - exact (step_thread_inv n0 a s s' Hb Hp Ht Hstep).
Qed.

Lemma exec_safety_inv n0 schedule : forall s s',
  safety_inv n0 s -> exec initial_message schedule s = Some s' -> safety_inv n0 s'.
Proof.
  induction schedule as [|a schedule IH]; intros s s' Hinv Hexec.
  - cbn in Hexec. now injection Hexec as <-.
  - cbn [exec] in Hexec.
    destruct (step initial_message a s) as [s1|] eqn:Hstep; [|discriminate].
    cbn in Hexec. apply (IH s1 s'); [|exact Hexec].
    exact (step_safety_inv n0 a s s1 Hinv Hstep).
Qed.

Lemma entry_safety_inv (worker_threads : Z) (aff : bool) :
  0 <= worker_threads ->
  safety_inv (worker_threads + 1)
    (run_thread_pool_entry (new_linux_thread_pool_t worker_threads aff)).
Proof.
  intros HN. split; [now apply entry_system_inv|].
  unfold run_thread_pool_entry, new_linux_thread_pool_t. cbn [n_threads].
  set (n := Z.to_nat (worker_threads + 1)).
  unfold shutdown_inv, handlers_inv, mutex_inv, created_inv, index_inv, thread_inv.
  cbn [main pool workers interrupt_handlers_installed set_do_shutdown
       shutdown_cond_mutex threads].
  unfold next_in_loop. rewrite length_replicate.
  destruct (Nat.ltb_spec 0 n) as [Hn|Hn]; cbn [main_after_wait handlers_window].
  - split; [discriminate|]. split; [reflexivity|]. split; [reflexivity|].
    split; [|split; [exact Hn|]].
    + split; [exact Hn|]. intros j pc Hj. apply lookup_replicate in Hj as [-> _].
      split; [lia|reflexivity].
    + intros i pc Hi. apply lookup_replicate in Hi as [-> Hi]. exists None.
      split; [now apply lookup_replicate|]. split; [discriminate|reflexivity].
  - split; [discriminate|]. split; [reflexivity|]. split; [reflexivity|].
    split; [|split; [exact I|]].
    + apply Forall_replicate. lia.
    + intros i pc Hi. apply lookup_replicate in Hi as [_ Hi]. lia.
Qed.

End Reachable.

(** *** Where a thread may stand still *)

(** The places where [run_thread_pool] waits: inside [barrier.wait()],
    for [do_shutdown], in [pthread_join]; and where it has returned. *)
Definition main_waits (s : system) : Prop :=
  match main s with
  | main_in_start_barrier g | main_in_exit_barrier g => generation (barrier s) = g
  | main_wait_shutdown => do_shutdown (pool s) = false
  | main_joining i => exists pc, workers s !! i = Some pc /\ pc <> exited
  | main_returned => True
  | _ => False
  end.

(** The places where [start_thread] waits: inside [barrier->wait()] and in
    [queue.run()]; a thread that is not created or has exited does not
    move either. *)
Definition worker_waits (i : nat) (s : system) : Prop :=
  match workers s !! i with
  | None | Some not_created | Some exited => True
  | Some (in_start_barrier g) | Some (in_exit_barrier g) => generation (barrier s) = g
  | Some in_queue_run => should_shut_down i (pool s) = false
  | Some _ => False
  end.

(** Between the two releases of the barrier every thread is registered. *)
Lemma registered_between im n0 s i pc :
  safety_inv im n0 s -> generation (barrier s) = 1%nat ->
  workers s !! i = Some pc ->
  exists t, threads (pool s) !! i = Some (Some t) /\
            thread_do_shutdown t = initiated (main s) i /\
            local_messages t = expected_local im i pc.
Proof.
  intros ((Hb & _) & _ & _ & _ & _ & _ & Ht) Hgen Hpc.
  destruct (barrier_bounds s Hb) as [_ Hwb]. pose proof (Hwb i pc Hpc) as Hbounds.
  destruct (Ht i pc Hpc) as (e & He & _ & Hok).
  destruct e as [t|].
  - exists t. tauto.
  - destruct pc; cbn in Hbounds, Hok; try discriminate; lia.
Qed.

Lemma main_step_waits im n0 s :
  safety_inv im n0 s -> main_step s = None -> main_waits s.
Proof.
  intros Hinv Hnone. pose proof Hinv as ((Hb & Hp & Hj) & Hsd & Hh & Hm & Hc & Hi & Ht).
  destruct (barrier_bounds s Hb) as [Hmb Hwb].
  unfold main_step in Hnone. unfold main_waits, created_inv, index_inv, mutex_inv in *.
  destruct (main s) as [i| |g| | | |i| |g|i|] eqn:Hmain.
  - destruct Hc as [Hlt Hc].
    destruct (lookup_lt_is_Some_2 (workers s) i Hlt) as [pc Hpc].
    rewrite Hpc in Hnone. pose proof (proj2 (Hc i pc Hpc) (le_n i)) as ->. discriminate.
  - destruct (barrier_arrive (barrier s)). discriminate.
  - destruct (Nat.eqb_spec (generation (barrier s)) g); [assumption|discriminate].
  - discriminate.
  - unfold wait_for_shutdown, pthread_mutex_lock, pthread_mutex_unlock in Hnone.
    rewrite Hm in Hnone. cbn in Hnone.
    destruct (do_shutdown (pool s)); [discriminate|reflexivity].
  - discriminate.
  - destruct (lookup_lt_is_Some_2 (workers s) i Hi) as [pc Hpc].
    cbn in Hmb.
    destruct (registered_between im n0 s i pc Hinv ltac:(lia) Hpc) as (t & Hreg & _).
    unfold initiate_shut_down in Hnone. rewrite Hreg in Hnone. discriminate.
  - destruct (barrier_arrive (barrier s)). discriminate.
  - destruct (Nat.eqb_spec (generation (barrier s)) g); [assumption|discriminate].
  - destruct (lookup_lt_is_Some_2 (workers s) i Hi) as [pc Hpc].
    exists pc. split; [exact Hpc|]. intros ->. rewrite Hpc in Hnone. discriminate.
  - exact I.
Qed.

Lemma worker_step_waits msg n0 s i :
  safety_inv (Some msg) n0 s -> worker_step (Some msg) i s = None -> worker_waits i s.
Proof.
  intros Hinv Hnone. pose proof Hinv as ((Hb & Hp & Hj) & Hsd & Hh & Hm & Hc & Hi & Ht).
  destruct (barrier_bounds s Hb) as [Hmb Hwb].
  destruct Hp as (_ & _ & Hlen & _ & Hbp).
  unfold worker_step in Hnone. unfold worker_waits.
  destruct (workers s !! i) as [pc|] eqn:Hpc; [|exact I]. cbn in Hnone.
  pose proof (Hwb i pc Hpc) as Hbounds.
  destruct pc; try exact I.
  - (* the set-up: no blocker pool has been built *)
    unfold start_thread_setup, tdata_initial_message in Hnone.
    destruct (Nat.eqb_spec i 0%nat) as [->|_]; [|discriminate].
    cbn [generic_blocker_pool set_threads] in Hnone.
    rewrite (Hbp _ Hpc) in Hnone. discriminate.
  - destruct (barrier_arrive (barrier s)). discriminate.
  - destruct (Nat.eqb_spec (generation (barrier s)) g); [assumption|discriminate].
  - (* after the barrier: the blocker pool is there *)
    cbn in Hbounds.
    destruct (registered_between (Some msg) n0 s i _ Hinv ltac:(lia) Hpc) as (t & Hreg & _).
    assert (0 < length (workers s))%nat as H0 by (apply lookup_lt_Some in Hpc; lia).
    destruct (lookup_lt_is_Some_2 (workers s) 0%nat H0) as [pc0 Hpc0].
    pose proof (Hwb 0%nat pc0 Hpc0) as Hbounds0.
    unfold start_thread_after_barrier in Hnone. rewrite (Hbp pc0 Hpc0) in Hnone.
    unfold expected_blocker_pool in Hnone.
    assert (worker_live pc0 = true) as Hlive
      by (destruct pc0; cbn in Hbounds0; try reflexivity; lia).
    rewrite Hlive, Hreg in Hnone.
    destruct (tdata_initial_message (Some msg) i); discriminate.
  - destruct (should_shut_down i (pool s)); [discriminate|reflexivity].
  - destruct (barrier_arrive (barrier s)). discriminate.
  - destruct (Nat.eqb_spec (generation (barrier s)) g); [assumption|discriminate].
  - discriminate.
Qed.

(** *** No deadlock *)

(** Every worker is in its event loop and nobody has asked for the
    shutdown. *)
Definition idle (s : system) : Prop :=
  main s = main_wait_shutdown /\ do_shutdown (pool s) = false /\
  Forall (fun pc => pc = in_queue_run) (workers s).

Lemma count_eq_lt_exists v l :
  (count_eq v l < length l)%nat -> exists k a, l !! k = Some a /\ a <> v.
Proof.
  induction l as [|a l IH]; cbn [count_eq length]; [lia|].
  destruct (Nat.eqb_spec a v) as [->|Hne]; intros Hlt.
  - destruct IH as (k & b & Hk & Hb); [lia|]. now exists (S k), b.
  - now exists 0%nat, a.
Qed.

(** While the barrier is not released, a thread has yet to enter it. *)
Lemma barrier_awaits s :
  barrier_inv s ->
  main_arrivals (main s) = S (generation (barrier s)) ->
  exists i pc, workers s !! i = Some pc /\
               worker_arrivals pc = generation (barrier s).
Proof.
  intros Hb Hmain. destruct (barrier_bounds s Hb) as [_ Hwb].
  destruct Hb as ((Har & Hw & Hlt & HA & HQ) & _ & Hparked).
  destruct (count_eq_lt_exists (S (generation (barrier s))) (arrivals s))
    as (k & a & Hk & Ha); [lia|].
  unfold arrivals in Hk. destruct k as [|i].
  - cbn in Hk. injection Hk as <-. contradiction.
  - change ((worker_arrivals <$> workers s) !! i = Some a) in Hk.
    rewrite list_lookup_fmap in Hk.
    destruct (workers s !! i) as [pc|] eqn:Hpc; [|discriminate].
    injection Hk as <-. exists i, pc. split; [exact Hpc|].
    pose proof (Hwb i pc Hpc) as Hbounds.
    pose proof (proj1 (Forall_lookup _ _) Hparked i pc Hpc) as Hok.
    destruct pc; cbn in *; lia.
Qed.

Lemma all_in_queue_run_or_not (l : list worker_pc) :
  Forall (fun pc => pc = in_queue_run) l \/
  exists i pc, l !! i = Some pc /\ pc <> in_queue_run.
Proof.
  induction l as [|pc l [IH|(i & pc' & Hi & Hne)]].
  - left. constructor.
  - destruct pc; try (right; eexists 0%nat, _; split; [reflexivity|discriminate]).
    left. now constructor.
  - right. now exists (S i), pc'.
Qed.

Lemma progress msg n0 s :
  safety_inv (Some msg) n0 s ->
  main s = main_returned \/
  (exists s', main_step s = Some s') \/
  (exists i s', worker_step (Some msg) i s = Some s') \/
  idle s.
Proof.
  intros Hinv. pose proof Hinv as ((Hb & Hp & Hj) & Hsd & Hh & Hm & Hc & Hi & Ht).
  destruct (barrier_bounds s Hb) as [Hmb Hwb].
  destruct (main_step s) as [s'|] eqn:Hmstep; [right; left; now exists s'|].
  pose proof (main_step_waits (Some msg) n0 s Hinv Hmstep) as Hwaits.
  assert (forall i pc, workers s !! i = Some pc -> ~ worker_waits i s ->
            exists i s', worker_step (Some msg) i s = Some s') as Hmoves.
  { intros i pc Hpc Hnot. exists i.
    destruct (worker_step (Some msg) i s) as [s'|] eqn:Hw; [now exists s'|].
    destruct Hnot. exact (worker_step_waits msg n0 s i Hinv Hw). }
  pose proof (proj1 (proj2 Hb)) as Hparked.
  unfold main_waits, created_inv in *.
  destruct (main s) as [i| |g| | | |i| |g|i|] eqn:Hmain; try contradiction;
    cbn in Hparked.
  - (* in the first wait *)
    right; right; left. cbn in Hmb.
    destruct (barrier_awaits s Hb) as (i & pc & Hpc & Harr);
      [rewrite Hmain; cbn; lia|].
    apply (Hmoves i pc Hpc). unfold worker_waits. rewrite Hpc.
    pose proof (proj1 (Forall_lookup _ _) Hc i pc Hpc) as Hcreated.
    destruct pc; cbn in Harr; try tauto; lia.
  - (* waiting for the order *)
    destruct (all_in_queue_run_or_not (workers s)) as [Hall|(i & pc & Hpc & Hne)].
    + right; right; right. now split.
    + right; right; left.
      apply (Hmoves i pc Hpc). unfold worker_waits. rewrite Hpc.
      pose proof (Hwb i pc Hpc) as Hbounds. cbn in Hmb.
      destruct (Ht i pc Hpc) as (_ & _ & Hleft & _). rewrite Hmain in Hleft.
      pose proof (proj1 (Forall_lookup _ _) (proj2 (proj2 Hb)) i pc Hpc) as Hok.
      destruct pc; cbn in Hbounds, Hleft, Hok; try tauto; try lia.
      all: specialize (Hleft eq_refl); discriminate.
  - (* in the second wait *)
    right; right; left. cbn in Hmb.
    destruct (barrier_awaits s Hb) as (i & pc & Hpc & Harr);
      [rewrite Hmain; cbn; lia|].
    apply (Hmoves i pc Hpc). unfold worker_waits. rewrite Hpc.
    pose proof (Hwb i pc Hpc) as Hbounds.
    pose proof (proj1 (Forall_lookup _ _) (proj2 (proj2 Hb)) i pc Hpc) as Hok.
    destruct (registered_between (Some msg) n0 s i pc Hinv ltac:(lia) Hpc)
      as (t & Hreg & Hflag & _).
    rewrite Hmain in Hflag. cbn in Hflag.
    unfold should_shut_down. rewrite Hreg.
    destruct pc; cbn in Harr, Hbounds, Hok; try tauto; try lia; congruence.
  - (* joining *)
    right; right; left. destruct Hwaits as (pc & Hpc & Hne).
    apply (Hmoves i pc Hpc). unfold worker_waits. rewrite Hpc.
    pose proof (Hwb i pc Hpc) as Hbounds. cbn in Hmb.
    pose proof (proj1 (Forall_lookup _ _) (proj2 (proj2 Hb)) i pc Hpc) as Hok.
    destruct pc; cbn in Hbounds, Hok; try tauto; lia.
  - now left.
Qed.


(** *** The run can always be completed *)

(** How many steps [run_thread_pool] has before it, for [n] threads. *)
Definition main_remaining (n : nat) (pc : main_pc) : nat :=
  match pc with
  | main_creating i => (n - i) + 2 * n + 10
  | main_at_start_barrier => 2 * n + 9
  | main_in_start_barrier _ => 2 * n + 8
  | main_install_handlers => 2 * n + 7
  | main_wait_shutdown => 2 * n + 6
  | main_remove_handlers => 2 * n + 5
  | main_initiating i => (n - i) + n + 4
  | main_at_exit_barrier => n + 3
  | main_in_exit_barrier _ => n + 2
  | main_joining i => (n - i) + 1
  | main_returned => 0
  end%nat.

(** How many steps [start_thread] has before it. *)
Definition worker_remaining (pc : worker_pc) : nat :=
  match pc with
  | not_created => 9
  | at_setup => 8
  | at_start_barrier => 7
  | in_start_barrier _ => 6
  | past_start_barrier => 5
  | in_queue_run => 4
  | at_exit_barrier => 3
  | in_exit_barrier _ => 2
  | past_exit_barrier => 1
  | exited => 0
  end%nat.

Definition remaining (s : system) : nat :=
  (main_remaining (length (workers s)) (main s)
   + sum_list_with worker_remaining (workers s)
   + (if do_shutdown (pool s) then 0 else 1))%nat.

Lemma sum_list_with_insert {A} (f : A -> nat) (l : list A) : forall i a b,
  l !! i = Some a ->
  (sum_list_with f (<[i := b]> l) + f a = sum_list_with f l + f b)%nat.
Proof.
  induction l as [|x l IH]; intros [|i] a b Hi; try discriminate.
  - injection Hi as ->. cbn. lia.
  - change (f x + sum_list_with f (<[i := b]> l) + f a
            = f x + sum_list_with f l + f b)%nat.
    pose proof (IH i a b Hi). lia.
Qed.

Lemma wait_for_shutdown_was_ordered p p' :
  wait_for_shutdown p = Some p' -> do_shutdown p = true.
Proof.
  unfold wait_for_shutdown, pthread_mutex_lock.
  destruct (shutdown_cond_mutex p); [discriminate|]. cbn.
  now destruct (do_shutdown p).
Qed.

(** A step of a thread uses up one of the remaining steps; a handler and a
    signal use up none, and never withdraw the order to shut down. *)
Lemma step_remaining im a s s' :
  step im a s = Some s' ->
  (remaining s' + match a with main_thread | worker_thread _ => 1 | _ => 0 end
   <= remaining s)%nat.
Proof.
  intros Hstep. unfold remaining.
  step_cases Hstep; state_fields; rewrite ?length_insert;
    repeat match goal with
    | H : start_thread_setup _ _ _ = Some _ |- _ =>
        rewrite (start_thread_setup_do_shutdown _ _ _ _ H); clear H
    | H : start_thread_after_barrier _ _ _ = Some _ |- _ =>
        rewrite (start_thread_after_barrier_do_shutdown _ _ _ _ H); clear H
    | H : initiate_shut_down ?i _ = Some _ |- _ =>
        rewrite (initiate_shut_down_do_shutdown _ _ _ H);
        unfold initiate_shut_down in H
    | H : interrupt_handler _ = Some _ |- _ =>
        rewrite (interrupt_handler_do_shutdown _ _ H); clear H
    | H : wait_for_shutdown _ = Some _ |- _ =>
        rewrite (wait_for_shutdown_do_shutdown _ _ H),
                (wait_for_shutdown_was_ordered _ _ H); clear H
    | H : shutdown_thread_pool _ = Some _ |- _ =>
        rewrite (shutdown_thread_pool_do_shutdown _ _ H); clear H
    | |- context [start_thread_teardown _ _ _] =>
        rewrite start_thread_teardown_do_shutdown
    | |- context [do_shutdown (set_interrupt ?m ?p)] =>
        change (do_shutdown (set_interrupt m p)) with (do_shutdown p)
    | H : workers s !! ?i = Some ?pc |- context [<[?i := ?pc']> (workers s)] =>
        pose proof (sum_list_with_insert worker_remaining (workers s) i pc pc' H);
        pose proof (lookup_lt_Some _ _ _ H); clear H
    end;
    unfold next_in_loop;
    repeat match goal with |- context [(?a <? ?b)%nat] =>
      destruct (Nat.ltb_spec a b) end;
    try destruct b; cbn [main_remaining worker_remaining] in *;
    try destruct (do_shutdown (pool s)); lia.
Qed.

(** In the idle state the order to shut down uses up a step. *)
Lemma order_remaining im i s s' :
  do_shutdown (pool s) = false ->
  step im (message_handler i call_shutdown_thread_pool) s = Some s' ->
  (remaining s' < remaining s)%nat.
Proof.
  intros Hidle Hstep. cbn [step] in Hstep. unfold handler_action_step in Hstep.
  destruct (workers s !! i) as [[]|]; try discriminate.
  destruct (shutdown_thread_pool (pool s)) as [p'|] eqn:Hs; [|discriminate].
  cbn in Hstep. injection Hstep as <-. unfold remaining. state_fields.
  rewrite (shutdown_thread_pool_do_shutdown _ _ Hs), Hidle. lia.
Qed.

Lemma can_return msg n0 : forall k s,
  1 <= n0 -> safety_inv (Some msg) n0 s -> (remaining s <= k)%nat ->
  exists schedule s',
    exec (Some msg) schedule s = Some s' /\ main s' = main_returned.
Proof.
  induction k as [|k IH]; intros s Hn Hinv Hk.
  - (* no step is left *)
    destruct (progress msg n0 s Hinv)
      as [Hret | [(s1 & Hstep) | [(i & s1 & Hstep) | (Hmain & Hidle & Hall)]]].
    + exists [], s. now split.
    + pose proof (step_remaining (Some msg) main_thread s s1 Hstep) as Hr.
      cbn in Hr. lia.
    + pose proof (step_remaining (Some msg) (worker_thread i) s s1 Hstep) as Hr.
      cbn in Hr. lia.
    + exfalso. revert Hk. unfold remaining. rewrite Hmain, Hidle. cbn. lia.
  - assert (forall a s1,
              step (Some msg) a s = Some s1 -> (remaining s1 < remaining s)%nat ->
              exists schedule s',
                exec (Some msg) schedule s = Some s' /\ main s' = main_returned)
      as Hnext.
    { intros a s1 Hstep Hlt.
      destruct (IH s1 Hn) as (schedule & s' & Hexec & Hret).
      - exact (step_safety_inv (Some msg) n0 a s s1 Hinv Hstep).
      - lia.
      - exists (a :: schedule), s'. split; [|exact Hret].
        cbn [exec]. now rewrite Hstep. }
    destruct (progress msg n0 s Hinv)
      as [Hret | [(s1 & Hstep) | [(i & s1 & Hstep) | (Hmain & Hidle & Hall)]]].
    + exists [], s. now split.
    + apply (Hnext main_thread s1 Hstep).
      pose proof (step_remaining (Some msg) main_thread s s1 Hstep) as Hr.
      cbn in Hr. lia.
    + apply (Hnext (worker_thread i) s1 Hstep).
      pose proof (step_remaining (Some msg) (worker_thread i) s s1 Hstep) as Hr.
      cbn in Hr. lia.
    + (* idle: a handler on thread 0 gives the order *)
      pose proof Hinv as ((_ & (_ & Hlw & _) & _) & _ & _ & Hm & _).
      destruct (lookup_lt_is_Some_2 (workers s) 0%nat ltac:(lia)) as [pc0 Hpc0].
      pose proof (proj1 (Forall_lookup _ _) Hall 0%nat pc0 Hpc0) as ->.
      assert (exists s1, step (Some msg) (message_handler 0 call_shutdown_thread_pool) s
                         = Some s1) as [s1 Hstep].
      { cbn [step]. unfold handler_action_step. rewrite Hpc0.
        unfold shutdown_thread_pool, pthread_mutex_lock. rewrite Hm. cbn. eauto. }
      apply (Hnext _ s1 Hstep).
      exact (order_remaining (Some msg) 0 s s1 Hidle Hstep).
Qed.


(** *** What holds in every state [run_thread_pool] can reach *)

Lemma reachable_safety_inv (worker_threads : Z) (aff : bool)
    (initial_message : option message) (schedule : list actor) (s : system) :
  0 <= worker_threads ->
  exec initial_message schedule
       (run_thread_pool_entry (new_linux_thread_pool_t worker_threads aff)) = Some s ->
  safety_inv initial_message (worker_threads + 1) s.
Proof.
  intros HN Hexec.
  exact (exec_safety_inv initial_message (worker_threads + 1) schedule _ s
           (entry_safety_inv initial_message worker_threads aff HN) Hexec).
Qed.

(** X1: the handlers of [SIGINT] and [SIGTERM] are installed only while
    [run_thread_pool] waits for the order to shut down or is about to
    remove them; then every entry of [threads[]] is set, no thread was told
    to stop, and a delivered signal finds the utility thread: the handler
    returns. *)
Theorem handlers_installed_only_while_registered (worker_threads : Z) (aff : bool)
    (initial_message : option message) (schedule : list actor) (s : system) :
  1 <= worker_threads ->
  exec initial_message schedule
       (run_thread_pool_entry (new_linux_thread_pool_t worker_threads aff)) = Some s ->
  interrupt_handlers_installed s = true ->
  (main s = main_wait_shutdown \/ main s = main_remove_handlers)
  /\ (forall i, (i < length (workers s))%nat ->
        exists t, threads (pool s) !! i = Some (Some t) /\ thread_do_shutdown t = false)
  /\ (utility_thread (pool s) < length (workers s))%nat
  /\ exists s', step initial_message interrupt_signal s = Some s'.
Proof.
  intros HN Hexec Hinst.
  pose proof (reachable_safety_inv worker_threads aff initial_message schedule s
                ltac:(lia) Hexec) as Hinv.
  pose proof Hinv as ((Hb & (Hn & Hlw & _) & _) & _ & Hh & _).
  destruct (barrier_bounds s Hb) as [Hmb _].
  unfold handlers_inv in Hh. rewrite Hinst in Hh.
  assert (main s = main_wait_shutdown \/ main s = main_remove_handlers) as Hmain
    by (destruct (main s); try discriminate; tauto).
  assert (generation (barrier s) = 1%nat) as Hgen
    by (destruct Hmain as [Hm|Hm]; rewrite Hm in Hmb; cbn in Hmb; lia).
  assert (forall i, (i < length (workers s))%nat ->
            exists t, threads (pool s) !! i = Some (Some t) /\ thread_do_shutdown t = false)
    as Hreg.
  { intros i Hi. destruct (lookup_lt_is_Some_2 (workers s) i Hi) as [pc Hpc].
    destruct (registered_between initial_message _ s i pc Hinv Hgen Hpc)
      as (t & Ht & Hflag & _).
    exists t. split; [exact Ht|]. rewrite Hflag.
    now destruct Hmain as [Hm|Hm]; rewrite Hm. }
  assert (utility_thread (pool s) < length (workers s))%nat as Hu
    by (unfold utility_thread; lia).
  split; [exact Hmain|]. split; [exact Hreg|]. split; [exact Hu|].
  cbn [step]. unfold signal_step. rewrite Hinst.
  unfold interrupt_handler, set_interrupt_message, post_external.
  destruct (interrupt_message (pool s)) as [m|]; [|cbn; eauto].
  change (utility_thread (set_interrupt None (pool s))) with (utility_thread (pool s)).
  cbn [threads set_interrupt].
  destruct (Hreg _ Hu) as (t & -> & _). cbn. eauto.
Qed.


(** X3: given an initial message, [start_thread] stands still only inside
    [barrier->wait()] while the barrier is not released and in
    [queue.run()] while the thread was not told to stop; neither [rassert]
    on the blocker pool fails, in any interleaving. *)
Theorem start_thread_stops_only_to_wait (worker_threads : Z) (aff : bool)
    (msg : message) (schedule : list actor) (s : system) (i : nat) :
  1 <= worker_threads ->
  exec (Some msg) schedule
       (run_thread_pool_entry (new_linux_thread_pool_t worker_threads aff)) = Some s ->
  step (Some msg) (worker_thread i) s = None ->
  worker_waits i s.
Proof.
  intros HN Hexec Hnone.
  apply (worker_step_waits msg (worker_threads + 1) s i); [|exact Hnone].
  exact (reachable_safety_inv worker_threads aff (Some msg) schedule s
           ltac:(lia) Hexec).
Qed.

(** A pool in which no thread is registered, no blocker pool exists and
    the mutex is free: the state the constructor leaves. *)
Definition clean (p : linux_thread_pool_t) : Prop :=
  threads p = replicate (Z.to_nat (n_threads p)) None /\
  generic_blocker_pool p = None /\
  shutdown_cond_mutex p = false.

Lemma returned_clean im n0 s :
  1 <= n0 -> safety_inv im n0 s -> main s = main_returned ->
  clean (pool s) /\ n_threads (pool s) = n0 /\
  interrupt_handlers_installed s = false /\ do_shutdown (pool s) = true.
Proof.
  intros HN ((Hb & (Hn & Hlw & Hlen & _ & Hbp) & Hj) & Hsd & Hh & Hm & _ & _ & Ht) Hret.
  unfold join_inv in Hj. unfold handlers_inv in Hh. unfold shutdown_inv in Hsd.
  rewrite Hret in *.
  split; [split; [|split; [|exact Hm]]|split; [exact Hn|split; [exact Hh|now apply Hsd]]].
  - rewrite Hn. apply list_eq. intros i. rewrite <- Hlw, <- Hlen.
    destruct (workers s !! i) as [pc|] eqn:Hpc.
    + pose proof (proj1 (Forall_lookup _ _) Hj i pc Hpc) as ->.
      destruct (Ht i exited Hpc) as (e & He & _ & Hok).
      rewrite He. destruct e; [now destruct Hok|].
      symmetry. apply lookup_replicate. split; [reflexivity|].
      now apply lookup_lt_Some in He.
    + apply lookup_ge_None in Hpc. rewrite <- Hlen in Hpc.
      rewrite (proj2 (lookup_ge_None _ _) Hpc). symmetry.
      apply lookup_ge_None. now rewrite length_replicate.
  - destruct (lookup_lt_is_Some_2 (workers s) 0%nat ltac:(lia)) as [pc0 Hpc0].
    pose proof (proj1 (Forall_lookup _ _) Hj 0%nat pc0 Hpc0) as ->.
    now rewrite (Hbp _ Hpc0).
Qed.

(** X4: when [run_thread_pool] has returned, every entry of [threads[]]
    is null again, the blocker pool is deleted, the signal handlers are
    removed, [shutdown_cond_mutex] is free and [do_shutdown] is set. *)
Theorem pool_is_clean_on_return (worker_threads : Z) (aff : bool)
    (initial_message : option message) (schedule : list actor) (s : system) :
  1 <= worker_threads ->
  exec initial_message schedule
       (run_thread_pool_entry (new_linux_thread_pool_t worker_threads aff)) = Some s ->
  main s = main_returned ->
  threads (pool s) = replicate (Z.to_nat (worker_threads + 1)) None
  /\ generic_blocker_pool (pool s) = None
  /\ interrupt_handlers_installed s = false
  /\ shutdown_cond_mutex (pool s) = false
  /\ do_shutdown (pool s) = true.
Proof.
  intros HN Hexec Hret.
  pose proof (reachable_safety_inv worker_threads aff initial_message schedule s
                ltac:(lia) Hexec) as Hinv.
  destruct (returned_clean initial_message (worker_threads + 1) s ltac:(lia) Hinv Hret)
    as ((Hths & Hbp & Hm) & Hn & Hh & Hsd).
  rewrite Hn in Hths. tauto.
Qed.

(** The positions of [start_thread] between the registration of the
    thread object and the call of [queue.run()]. *)
Definition before_loop (pc : worker_pc) : bool :=
  match pc with
  | at_start_barrier | in_start_barrier _ | past_start_barrier => true
  | _ => false
  end.

(** X5: what [start_thread] hands to the event loop.  Until it calls
    [queue.run()] the local queue of a thread is empty.  The step that
    takes a thread from the first barrier into [queue.run()] is taken when
    the barrier has been released once, finds the thread registered and
    the blocker pool built, and leaves the initial message as the only
    entry of the local queue of thread 0 and the local queue of any other
    thread empty; it touches the entry of no other thread.  (What the event
    loop then does with the queue is not part of [thread_pool.cc].) *)
Theorem initial_message_stored_before_event_loop (worker_threads : Z) (aff : bool)
    (msg : message) (schedule : list actor) (s : system) :
  1 <= worker_threads ->
  exec (Some msg) schedule
       (run_thread_pool_entry (new_linux_thread_pool_t worker_threads aff)) = Some s ->
  (forall i pc, workers s !! i = Some pc -> before_loop pc = true ->
     exists t, threads (pool s) !! i = Some (Some t) /\ local_messages t = [])
  /\ (forall i, workers s !! i = Some past_start_barrier ->
        generation (barrier s) = 1%nat /\
        exists s' t,
          step (Some msg) (worker_thread i) s = Some s' /\
          workers s' !! i = Some in_queue_run /\
          threads (pool s') !! i = Some (Some t) /\
          local_messages t = (if (i =? 0)%nat then [msg] else []) /\
          forall j, j <> i -> threads (pool s') !! j = threads (pool s) !! j).
Proof.
  intros HN Hexec.
  pose proof (reachable_safety_inv worker_threads aff (Some msg) schedule s
                ltac:(lia) Hexec) as Hinv.
  pose proof Hinv as ((Hb & _) & _ & _ & _ & _ & _ & Ht).
  destruct (barrier_bounds s Hb) as [_ Hwb].
  assert (forall i pc, workers s !! i = Some pc -> before_loop pc = true ->
            exists t, threads (pool s) !! i = Some (Some t) /\ local_messages t = [])
    as Hempty.
  { intros i pc Hpc Hbefore. destruct (Ht i pc Hpc) as (e & He & _ & Hok).
    destruct e as [t|].
    - exists t. split; [exact He|]. destruct Hok as (_ & _ & ->).
      unfold expected_local. now destruct pc.
    - now destruct pc. }
  split; [exact Hempty|].
  intros i Hpc. pose proof (Hwb i _ Hpc) as Hbounds. cbn in Hbounds.
  split; [lia|].
  destruct (Hempty i _ Hpc eq_refl) as (t & Hreg & Hlocal).
  pose proof (lookup_lt_Some _ _ _ Hpc) as Hi.
  pose proof (lookup_lt_Some _ _ _ Hreg) as Hi'.
  cbn [step].
  destruct (worker_step (Some msg) i s) as [s'|] eqn:Hstep.
  - unfold worker_step in Hstep. rewrite Hpc in Hstep. cbn in Hstep.
    unfold start_thread_after_barrier, tdata_initial_message in Hstep.
    destruct (generic_blocker_pool (pool s)); [|discriminate].
    destruct (Nat.eqb_spec i 0%nat) as [->|Hne].
    + rewrite Hreg in Hstep. cbn in Hstep. injection Hstep as <-.
      exists (with_worker 0
                (in_queue_run)
                (with_pool (set_threads (<[0%nat := Some (store_message msg t)]>
                                           (threads (pool s))) (pool s)) s)),
             (store_message msg t).
      split; [reflexivity|]. state_fields. cbn [threads set_threads].
      split; [now apply list_lookup_insert_eq|].
      split; [now apply list_lookup_insert_eq|].
      split; [cbn; now rewrite Hlocal|].
      intros j Hj. now apply list_lookup_insert_ne.
    + cbn in Hstep. injection Hstep as <-.
      exists (with_worker i in_queue_run (with_pool (pool s) s)), t.
      split; [reflexivity|]. state_fields.
      split; [now apply list_lookup_insert_eq|].
      split; [exact Hreg|]. split; [exact Hlocal|]. reflexivity.
  - pose proof (worker_step_waits msg (worker_threads + 1) s i Hinv Hstep) as Hw.
    unfold worker_waits in Hw. rewrite Hpc in Hw. contradiction.
Qed.

(** X6: a thread is told to stop only by [run_thread_pool], after the
    order to shut down.  [should_shut_down] holds for a registered thread
    exactly when the loop of [initiate_shut_down] has passed it, and a
    thread is out of [queue.run()] only after that; by then [do_shutdown]
    is set and the signal handlers are removed. *)
Theorem event_loop_left_only_on_order (worker_threads : Z) (aff : bool)
    (initial_message : option message) (schedule : list actor) (s : system) :
  1 <= worker_threads ->
  exec initial_message schedule
       (run_thread_pool_entry (new_linux_thread_pool_t worker_threads aff)) = Some s ->
  (forall i t, threads (pool s) !! i = Some (Some t) ->
     should_shut_down i (pool s) = initiated (main s) i)
  /\ forall i pc,
       workers s !! i = Some pc -> left_loop pc = true ->
       initiated (main s) i = true
       /\ do_shutdown (pool s) = true
       /\ interrupt_handlers_installed s = false.
Proof.
  intros HN Hexec.
  pose proof (reachable_safety_inv worker_threads aff initial_message schedule s
                ltac:(lia) Hexec) as ((_ & (_ & _ & Hlen & _) & _) & Hsd & Hh & _ & _ & _ & Ht).
  split.
  - intros i t Hreg. unfold should_shut_down. rewrite Hreg.
    destruct (lookup_lt_is_Some_2 (workers s) i) as [pc Hpc].
    { rewrite <- Hlen. now apply lookup_lt_Some in Hreg. }
    destruct (Ht i pc Hpc) as (e & He & _ & Hok).
    rewrite Hreg in He. injection He as <-. now destruct Hok as (_ & Hflag & _).
  - intros i pc Hpc Hleft.
    destruct (Ht i pc Hpc) as (_ & _ & Hinit & _). specialize (Hinit Hleft).
    unfold shutdown_inv in Hsd. unfold handlers_inv in Hh.
    split; [exact Hinit|].
    destruct (main s); cbn in Hinit; try discriminate; cbn in Hsd, Hh; auto.
Qed.

(** X7: the pool never deadlocks.  In every state [run_thread_pool] can
    reach, given an initial message, it has returned, or it or one of the
    threads can take its next step, or every thread is in its event loop
    and nobody has asked for the shutdown; a handler on any thread can
    then call [shutdown_thread_pool], after which [run_thread_pool] goes
    on. *)
Theorem pool_never_deadlocks (worker_threads : Z) (aff : bool)
    (msg : message) (schedule : list actor) (s : system) :
  1 <= worker_threads ->
  exec (Some msg) schedule
       (run_thread_pool_entry (new_linux_thread_pool_t worker_threads aff)) = Some s ->
  main s = main_returned
  \/ (exists s', step (Some msg) main_thread s = Some s')
  \/ (exists i s', step (Some msg) (worker_thread i) s = Some s')
  \/ (idle s /\
      forall i, (i < length (workers s))%nat ->
        exists s' s'',
          step (Some msg) (message_handler i call_shutdown_thread_pool) s = Some s' /\
          step (Some msg) main_thread s' = Some s'').
Proof.
  intros HN Hexec.
  pose proof (reachable_safety_inv worker_threads aff (Some msg) schedule s
                ltac:(lia) Hexec) as Hinv.
  destruct (progress msg _ s Hinv) as [Hret | [Hm | [Hw | Hidle]]]; auto.
  right; right; right. split; [exact Hidle|].
  destruct Hidle as (Hmain & Hfalse & Hall).
  pose proof Hinv as (_ & _ & _ & Hmutex & _).
  intros i Hi. destruct (lookup_lt_is_Some_2 (workers s) i Hi) as [pc Hpc].
  pose proof (proj1 (Forall_lookup _ _) Hall i pc Hpc) as ->.
  cbn [step]. unfold handler_action_step. rewrite Hpc.
  unfold mutex_inv in Hmutex.
  unfold shutdown_thread_pool, pthread_mutex_lock. rewrite Hmutex. cbn.
  eexists. eexists. split; [reflexivity|].
  unfold main_step. cbn [main with_pool]. rewrite Hmain.
  unfold wait_for_shutdown, pthread_mutex_lock. cbn. reflexivity.
Qed.

(** X8: whatever has happened so far, the run can be completed.  From
    every state [run_thread_pool] can reach, given an initial message,
    there is a continuation on which it returns. *)
Theorem run_thread_pool_can_return (worker_threads : Z) (aff : bool)
    (msg : message) (schedule : list actor) (s : system) :
  1 <= worker_threads ->
  exec (Some msg) schedule
       (run_thread_pool_entry (new_linux_thread_pool_t worker_threads aff)) = Some s ->
  exists continuation s',
    exec (Some msg) (schedule ++ continuation)
         (run_thread_pool_entry (new_linux_thread_pool_t worker_threads aff)) = Some s'
    /\ main s' = main_returned.
Proof.
  intros HN Hexec.
  pose proof (reachable_safety_inv worker_threads aff (Some msg) schedule s
                ltac:(lia) Hexec) as Hinv.
  destruct (can_return msg (worker_threads + 1) (remaining s) s ltac:(lia) Hinv (le_n _))
    as (continuation & s' & Hcont & Hret).
  exists continuation, s'. split; [|exact Hret].
  clear Hinv Hret. revert Hexec. generalize (run_thread_pool_entry
    (new_linux_thread_pool_t worker_threads aff)).
  induction schedule as [|a schedule IH]; intros s0 Hexec.
  - cbn in Hexec. injection Hexec as ->. exact Hcont.
  - cbn [exec app] in *. destruct (step (Some msg) a s0) as [s1|]; [|discriminate].
    cbn in *. now apply IH.
Qed.


(** *** Without the order to shut down *)

(** Nobody has set [do_shutdown], and [run_thread_pool] has not got past
    its wait for it. *)
Definition unordered (s : system) : Prop :=
  do_shutdown (pool s) = false /\ main_after_wait (main s) = false.

Definition gives_order (a : actor) : bool :=
  match a with
  | message_handler _ call_shutdown_thread_pool => true
  | _ => false
  end.

Lemma step_unordered im a s s' :
  gives_order a = false -> unordered s -> step im a s = Some s' -> unordered s'.
Proof.
  unfold unordered. intros Ha [Hsd Hmain] Hstep.
  step_cases Hstep; state_fields; try discriminate Ha;
    try (rewrite Hmain0 in Hmain; cbn [main_after_wait] in Hmain);
    try discriminate Hmain;
    repeat match goal with
    | H : start_thread_setup _ _ _ = Some _ |- _ =>
        rewrite (start_thread_setup_do_shutdown _ _ _ _ H); clear H
    | H : start_thread_after_barrier _ _ _ = Some _ |- _ =>
        rewrite (start_thread_after_barrier_do_shutdown _ _ _ _ H); clear H
    | H : interrupt_handler _ = Some _ |- _ =>
        rewrite (interrupt_handler_do_shutdown _ _ H); clear H
    | H : wait_for_shutdown _ = Some _ |- _ =>
        rewrite (wait_for_shutdown_was_ordered _ _ H) in Hsd; discriminate Hsd
    | |- context [start_thread_teardown _ _ _] =>
        rewrite start_thread_teardown_do_shutdown
    end;
    unfold next_in_loop;
    repeat match goal with |- context [(?a <? ?b)%nat] => destruct (a <? b)%nat end;
    try destruct b; cbn [main_after_wait]; auto.
Qed.

(** X9: [run_thread_pool] shuts the pool down only on the order of
    [shutdown_thread_pool] given during the run.  It clears [do_shutdown]
    on entry, whatever the flag was, and as long as no handler has called
    [shutdown_thread_pool] the flag stays clear and [run_thread_pool] does
    not get past its wait; a signal alone does not stop the pool. *)
Theorem no_shutdown_without_order (initial_message : option message)
    (p : linux_thread_pool_t) (schedule : list actor) (s : system) :
  exec initial_message schedule (run_thread_pool_entry p) = Some s ->
  forallb (fun a => negb (gives_order a)) schedule = true ->
  do_shutdown (pool s) = false /\ main_after_wait (main s) = false.
Proof.
  assert (unordered (run_thread_pool_entry p)) as Hentry.
  { unfold unordered, run_thread_pool_entry, next_in_loop. cbn [pool main].
    split; [reflexivity|]. now destruct (_ <? _)%nat. }
  revert Hentry. generalize (run_thread_pool_entry p).
  induction schedule as [|a schedule IH]; intros s0 Hinv Hexec Hno.
  - cbn in Hexec. now injection Hexec as <-.
  - cbn [exec forallb] in *. apply andb_true_iff in Hno as [Ha Hno].
    destruct (step initial_message a s0) as [s1|] eqn:Hstep; [|discriminate].
    cbn in Hexec. apply (IH s1); [|exact Hexec|exact Hno].
    apply (step_unordered initial_message a s0 s1); [|exact Hinv|exact Hstep].
    now destruct (gives_order a).
Qed.

(** *** Without an initial message *)

(** No thread has got to [queue.run()]. *)
Definition unstarted (s : system) : Prop :=
  unordered s /\
  Forall (fun pc => primed pc = false /\ left_loop pc = false) (workers s).

Lemma step_unstarted n0 a s s' :
  pool_inv None n0 s -> unstarted s -> step None a s = Some s' -> unstarted s'.
Proof.
  intros (_ & _ & _ & _ & Hbp) [Hun Hall] Hstep.
  assert (gives_order a = true -> False) as Hno.
  { destruct a as [| |i [|]|]; try discriminate. intros _.
    cbn [step] in Hstep. unfold handler_action_step in Hstep.
    destruct (workers s !! i) as [pc|] eqn:Hpc; [|discriminate].
    pose proof (proj1 (Forall_lookup _ _) Hall i pc Hpc) as [Hprimed _].
    destruct pc; discriminate. }
  split.
  { apply (step_unordered None a s s'); [|exact Hun|exact Hstep].
    destruct (gives_order a); [now destruct Hno|reflexivity]. }
  clear Hno Hun.
  step_cases Hstep; state_fields; try exact Hall;
    try (apply Forall_insert; [exact Hall|]; try destruct b; now split).
  all: match goal with H : workers _ !! ?i = Some ?pc |- _ =>
         pose proof (proj1 (Forall_lookup _ _) Hall i pc H) as [Hprimed Hleft] end;
       try discriminate.
  (* the [rassert] after the barrier *)
  match goal with H : start_thread_after_barrier _ _ _ = Some _ |- _ =>
    unfold start_thread_after_barrier in H end.
  assert (0 < length (workers s))%nat as H0 by (apply lookup_lt_Some in Hpc; lia).
  destruct (lookup_lt_is_Some_2 (workers s) 0%nat H0) as [pc0 Hpc0].
  rewrite (Hbp pc0 Hpc0) in *. unfold expected_blocker_pool in *.
  destruct (worker_live pc0); discriminate.
Qed.

(** X10: without an initial message no thread builds the blocker pool.
    When [run_thread_pool] is given a null message, the blocker pool stays
    null, every thread that comes out of the first [barrier->wait()] fails
    the [rassert] on it, no thread reaches [queue.run()], and
    [run_thread_pool] does not get past its wait for [do_shutdown]. *)
Theorem null_initial_message_fails_rassert (worker_threads : Z) (aff : bool)
    (schedule : list actor) (s : system) :
  1 <= worker_threads ->
  exec None schedule
       (run_thread_pool_entry (new_linux_thread_pool_t worker_threads aff)) = Some s ->
  generic_blocker_pool (pool s) = None
  /\ (forall i pc, workers s !! i = Some pc -> primed pc = false /\ left_loop pc = false)
  /\ (forall i, workers s !! i = Some past_start_barrier ->
        step None (worker_thread i) s = None)
  /\ main_after_wait (main s) = false.
Proof.
  intros HN Hexec.
  pose proof (reachable_safety_inv worker_threads aff None schedule s ltac:(lia) Hexec)
    as ((_ & (_ & Hlw & _ & _ & Hbp) & _) & _).
  assert (generic_blocker_pool (pool s) = None) as Hnull.
  { destruct (lookup_lt_is_Some_2 (workers s) 0%nat ltac:(lia)) as [pc0 Hpc0].
    rewrite (Hbp pc0 Hpc0). unfold expected_blocker_pool. now destruct (worker_live pc0). }
  assert (unstarted s) as [[_ Hmain] Hall].
  { clear Hlw Hbp Hnull. revert Hexec.
    pose proof (entry_system_inv None worker_threads aff ltac:(lia)) as Hinv.
    assert (unstarted (run_thread_pool_entry (new_linux_thread_pool_t worker_threads aff)))
      as Hentry.
    { unfold unstarted, unordered, run_thread_pool_entry, next_in_loop.
      cbn [pool main workers]. split.
      - split; [reflexivity|]. now destruct (_ <? _)%nat.
      - apply Forall_replicate. now split. }
    revert Hinv Hentry.
    generalize (run_thread_pool_entry (new_linux_thread_pool_t worker_threads aff)).
    induction schedule as [|a schedule IH]; intros s0 Hinv Hun Hexec.
    - cbn in Hexec. now injection Hexec as <-.
    - cbn [exec] in Hexec.
      destruct (step None a s0) as [s1|] eqn:Hstep; [|discriminate].
      cbn in Hexec. apply (IH s1); [| |exact Hexec].
      + exact (exec_system_inv None _ [a] s0 s1 Hinv
                 ltac:(cbn [exec]; now rewrite Hstep)).
      + exact (step_unstarted _ a s0 s1 (proj1 (proj2 Hinv)) Hun Hstep). }
  split; [exact Hnull|]. split; [|split; [|exact Hmain]].
  - intros i pc Hpc. exact (proj1 (Forall_lookup _ _) Hall i pc Hpc).
  - intros i Hpc. cbn [step]. unfold worker_step. rewrite Hpc. cbn.
    unfold start_thread_after_barrier. now rewrite Hnull.
Qed.


(** *** A second run *)

(** [run_thread_pool] entered on a clean pool. *)
Lemma clean_entry_safety_inv im p :
  1 <= n_threads p -> clean p ->
  safety_inv im (n_threads p) (run_thread_pool_entry p).
Proof.
  intros HN (Hths & Hbp & Hm). unfold run_thread_pool_entry.
  set (n := Z.to_nat (n_threads p)).
  assert (0 < n)%nat as Hn by lia.
  unfold next_in_loop. destruct (Nat.ltb_spec 0 n) as [_|]; [|lia].
  split; [split; [|split]|].
  - unfold barrier_inv, barrier_counts, arrivals, passes.
    cbn [barrier main workers arity waiting generation main_arrivals main_passes
         main_parked_ok length].
    rewrite length_fmap, length_replicate.
    split; [|split; [exact I|apply Forall_replicate; exact I]].
    split; [reflexivity|]. split.
    { symmetry. apply count_eq_none. constructor; [discriminate|].
      apply Forall_fmap, Forall_replicate. discriminate. }
    split; [lia|]. split.
    { apply Forall_forall. intros; lia. }
    constructor; [lia|]. apply Forall_fmap, Forall_replicate. cbn. lia.
  - unfold pool_inv. cbn [pool workers threads n_threads set_do_shutdown
      generic_blocker_pool]. rewrite Hths, !length_replicate.
    split; [reflexivity|]. split; [reflexivity|]. split; [reflexivity|]. split.
    + intros i pc Hi Hlive. apply lookup_replicate in Hi as [-> _]. discriminate.
    + intros pc0 H0. apply lookup_replicate in H0 as [-> _]. exact Hbp.
  - exact I.
  - unfold shutdown_inv, handlers_inv, mutex_inv, created_inv, index_inv, thread_inv.
    cbn [main pool workers interrupt_handlers_installed set_do_shutdown
         shutdown_cond_mutex threads main_after_wait handlers_window].
    rewrite length_replicate.
    split; [discriminate|]. split; [reflexivity|]. split; [exact Hm|].
    split; [|split; [exact Hn|]].
    + split; [exact Hn|]. intros j pc Hj. apply lookup_replicate in Hj as [-> _].
      split; [lia|reflexivity].
    + intros i pc Hi. apply lookup_replicate in Hi as [-> Hi]. exists None.
      rewrite Hths. split; [now apply lookup_replicate|].
      split; [discriminate|reflexivity].
Qed.

Lemma exec_app im schedule continuation : forall s0 s,
  exec im schedule s0 = Some s ->
  exec im (schedule ++ continuation) s0 = exec im continuation s.
Proof.
  induction schedule as [|a schedule IH]; intros s0 s Hexec.
  - cbn in Hexec. now injection Hexec as ->.
  - cbn [exec app] in *. destruct (step im a s0) as [s1|]; [|discriminate].
    cbn in *. now apply IH.
Qed.

(** X11: a pool can be run again.  When [run_thread_pool] has returned,
    a second call on the same pool object, with an initial message, starts
    from a clean pool: whatever happens in the second run, it can be
    completed, and when it has returned the pool is clean once more. *)
Theorem pool_can_be_run_again (worker_threads : Z) (aff : bool)
    (initial_message : option message) (schedule : list actor) (s : system)
    (msg : message) (schedule' : list actor) (s' : system) :
  1 <= worker_threads ->
  exec initial_message schedule
       (run_thread_pool_entry (new_linux_thread_pool_t worker_threads aff)) = Some s ->
  main s = main_returned ->
  exec (Some msg) schedule' (run_thread_pool_entry (pool s)) = Some s' ->
  (main s' = main_returned -> clean (pool s') /\ do_shutdown (pool s') = true)
  /\ exists continuation s'',
       exec (Some msg) (schedule' ++ continuation) (run_thread_pool_entry (pool s))
         = Some s''
       /\ main s'' = main_returned.
Proof.
  intros HN Hexec Hret Hexec'.
  pose proof (reachable_safety_inv worker_threads aff initial_message schedule s
                ltac:(lia) Hexec) as Hinv.
  destruct (returned_clean initial_message (worker_threads + 1) s ltac:(lia) Hinv Hret)
    as (Hclean & Hn & _ & _).
  pose proof (clean_entry_safety_inv (Some msg) (pool s) ltac:(lia) Hclean) as Hentry.
  pose proof (exec_safety_inv (Some msg) _ schedule' _ s' Hentry Hexec') as Hinv'.
  split.
  - intros Hret'.
    destruct (returned_clean (Some msg) (n_threads (pool s)) s' ltac:(lia) Hinv' Hret')
      as (Hclean' & _ & _ & Hsd). now split.
  - destruct (can_return msg (n_threads (pool s)) (remaining s') s' ltac:(lia) Hinv'
                (le_n _))
      as (continuation & s'' & Hcont & Hret'').
    exists continuation, s''. split; [|exact Hret''].
    now rewrite (exec_app (Some msg) schedule' continuation _ s' Hexec').
Qed.

(** *** The pool of one worker and the utility thread, again *)

(** Both threads run their event loop, the handlers are installed, nobody
    has asked for the shutdown. *)
Definition two_thread_idle : system :=
  Eval vm_compute in state_after (take 12 two_thread_run).

(** Thread 0 has left its event loop. *)
Definition two_thread_stopping : system :=
  Eval vm_compute in state_after (take 18 two_thread_run).

Lemma handlers_installed_only_while_registered_witness :
  (main two_thread_idle = main_wait_shutdown \/ main two_thread_idle = main_remove_handlers)
  /\ exists s', step (Some 9%nat) interrupt_signal two_thread_idle = Some s'.
Proof.
  destruct (handlers_installed_only_while_registered 1 false (Some 9%nat)
              (take 12 two_thread_run) two_thread_idle)
    as (Hmain & _ & _ & Hsignal).
  - discriminate.
  - vm_compute. reflexivity.
  - reflexivity.
  - split; [exact Hmain|exact Hsignal].
Defined.


Lemma start_thread_stops_only_to_wait_witness :
  worker_waits 0 two_thread_idle.
Proof.
  apply (start_thread_stops_only_to_wait 1 false 9%nat
           (take 12 two_thread_run) two_thread_idle 0).
  - discriminate.
  - vm_compute. reflexivity.
  - vm_compute. reflexivity.
Defined.

Lemma null_initial_message_fails_rassert_witness :
  exists s,
    exec None (take 9 two_thread_run) two_thread_entry = Some s /\
    workers s = [past_start_barrier; past_start_barrier] /\
    generic_blocker_pool (pool s) = None /\
    step None (worker_thread 1) s = None.
Proof.
  eexists. split; [vm_compute; reflexivity|].
  match goal with |- workers ?s = _ /\ _ =>
    destruct (null_initial_message_fails_rassert 1 false (take 9 two_thread_run) s)
      as (Hnull & _ & Hfails & _) end.
  - discriminate.
  - vm_compute. reflexivity.
  - split; [reflexivity|]. split; [exact Hnull|]. now apply Hfails.
Defined.

Lemma pool_is_clean_on_return_witness :
  threads (pool two_thread_returned) = [None; None]
  /\ generic_blocker_pool (pool two_thread_returned) = None
  /\ interrupt_handlers_installed two_thread_returned = false.
Proof.
  destruct (pool_is_clean_on_return 1 false (Some 9%nat) two_thread_run two_thread_returned)
    as (Hths & Hbp & Hh & _).
  - discriminate.
  - vm_compute. reflexivity.
  - reflexivity.
  - split; [exact Hths|]. split; [exact Hbp|exact Hh].
Defined.

Lemma initial_message_stored_before_event_loop_witness :
  workers two_thread_started = [past_start_barrier; past_start_barrier] /\
  exists s' t,
    step (Some 9%nat) (worker_thread 0) two_thread_started = Some s' /\
    threads (pool s') !! 0%nat = Some (Some t) /\ local_messages t = [9%nat].
Proof.
  split; [reflexivity|].
  destruct (proj2 (initial_message_stored_before_event_loop 1 false 9%nat
                     (take 9 two_thread_run) two_thread_started
                     ltac:(discriminate) ltac:(vm_compute; reflexivity))
              0%nat eq_refl) as (_ & s' & t & Hstep & _ & Ht & Hl & _).
  exists s', t. split; [exact Hstep|]. split; [exact Ht|exact Hl].
Defined.

Lemma event_loop_left_only_on_order_witness :
  workers two_thread_stopping = [at_exit_barrier; in_queue_run]
  /\ do_shutdown (pool two_thread_stopping) = true
  /\ interrupt_handlers_installed two_thread_stopping = false.
Proof.
  destruct (proj2 (event_loop_left_only_on_order 1 false (Some 9%nat)
                     (take 18 two_thread_run) two_thread_stopping
                     ltac:(discriminate) ltac:(vm_compute; reflexivity))
              0%nat at_exit_barrier eq_refl eq_refl) as (_ & Hsd & Hh).
  split; [reflexivity|]. split; [exact Hsd|exact Hh].
Defined.

Lemma pool_never_deadlocks_witness :
  main two_thread_idle = main_returned
  \/ (exists s', step (Some 9%nat) main_thread two_thread_idle = Some s')
  \/ (exists i s', step (Some 9%nat) (worker_thread i) two_thread_idle = Some s')
  \/ (idle two_thread_idle /\
      forall i, (i < length (workers two_thread_idle))%nat ->
        exists s' s'',
          step (Some 9%nat) (message_handler i call_shutdown_thread_pool) two_thread_idle
            = Some s' /\
          step (Some 9%nat) main_thread s' = Some s'').
Proof.
  apply (pool_never_deadlocks 1 false 9%nat (take 12 two_thread_run) two_thread_idle).
  - discriminate.
  - vm_compute. reflexivity.
Defined.

Lemma run_thread_pool_can_return_witness :
  exists continuation s',
    exec (Some 9%nat) (take 12 two_thread_run ++ continuation) two_thread_entry = Some s'
    /\ main s' = main_returned.
Proof.
  apply (run_thread_pool_can_return 1 false 9%nat (take 12 two_thread_run) two_thread_idle).
  - discriminate.
  - vm_compute. reflexivity.
Defined.

Lemma pool_can_be_run_again_witness :
  exists s'',
    exec (Some 5%nat) two_thread_run (run_thread_pool_entry (pool two_thread_returned))
      = Some s'' /\
    main s'' = main_returned /\ clean (pool s'').
Proof.
  eexists. split; [vm_compute; reflexivity|]. split; [reflexivity|].
  match goal with |- clean (pool ?s2) =>
    destruct (pool_can_be_run_again 1 false (Some 9%nat) two_thread_run two_thread_returned
                5%nat two_thread_run s2) as [Hclean _] end.
  - discriminate.
  - vm_compute. reflexivity.
  - reflexivity.
  - vm_compute. reflexivity.
  - exact (proj1 (Hclean eq_refl)).
Defined.

(** A pool on which [shutdown_thread_pool] was called before the run. *)
Definition ordered_too_early : linux_thread_pool_t :=
  set_do_shutdown true (new_linux_thread_pool_t 1 false).

Lemma no_shutdown_without_order_witness :
  do_shutdown ordered_too_early = true /\
  exists s,
    exec (Some 9%nat) (take 12 two_thread_run ++ [interrupt_signal])
         (run_thread_pool_entry ordered_too_early) = Some s /\
    do_shutdown (pool s) = false /\ main s = main_wait_shutdown.
Proof.
  split; [reflexivity|]. eexists. split; [vm_compute; reflexivity|].
  match goal with |- do_shutdown (pool ?s) = _ /\ _ =>
    destruct (no_shutdown_without_order (Some 9%nat) ordered_too_early
                (take 12 two_thread_run ++ [interrupt_signal]) s) as [Hsd _] end.
  - vm_compute. reflexivity.
  - reflexivity.
  - split; [exact Hsd|reflexivity].
Defined.

End Safety.

(** ** What [check_crc] detects

    [crc_metablock_t::check_crc] compares the stored CRC with the CRC of
    the payload.  The register of the CRC is a linear shift register over
    32 bits whose steps can be undone, so a change of up to four
    consecutive bytes of the payload always changes the CRC. *)

Module Detection.
Import MachineInt Crc Metablock.

(** The register, least significant bit first, as in
    [crc_optimal_is_standard_crc32]. *)
Definition register (bs : list byte) : Z := fold_left crc32_update bs 0xFFFFFFFF.

Definition in_register (c : Z) : Prop := 0 <= c < 2 ^ 32.

Lemma testbit_high c i : in_register c -> 32 <= i -> Z.testbit c i = false.
Proof.
  intros Hc Hi. rewrite <- (Z.mod_small c (2 ^ 32)) by exact Hc.
  apply Z.mod_pow2_bits_high. lia.
Qed.

Lemma lxor_cancel_r a b p : Z.lxor a p = Z.lxor b p -> a = b.
Proof.
  intros Heq. apply (f_equal (fun x => Z.lxor x p)) in Heq.
  now rewrite !Z.lxor_assoc, Z.lxor_nilpotent, !Z.lxor_0_r in Heq.
Qed.

Lemma lxor_cancel_l a b p : Z.lxor p a = Z.lxor p b -> a = b.
Proof. rewrite !(Z.lxor_comm p). apply lxor_cancel_r. Qed.

Lemma crc32_shift_range c : in_register c -> in_register (crc32_shift c).
Proof.
  intros Hc. unfold in_register in *.
  assert (0 <= Z.shiftr c 1 < 2 ^ 32) as Hs.
  { rewrite Z.shiftr_div_pow2 by lia. change (2 ^ 1) with 2.
    split; [apply Z.div_pos; lia|]. apply Z.div_lt_upper_bound; lia. }
  unfold crc32_shift. destruct (Z.testbit c 0); [|exact Hs].
  apply lxor_range; [lia|exact Hs|lia].
Qed.

(** A step of the register can be undone: the bit that left it is the top
    bit of the result, because the polynomial has its top bit set. *)
Lemma crc32_shift_inj c1 c2 :
  in_register c1 -> in_register c2 -> crc32_shift c1 = crc32_shift c2 -> c1 = c2.
Proof.
  intros H1 H2 Heq.
  assert (forall c, in_register c -> Z.testbit (crc32_shift c) 31 = Z.testbit c 0) as Htop.
  { intros c Hc. unfold crc32_shift.
    assert (Z.testbit (Z.shiftr c 1) 31 = false) as Hs
      by (rewrite Z.shiftr_spec by lia; apply testbit_high; [exact Hc|lia]).
    destruct (Z.testbit c 0); [|exact Hs].
    rewrite Z.lxor_spec, Hs. reflexivity. }
  assert (Z.testbit c1 0 = Z.testbit c2 0) as Hlow
    by (rewrite <- (Htop c1 H1), <- (Htop c2 H2); now rewrite Heq).
  assert (Z.shiftr c1 1 = Z.shiftr c2 1) as Hrest.
  { unfold crc32_shift in Heq. rewrite Hlow in Heq.
    destruct (Z.testbit c2 0); [|exact Heq].
    exact (lxor_cancel_r _ _ _ Heq). }
  apply Z.bits_inj'. intros i Hi.
  destruct (Z.eq_dec i 0) as [->|Hne]; [exact Hlow|].
  replace i with (i - 1 + 1) by lia.
  rewrite <- !(Z.shiftr_spec _ 1) by lia. now rewrite Hrest.
Qed.


Lemma iter_shift_range k c :
  in_register c -> in_register (Nat.iter k crc32_shift c).
Proof.
  intros Hc. induction k as [|k IH]; [exact Hc|].
  rewrite Nat.iter_succ. now apply crc32_shift_range.
Qed.

Lemma iter_shift_inj k c1 c2 :
  in_register c1 -> in_register c2 ->
  Nat.iter k crc32_shift c1 = Nat.iter k crc32_shift c2 -> c1 = c2.
Proof.
  intros H1 H2. induction k as [|k IH]; [trivial|].
  rewrite !Nat.iter_succ. intros Heq. apply IH.
  apply crc32_shift_inj; [now apply iter_shift_range..|exact Heq].
Qed.

(** The register is linear. *)
Lemma crc32_shift_lxor a b :
  crc32_shift (Z.lxor a b) = Z.lxor (crc32_shift a) (crc32_shift b).
Proof.
  unfold crc32_shift. rewrite Z.lxor_spec, Z.shiftr_lxor.
  destruct (Z.testbit a 0), (Z.testbit b 0); cbn [xorb].
  - rewrite Z.lxor_assoc, (Z.lxor_comm 0xEDB88320), !Z.lxor_assoc, Z.lxor_nilpotent.
    now rewrite Z.lxor_0_r.
  - now rewrite !Z.lxor_assoc, (Z.lxor_comm 0xEDB88320).
  - now rewrite Z.lxor_assoc.
  - reflexivity.
Qed.

Lemma iter_shift_lxor k a b :
  Nat.iter k crc32_shift (Z.lxor a b) =
  Z.lxor (Nat.iter k crc32_shift a) (Nat.iter k crc32_shift b).
Proof.
  induction k as [|k IH]; [reflexivity|].
  now rewrite !Nat.iter_succ, IH, crc32_shift_lxor.
Qed.

(** What enters the register above the bits that leave it in [k] steps
    comes down unchanged. *)
Lemma iter_shift_shiftl k x :
  Nat.iter k crc32_shift (Z.shiftl x (Z.of_nat k)) = x.
Proof.
  revert x. induction k as [|k IH]; intros x.
  - cbn. apply Z.shiftl_0_r.
  - rewrite Nat.iter_succ_r.
    assert (crc32_shift (Z.shiftl x (Z.of_nat (S k))) = Z.shiftl x (Z.of_nat k)) as ->.
    { unfold crc32_shift. rewrite Z.shiftl_spec_low by lia.
      rewrite Z.shiftr_shiftl_l by lia. f_equal. lia. }
    apply IH.
Qed.

Lemma crc32_update_range c b : in_register c -> in_register (crc32_update c b).
Proof.
  intros Hc. unfold crc32_update. apply iter_shift_range.
  pose proof (byte_val_range b). apply lxor_range; [lia|exact Hc|lia].
Qed.

Lemma fold_update_range bs : forall c,
  in_register c -> in_register (fold_left crc32_update bs c).
Proof.
  induction bs as [|b bs IH]; intros c Hc; [exact Hc|].
  cbn [fold_left]. now apply IH, crc32_update_range.
Qed.

Lemma fold_update_inj bs : forall c1 c2,
  in_register c1 -> in_register c2 ->
  fold_left crc32_update bs c1 = fold_left crc32_update bs c2 -> c1 = c2.
Proof.
  induction bs as [|b bs IH]; intros c1 c2 H1 H2 Heq; [exact Heq|].
  cbn [fold_left] in Heq.
  apply IH in Heq; [|now apply crc32_update_range..].
  unfold crc32_update in Heq. pose proof (byte_val_range b).
  apply iter_shift_inj in Heq; [|apply lxor_range; (lia || assumption)..].
  exact (lxor_cancel_r _ _ _ Heq).
Qed.


(** *** A window of up to four bytes *)

Lemma add_shift_lxor v d : 0 <= v < 256 -> v + 256 * d = Z.lxor v (Z.shiftl d 8).
Proof.
  intros Hv. rewrite Z.shiftl_mul_pow2 by lia. change (2 ^ 8) with 256.
  rewrite (Z.mul_comm 256). apply Z.add_nocarry_lxor.
  apply Z.bits_inj'. intros i Hi. rewrite Z.land_spec, Z.bits_0.
  destruct (Z.lt_ge_cases i 8).
  - replace (d * 256) with (Z.shiftl d 8)
      by (rewrite Z.shiftl_mul_pow2 by lia; reflexivity).
    rewrite Z.shiftl_spec_low by lia. apply andb_false_r.
  - rewrite <- (Z.mod_small v (2 ^ 8)) by (change (2 ^ 8) with 256; lia).
    now rewrite Z.mod_pow2_bits_high by lia.
Qed.

(** The bytes of a window enter the register as one little-endian
    number. *)
Lemma fold_update_window ws : forall c,
  fold_left crc32_update ws c =
  Nat.iter (8 * length ws) crc32_shift (Z.lxor c (decode_le ws)).
Proof.
  induction ws as [|b ws IH]; intros c.
  - cbn. now rewrite Z.lxor_0_r.
  - cbn [fold_left decode_le length]. rewrite IH.
    replace (8 * S (length ws))%nat with (8 * length ws + 8)%nat by lia.
    rewrite Nat.iter_add. f_equal.
    rewrite add_shift_lxor by apply byte_val_range.
    rewrite <- Z.lxor_assoc, iter_shift_lxor.
    change (Z.shiftl (decode_le ws) 8) with (Z.shiftl (decode_le ws) (Z.of_nat 8)).
    now rewrite iter_shift_shiftl.
Qed.

Lemma decode_le_range ws : 0 <= decode_le ws < 2 ^ (8 * Z.of_nat (length ws)).
Proof.
  induction ws as [|b ws IH]; [cbn; lia|].
  cbn [decode_le length]. pose proof (byte_val_range b).
  replace (8 * Z.of_nat (S (length ws))) with (8 + 8 * Z.of_nat (length ws)) by lia.
  rewrite Z.pow_add_r by lia. change (2 ^ 8) with 256. nia.
Qed.

Lemma byte_val_inj b b' : byte_val b = byte_val b' -> b = b'.
Proof.
  unfold byte_val. intros Heq. apply N2Z.inj in Heq.
  pose proof (Byte.of_to_N b) as Hb. rewrite Heq, Byte.of_to_N in Hb.
  now injection Hb.
Qed.

Lemma decode_le_inj ws : forall ws',
  length ws = length ws' -> decode_le ws = decode_le ws' -> ws = ws'.
Proof.
  induction ws as [|b ws IH]; intros [|b' ws'] Hlen Heq; try discriminate;
    [reflexivity|].
  cbn [decode_le length] in *.
  pose proof (byte_val_range b). pose proof (byte_val_range b').
  assert (byte_val b = byte_val b' /\ decode_le ws = decode_le ws') as [Hb Hd] by lia.
  f_equal; [now apply byte_val_inj|]. apply IH; [lia|exact Hd].
Qed.

(** Two payloads that differ only inside a window of up to four bytes
    leave the register in different states. *)
Lemma window_changes_register pre w w' post :
  length w' = length w -> (length w <= 4)%nat -> w' <> w ->
  register (pre ++ w' ++ post) <> register (pre ++ w ++ post).
Proof.
  intros Hlen Hshort Hne Heq. apply Hne. unfold register in Heq.
  rewrite !fold_left_app in Heq.
  set (c := fold_left crc32_update pre 0xFFFFFFFF) in *.
  assert (in_register c) as Hc by (apply fold_update_range; unfold in_register; lia).
  assert (forall v, length v = length w -> in_register (Z.lxor c (decode_le v))) as Hin.
  { intros v Hv. apply lxor_range; [lia|exact Hc|].
    pose proof (decode_le_range v) as Hr. rewrite Hv in Hr.
    split; [lia|]. eapply Z.lt_le_trans; [apply Hr|].
    apply Z.pow_le_mono_r; lia. }
  apply fold_update_inj in Heq; [|now apply fold_update_range..].
  rewrite !fold_update_window, Hlen in Heq.
  apply iter_shift_inj in Heq; [|now apply Hin..].
  apply lxor_cancel_l in Heq. now apply decode_le_inj.
Qed.

(** X12: [check_crc] detects every corruption of the payload that is
    confined to four consecutive bytes.  If a record passes [check_crc]
    and a second record has the same stored CRC and a payload that differs
    from the first only inside a window of one to four bytes, the second
    record fails [check_crc]. *)
Theorem check_crc_detects_short_corruption {metablock_t : Type}
    `{ObjectRepr metablock_t} (r r' : crc_metablock_t metablock_t)
    (pre w w' post : list byte) :
  check_crc r = true ->
  _crc r' = _crc r ->
  object_bytes (metablock r) = pre ++ w ++ post ->
  object_bytes (metablock r') = pre ++ w' ++ post ->
  length w' = length w -> (length w <= 4)%nat -> w' <> w ->
  check_crc r' = false.
Proof.
  intros Hvalid Hcrc Hr Hr' Hlen Hshort Hne.
  unfold check_crc, crc in *. rewrite Hcrc. apply Z.eqb_eq in Hvalid. rewrite Hvalid.
  rewrite !crc_optimal_is_standard_crc32, Hr, Hr'. apply Z.eqb_neq.
  unfold standard_crc32. intros Heq. apply lxor_cancel_r in Heq.
  symmetry in Heq. revert Heq. now apply window_changes_register.
Qed.

(** A payload of six bytes, and the same payload with its third and fourth
    byte overwritten. *)
Definition sound_record : crc_metablock_t (list byte) :=
  set_crc {| _crc := 0; version := 7; metablock := [x6d; x65; x74; x61; x62; x6c] |}.

Definition torn_record : crc_metablock_t (list byte) :=
  {| _crc := _crc sound_record; version := 7;
     metablock := [x6d; x65; x00; xff; x62; x6c] |}.

Lemma check_crc_detects_short_corruption_witness :
  check_crc sound_record = true /\ check_crc torn_record = false.
Proof.
  split; [vm_compute; reflexivity|].
  apply (check_crc_detects_short_corruption sound_record torn_record
           [x6d; x65] [x74; x61] [x00; xff] [x62; x6c]).
  - vm_compute. reflexivity.
  - reflexivity.
  - reflexivity.
  - reflexivity.
  - reflexivity.
  - cbn. lia.
  - discriminate.
Defined.


(** *** A slot of zero bytes

    A slot that was never written holds zero bytes.  Over a payload of
    zeros the register is only shifted, so whether such a slot passes
    [check_crc] is a question about the period of the register.  Powers of
    the step are computed on tables: a linear map on 32 bits is given by
    the images of the 32 unit vectors. *)

Fixpoint apply_table (table : list Z) (x : Z) : Z :=
  match table with
  | [] => 0
  | row :: table' =>
      Z.lxor (if Z.testbit x 0 then row else 0) (apply_table table' (Z.shiftr x 1))
  end.

Definition compose (A B : list Z) : list Z := map (apply_table A) B.

Definition table_of (f : Z -> Z) (n : nat) : list Z :=
  map (fun i => f (2 ^ Z.of_nat i)) (seq 0 n).

Definition shift_table : list Z := Eval vm_compute in table_of crc32_shift 32.

(** The table of [k] steps, by repeated squaring. *)
Fixpoint pow_table (k : positive) : list Z :=
  match k with
  | xH => shift_table
  | xO k' => let m := pow_table k' in compose m m
  | xI k' => let m := pow_table k' in compose shift_table (compose m m)
  end.

Definition linear (f : Z -> Z) : Prop :=
  forall a b, f (Z.lxor a b) = Z.lxor (f a) (f b).

Ltac xor_bits :=
  apply Z.bits_inj'; intros ?i ?Hi; rewrite ?Z.lxor_spec, ?Z.bits_0;
  repeat match goal with |- context [Z.testbit ?a ?i] =>
    let b := fresh "b" in generalize (Z.testbit a i); intros b; destruct b
  end; reflexivity.

Lemma linear_0 f : linear f -> f 0 = 0.
Proof.
  intros Hf. pose proof (Hf 0 0) as H0. rewrite Z.lxor_0_l in H0.
  now rewrite Z.lxor_nilpotent in H0.
Qed.

Lemma apply_table_linear table : linear (apply_table table).
Proof.
  induction table as [|row table IH]; intros a b; cbn [apply_table].
  - reflexivity.
  - rewrite Z.lxor_spec, Z.shiftr_lxor, IH.
    destruct (Z.testbit a 0), (Z.testbit b 0); cbn [xorb]; xor_bits.
Qed.

Lemma apply_compose A B x :
  apply_table (compose A B) x = apply_table A (apply_table B x).
Proof.
  revert x. induction B as [|row B IH]; intros x; cbn [compose map apply_table].
  - symmetry. apply linear_0, apply_table_linear.
  - fold (compose A B). rewrite IH, apply_table_linear. f_equal.
    destruct (Z.testbit x 0); [reflexivity|].
    symmetry. apply linear_0, apply_table_linear.
Qed.

Lemma low_bit_and_rest x :
  x = Z.lxor (if Z.testbit x 0 then 1 else 0) (Z.shiftl (Z.shiftr x 1) 1).
Proof.
  apply Z.bits_inj'. intros i Hi. rewrite Z.lxor_spec.
  destruct (Z.eq_dec i 0) as [->|Hne].
  - rewrite Z.shiftl_spec_low by lia. rewrite xorb_false_r.
    now destruct (Z.testbit x 0).
  - rewrite Z.shiftl_spec, Z.shiftr_spec by lia.
    replace (i - 1 + 1) with i by lia.
    assert (Z.testbit (if Z.testbit x 0 then 1 else 0) i = false) as ->.
    { destruct (Z.testbit x 0); [|apply Z.bits_0].
      change 1 with (2 ^ 0). apply Z.pow2_bits_false. lia. }
    reflexivity.
Qed.

(** A linear map is its table on the numbers the table covers. *)
Lemma table_of_linear n : forall f x,
  linear f -> 0 <= x < 2 ^ Z.of_nat n -> f x = apply_table (table_of f n) x.
Proof.
  induction n as [|n IH]; intros f x Hf Hx.
  - cbn in Hx. assert (x = 0) as -> by lia. cbn. now apply linear_0.
  - unfold table_of. cbn [seq map apply_table]. rewrite <- seq_shift, map_map.
    change (2 ^ Z.of_nat 0) with 1.
    rewrite (low_bit_and_rest x) at 1. rewrite Hf. f_equal.
    + destruct (Z.testbit x 0); [reflexivity|now apply linear_0].
    + rewrite (IH (fun y => f (Z.shiftl y 1))).
      * unfold table_of. f_equal. apply map_ext. intros i. f_equal.
        rewrite Z.shiftl_mul_pow2 by lia. rewrite Nat2Z.inj_succ, Z.pow_succ_r by lia.
        lia.
      * intros a b. now rewrite Z.shiftl_lxor, Hf.
      * rewrite Z.shiftr_div_pow2 by lia. change (2 ^ 1) with 2.
        rewrite Nat2Z.inj_succ, Z.pow_succ_r in Hx by lia.
        split; [apply Z.div_pos; lia|]. apply Z.div_lt_upper_bound; lia.
Qed.

Lemma shift_table_spec x : in_register x -> apply_table shift_table x = crc32_shift x.
Proof.
  intros Hx. symmetry.
  apply (table_of_linear 32 crc32_shift x); [exact crc32_shift_lxor|exact Hx].
Qed.

Lemma pow_table_spec k : forall x,
  in_register x ->
  apply_table (pow_table k) x = Nat.iter (Pos.to_nat k) crc32_shift x.
Proof.
  induction k as [k IH|k IH|]; intros x Hx; cbn [pow_table].
  - rewrite Pos2Nat.inj_xI, Nat.iter_succ.
    replace (2 * Pos.to_nat k)%nat with (Pos.to_nat k + Pos.to_nat k)%nat by lia.
    rewrite Nat.iter_add, !apply_compose, (IH x Hx).
    rewrite (IH _ (iter_shift_range _ _ Hx)).
    apply shift_table_spec. now apply iter_shift_range, iter_shift_range.
  - rewrite Pos2Nat.inj_xO.
    replace (2 * Pos.to_nat k)%nat with (Pos.to_nat k + Pos.to_nat k)%nat by lia.
    rewrite Nat.iter_add, apply_compose, (IH x Hx).
    apply IH. now apply iter_shift_range.
  - now apply shift_table_spec.
Qed.


(** The register is back at its initial value after [k] steps. *)
Definition returns (k : Z) : Prop :=
  0 <= k /\ Nat.iter (Z.to_nat k) crc32_shift 0xFFFFFFFF = 0xFFFFFFFF.

Lemma returns_add a b : returns a -> returns b -> returns (a + b).
Proof.
  intros [Ha Hra] [Hb Hrb]. split; [lia|].
  rewrite Z2Nat.inj_add, Nat.iter_add by lia. now rewrite Hrb.
Qed.

Lemma returns_sub a b : 0 <= a -> returns (a + b) -> returns b -> returns a.
Proof.
  intros Ha [_ Hab] [Hb Hrb]. split; [exact Ha|].
  rewrite Z2Nat.inj_add, Nat.iter_add in Hab by lia. now rewrite Hrb in Hab.
Qed.

Lemma returns_mul a c : 0 <= c -> returns a -> returns (c * a).
Proof.
  intros Hc Hr. revert c Hc. apply natlike_ind.
  - split; [lia|reflexivity].
  - intros c Hc IH. replace (Z.succ c * a) with (c * a + a) by lia.
    now apply returns_add.
Qed.

Lemma returns_gcd a b : returns a -> returns b -> returns (Z.gcd a b).
Proof.
  intros Hra Hrb. pose proof Hra as [Ha _]. pose proof Hrb as [Hb _].
  pose proof (Z.gcd_nonneg a b) as Hg.
  destruct (Z.gcd_bezout a b _ eq_refl) as (u & v & Huv).
  destruct (Z.le_gt_cases 0 u) as [Hu|Hu], (Z.le_gt_cases 0 v) as [Hv|Hv].
  - rewrite <- Huv. apply returns_add; now apply returns_mul.
  - apply (returns_sub _ (- v * b)); [exact Hg| |apply returns_mul; [lia|exact Hrb]].
    replace (Z.gcd a b + - v * b) with (u * a) by lia. now apply returns_mul.
  - apply (returns_sub _ (- u * a)); [exact Hg| |apply returns_mul; [lia|exact Hra]].
    replace (Z.gcd a b + - u * a) with (v * b) by lia. now apply returns_mul.
  - assert (Z.gcd a b = 0) as -> by nia. split; [lia|reflexivity].
Qed.

(** [2 ^ 32 - 1] and its prime factors, the Fermat primes. *)
Definition full_period : Z := 4294967295.

Definition fermat_primes : list Z := [3; 5; 17; 257; 65537].

Definition no_small_divisor (q : Z) : bool :=
  forallb (fun d => (q <=? d) || negb (q mod d =? 0)) (map Z.of_nat (seq 2 255)).

Lemma no_small_divisor_irreducible q d :
  no_small_divisor q = true -> 0 < q < 66049 -> 1 < d < q -> ~ (d | q).
Proof.
  intros Hcheck Hq Hd [e He].
  assert (1 < e < q) as He' by nia.
  assert (forall c, 2 <= c <= 256 -> c < q -> q mod c <> 0) as Hsmall.
  { intros c Hc Hcq Hmod.
    assert (In c (map Z.of_nat (seq 2 255))) as Hin.
    { replace c with (Z.of_nat (Z.to_nat c)) by lia. apply in_map, in_seq. lia. }
    pose proof (proj1 (forallb_forall _ _) Hcheck c Hin) as Hc'. cbv beta in Hc'.
    rewrite Hmod in Hc'. destruct (Z.leb_spec q c); [lia|]. discriminate Hc'. }
  destruct (Z.le_gt_cases d 256) as [Hsmalld|Hbig].
  - apply (Hsmall d); [lia|lia|]. rewrite He. apply Z.mod_mul. lia.
  - apply (Hsmall e); [nia|lia|]. rewrite He, Z.mul_comm. apply Z.mod_mul. lia.
Qed.

Lemma fermat_primes_irreducible q d :
  In q fermat_primes -> 1 < d < q -> ~ (d | q).
Proof.
  intros Hq. apply no_small_divisor_irreducible;
    repeat (destruct Hq as [<-|Hq]; [vm_compute; (reflexivity || (split; reflexivity))|]);
    destruct Hq.
Qed.

(** A divisor of a product of primes, other than 1, has one of them as a
    factor. *)
Lemma divisor_has_factor (qs : list Z) (m : Z) :
  (forall q, In q qs -> 1 < q /\ forall d, 1 < d < q -> ~ (d | q)) ->
  1 < m -> (m | fold_right Z.mul 1 qs) ->
  exists q, In q qs /\ (q | m).
Proof.
  intros Hqs Hm. induction qs as [|q qs IH]; cbn [fold_right]; intros Hdiv.
  - apply Z.divide_1_r in Hdiv. lia.
  - destruct (Hqs q (or_introl eq_refl)) as [Hq Hirr].
    pose proof (Z.gcd_nonneg m q) as Hg.
    pose proof (Z.gcd_divide_l m q) as Hgm. pose proof (Z.gcd_divide_r m q) as Hgq.
    assert (Z.gcd m q <= q) as Hle by (apply Z.divide_pos_le; [lia|exact Hgq]).
    assert (Z.gcd m q <> 0) as Hnz by (intros H0; apply Z.gcd_eq_0_r in H0; lia).
    destruct (Z.eq_dec (Z.gcd m q) 1) as [Hone|Hmore].
    + destruct IH as (q' & Hin & Hq').
      * intros q' Hin. apply Hqs. now right.
      * now apply (Z.gauss m q).
      * exists q'. split; [now right|exact Hq'].
    + exists q. split; [now left|].
      destruct (Z.eq_dec (Z.gcd m q) q) as [Hfull|Hpart]; [now rewrite <- Hfull|].
      destruct (Hirr (Z.gcd m q)); [lia|exact Hgq].
Qed.

Lemma returns_after_full_period : returns full_period.
Proof.
  split; [discriminate|]. unfold full_period. rewrite Z2Nat.inj_pos.
  rewrite <- pow_table_spec by (unfold in_register; lia).
  vm_compute. reflexivity.
Qed.

Lemma not_returns_before q : In q fermat_primes -> ~ returns (full_period / q).
Proof.
  intros Hq [_ Hr].
  assert (exists k, full_period / q = Z.pos k /\
                    apply_table (pow_table k) 0xFFFFFFFF <> 0xFFFFFFFF) as (k & Hk & Hne).
  { repeat (destruct Hq as [<-|Hq];
            [eexists; split; [vm_compute; reflexivity|vm_compute; discriminate]|]).
    destruct Hq. }
  rewrite Hk, Z2Nat.inj_pos in Hr. apply Hne.
  rewrite pow_table_spec by (unfold in_register; lia). exact Hr.
Qed.

(** The register comes back to its initial value only after a multiple of
    [2 ^ 32 - 1] steps. *)
Lemma returns_period k : returns k -> (full_period | k).
Proof.
  intros Hr. pose proof (returns_gcd k full_period Hr returns_after_full_period) as Hg.
  pose proof (Z.gcd_divide_l k full_period) as Hgk.
  pose proof (Z.gcd_divide_r k full_period) as [m Hm].
  pose proof (Z.gcd_nonneg k full_period) as Hnn.
  set (g := Z.gcd k full_period) in *.
  assert (0 < g) as Hpos.
  { destruct (Z.eq_dec g 0) as [H0|]; [|lia].
    rewrite H0, Z.mul_0_r in Hm. discriminate Hm. }
  destruct (Z.eq_dec m 1) as [->|Hm1].
  - rewrite Z.mul_1_l in Hm. now rewrite Hm.
  - exfalso.
    destruct (divisor_has_factor fermat_primes m) as (q & Hq & [m' Hm']).
    + intros q Hq. split.
      * repeat (destruct Hq as [<-|Hq]; [reflexivity|]). destruct Hq.
      * intros d. now apply fermat_primes_irreducible.
    + assert (0 < m) by (apply (Z.mul_pos_cancel_r m g); [exact Hpos|now rewrite <- Hm]).
      lia.
    + exists g. rewrite Z.mul_comm. exact Hm.
    + assert (1 < q) as Hq1 by (repeat (destruct Hq as [<-|Hq]; [reflexivity|]); destruct Hq).
      apply (not_returns_before q Hq).
      assert (full_period / q = m' * g) as ->.
      { rewrite Hm, Hm'. rewrite <- Z.mul_assoc, (Z.mul_comm q), Z.mul_assoc.
        apply Z.div_mul. lia. }
      apply returns_mul; [|exact Hg].
      assert (0 < m) by (apply (Z.mul_pos_cancel_r m g); [exact Hpos|now rewrite <- Hm]).
      nia.
Qed.

Lemma register_of_zeros (bs : list byte) : forall c,
  Forall (fun b => b = x00) bs ->
  fold_left crc32_update bs c = Nat.iter (8 * length bs) crc32_shift c.
Proof.
  induction bs as [|b bs IH]; intros c Hall; [reflexivity|].
  apply Forall_cons in Hall as [-> Hall]. cbn [fold_left length].
  rewrite (IH _ Hall).
  replace (8 * S (length bs))%nat with (8 * length bs + 8)%nat by lia.
  rewrite Nat.iter_add. unfold crc32_update.
  change (byte_val x00) with 0. now rewrite Z.lxor_0_r.
Qed.

(** X13: a slot of zero bytes never passes [check_crc].  A record whose
    stored CRC is zero and whose payload consists of zero bytes, at least
    one and fewer than [2 ^ 32 - 1], fails [check_crc]. *)
Theorem zeroed_slot_fails_check_crc {metablock_t : Type}
    `{ObjectRepr metablock_t} (r : crc_metablock_t metablock_t) :
  _crc r = 0 ->
  Forall (fun b => b = x00) (object_bytes (metablock r)) ->
  0 < Z.of_nat (length (object_bytes (metablock r))) < 2 ^ 32 - 1 ->
  check_crc r = false.
Proof.
  intros Hcrc Hzero Hlen. unfold check_crc, crc. rewrite Hcrc.
  rewrite crc_optimal_is_standard_crc32. apply Z.eqb_neq. intros Heq.
  unfold standard_crc32 in Heq. symmetry in Heq. apply Z.lxor_eq in Heq.
  rewrite (register_of_zeros _ _ Hzero) in Heq.
  set (n := length (object_bytes (metablock r))) in *.
  assert (returns (8 * Z.of_nat n)) as Hr.
  { split; [lia|]. now replace (Z.to_nat (8 * Z.of_nat n)) with (8 * n)%nat by lia. }
  apply returns_period in Hr.
  apply Z.gauss in Hr; [|reflexivity].
  destruct Hr as [e He]. unfold full_period in He.
  change (2 ^ 32 - 1) with 4294967295 in Hlen. nia.
Qed.

(** A slot of 128 zero bytes. *)
Definition blank_slot : crc_metablock_t (list byte) :=
  {| _crc := 0; version := 0; metablock := repeat x00 128 |}.

Lemma zeroed_slot_fails_check_crc_witness : check_crc blank_slot = false.
Proof.
  apply (zeroed_slot_fails_check_crc blank_slot).
  - reflexivity.
  - apply Forall_forall. intros b Hb. apply list_elem_of_In in Hb.
    now apply repeat_spec in Hb.
  - vm_compute. split; reflexivity.
Defined.

End Detection.

(** ** The interrupt message over many calls

    [set_interrupt_message] may be called any number of times, before,
    between and after deliveries of the signal.  [run_calls] performs a
    sequence of such calls and deliveries and collects what the calls of
    [set_interrupt_message] return. *)

Module Interrupts.
Import ThreadPool.

Inductive pool_call :=
| call_set_interrupt_message (m : option message)
| signal_delivered.

Fixpoint run_calls (calls : list pool_call) (p : linux_thread_pool_t)
  : option (linux_thread_pool_t * list (option message)) :=
  match calls with
  | [] => Some (p, [])
  | call_set_interrupt_message m :: calls' =>
      let (o, p1) := set_interrupt_message m p in
      r ← run_calls calls' p1; Some (r.1, o :: r.2)
  | signal_delivered :: calls' =>
      p1 ← interrupt_handler p; run_calls calls' p1
  end.

(** The messages handed to [set_interrupt_message]. *)
Definition armed (calls : list pool_call) : list message :=
  omap (fun c => match c with
                 | call_set_interrupt_message m => m
                 | signal_delivered => None
                 end) calls.

(** The thread with [posted] appended to its inbox. *)
Definition with_posted (posted : list message) (t : linux_thread_t) : linux_thread_t :=
  {| external_messages := external_messages t ++ posted;
     local_messages := local_messages t;
     thread_do_shutdown := thread_do_shutdown t |}.

Lemma omap_cons_option_list {A B} (f : A -> option B) (x : A) (l : list A) :
  omap f (x :: l) = option_list (f x) ++ omap f l.
Proof. cbn. now destruct (f x). Qed.

Lemma run_calls_accounts (calls : list pool_call) : forall p t,
  threads p !! utility_thread p = Some (Some t) ->
  exists p' returned posted,
    run_calls calls p = Some (p', returned) /\
    threads p' = <[utility_thread p := Some (with_posted posted t)]> (threads p) /\
    n_threads p' = n_threads p /\
    option_list (interrupt_message p) ++ armed calls
      ≡ₚ posted ++ omap id returned ++ option_list (interrupt_message p').
Proof.
  induction calls as [|[m|] calls IH]; intros p t Ht.
  - exists p, [], []. split; [reflexivity|]. split; [|split; [reflexivity|]].
    + symmetry. apply list_insert_id. rewrite Ht. unfold with_posted.
      rewrite app_nil_r. now destruct t.
    + cbn. now rewrite app_nil_r.
  - (* a call of [set_interrupt_message] *)
    cbn [run_calls]. unfold set_interrupt_message.
    destruct (IH (set_interrupt m p) t Ht) as (p' & returned & posted & Hrun & Hths & Hn & Hperm).
    rewrite Hrun. exists p', (interrupt_message p :: returned), posted.
    split; [reflexivity|]. split; [exact Hths|]. split; [exact Hn|].
    cbn [interrupt_message set_interrupt] in Hperm.
    unfold armed in *. rewrite !omap_cons_option_list. cbn [id]. rewrite Hperm.
    rewrite <- (app_assoc (option_list (interrupt_message p))).
    apply Permutation_app_swap_app.
  - (* a delivery of the signal *)
    cbn [run_calls]. unfold armed. rewrite omap_cons_option_list. cbn [option_list app].
    fold (armed calls).
    destruct (interrupt_message p) as [msg|] eqn:Hmsg.
    + rewrite (interrupt_handler_armed p msg t Hmsg Ht). cbn [mbind option_bind].
      destruct (IH (posted msg t p) (insert_external_message msg t))
        as (p' & returned & posted' & Hrun & Hths & Hn & Hperm).
      { unfold posted. cbn [threads set_threads].
        apply list_lookup_insert_eq. now apply lookup_lt_Some in Ht. }
      exists p', returned, (msg :: posted').
      split; [exact Hrun|]. split; [|split; [exact Hn|]].
      * rewrite Hths. unfold posted. cbn [threads set_threads].
        change (utility_thread (set_threads _ (set_interrupt None p)))
          with (utility_thread p).
        rewrite list_insert_insert_eq. f_equal. f_equal.
        unfold with_posted, insert_external_message. cbn. now rewrite <- app_assoc.
      * cbn in Hperm |- *. now rewrite Hperm.
    + rewrite (interrupt_handler_idle p Hmsg). cbn [mbind option_bind].
      destruct (IH p t Ht) as (p' & returned & posted & Hrun & Hths & Hn & Hperm).
      rewrite Hmsg in Hperm. now exists p', returned, posted.
Qed.


(** X14: no interrupt message is lost or posted twice.  Over any sequence
    of calls of [set_interrupt_message] and deliveries of the signal, with
    the utility thread registered, every message (the one stored at the
    start and those handed to [set_interrupt_message]) ends up in exactly
    one place: appended to the inbox of the utility thread, returned to the
    caller whose message replaced it, or still stored in the pool.  No
    other thread is touched; and if no message was handed over twice, none
    is posted twice. *)
Theorem interrupt_messages_accounted (calls : list pool_call)
    (p : linux_thread_pool_t) (t : linux_thread_t) :
  threads p !! utility_thread p = Some (Some t) ->
  exists p' returned posted,
    run_calls calls p = Some (p', returned) /\
    threads p' !! utility_thread p = Some (Some (with_posted posted t)) /\
    (forall i, i <> utility_thread p -> threads p' !! i = threads p !! i) /\
    option_list (interrupt_message p) ++ armed calls
      ≡ₚ posted ++ omap id returned ++ option_list (interrupt_message p') /\
    (NoDup (option_list (interrupt_message p) ++ armed calls) -> NoDup posted).
Proof.
  intros Ht.
  destruct (run_calls_accounts calls p t Ht)
    as (p' & returned & posted & Hrun & Hths & _ & Hperm).
  exists p', returned, posted. split; [exact Hrun|]. rewrite Hths.
  split; [apply list_lookup_insert_eq; now apply lookup_lt_Some in Ht|].
  split; [intros i Hi; now apply list_lookup_insert_ne|].
  split; [exact Hperm|].
  intros Hnodup. rewrite Hperm in Hnodup. now apply NoDup_app in Hnodup as [Hnodup _].
Qed.

(** The pool of [interrupt_delivered_once_witness] with message 7 stored:
    a delivery, two calls (the second replaces message 8 by message 9) and
    two more deliveries. *)
Definition rearming : list pool_call :=
  [signal_delivered;
   call_set_interrupt_message (Some 8%nat);
   call_set_interrupt_message (Some 9%nat);
   signal_delivered; signal_delivered].

Lemma interrupt_messages_accounted_witness :
  exists p',
    run_calls rearming three_thread_pool = Some (p', [None; Some 8%nat]) /\
    threads p' !! 2%nat =
      Some (Some {| external_messages := [7%nat; 9%nat]; local_messages := [];
                    thread_do_shutdown := false |}).
Proof.
  destruct (interrupt_messages_accounted rearming three_thread_pool
              {| external_messages := []; local_messages := [];
                 thread_do_shutdown := false |} eq_refl)
    as (p' & returned & posted & Hrun & Hu & _).
  vm_compute in Hrun. injection Hrun as <- <-.
  eexists. split; reflexivity.
Defined.

End Interrupts.

(** ** The alarm handler of the Mach build

    Under [__MACH__], [run_thread_pool] installs [alrm_handler] for
    [SIGALRM] next to the interrupt handler and starts a timer;
    [alrm_handler] posts a new [alrm_message_t] to every thread. *)

Module Alarm.
Import ThreadPool.

Section Handler.
(** [new alrm_message_t]: the object allocated in round [i] of the loop. *)
Variable new_alrm_message_t : nat -> message.

(** [for (int i = ...; i < self->n_threads; ++i)] from [i], with [count]
    rounds to go. *)
Fixpoint alrm_loop (i count : nat) (p : linux_thread_pool_t)
  : option linux_thread_pool_t :=
  match count with
  | O => Some p
  | S count' =>
      p' ← post_external i (new_alrm_message_t i) p; alrm_loop (S i) count' p'
  end.

Definition alrm_handler (p : linux_thread_pool_t) : option linux_thread_pool_t :=
  alrm_loop 0 (Z.to_nat (n_threads p)) p.

(** The table after the rounds [i], ..., [i + count - 1]. *)
Definition ticked (i count : nat) (ths : list (option linux_thread_t))
  : list (option linux_thread_t) :=
  imap (fun j e =>
          if ((i <=? j) && (j <? i + count))%nat
          then insert_external_message (new_alrm_message_t j) <$> e
          else e) ths.

Lemma lookup_ticked i count ths j :
  ticked i count ths !! j =
  (fun e => if ((i <=? j) && (j <? i + count))%nat
            then insert_external_message (new_alrm_message_t j) <$> e
            else e) <$> ths !! j.
Proof. unfold ticked. apply list_lookup_imap. Qed.

Lemma alrm_loop_registered count : forall i p,
  (forall j, (i <= j < i + count)%nat -> exists t, threads p !! j = Some (Some t)) ->
  alrm_loop i count p = Some (set_threads (ticked i count (threads p)) p).
Proof.
  induction count as [|count IH]; intros i p Hreg.
  - cbn [alrm_loop]. f_equal.
    assert (ticked i 0 (threads p) = threads p) as ->; [|now destruct p].
    apply list_eq. intros j. rewrite lookup_ticked.
    destruct (threads p !! j) as [e|]; [|reflexivity].
    cbn [fmap option_fmap option_map]. f_equal.
    destruct (Nat.leb_spec i j), (Nat.ltb_spec j (i + 0)); try lia; reflexivity.
  - cbn [alrm_loop]. destruct (Hreg i ltac:(lia)) as [t Ht].
    unfold post_external at 1. rewrite Ht. cbn [mbind option_bind].
    rewrite IH.
    + f_equal. unfold set_threads. cbn [interrupt_message generic_blocker_pool
        n_threads do_set_affinity do_shutdown threads shutdown_cond_mutex sync_history].
      f_equal. apply list_eq. intros j. rewrite !lookup_ticked.
      destruct (Nat.eq_dec j i) as [->|Hne].
      * rewrite list_lookup_insert_eq by now apply lookup_lt_Some in Ht.
        rewrite Ht. cbn [fmap option_fmap option_map]. f_equal.
        destruct (Nat.leb_spec (S i) i), (Nat.ltb_spec i (S i + count)),
                 (Nat.leb_spec i i), (Nat.ltb_spec i (i + S count)); try lia.
        reflexivity.
      * rewrite list_lookup_insert_ne by congruence.
        destruct (threads p !! j) as [e|]; [|reflexivity].
        cbn [fmap option_fmap option_map]. f_equal.
        destruct (Nat.leb_spec (S i) j), (Nat.ltb_spec j (S i + count)),
                 (Nat.leb_spec i j), (Nat.ltb_spec j (i + S count)); try lia;
          reflexivity.
    + intros j Hj. cbn [threads set_threads].
      rewrite list_lookup_insert_ne by lia. apply Hreg. lia.
Qed.

Lemma alrm_loop_null count : forall i p k,
  (i <= k < i + count)%nat ->
  (forall t, threads p !! k <> Some (Some t)) ->
  alrm_loop i count p = None.
Proof.
  induction count as [|count IH]; intros i p k Hk Hnull; [lia|].
  cbn [alrm_loop]. unfold post_external at 1.
  destruct (threads p !! i) as [[t|]|] eqn:Ht; try reflexivity.
  cbn [mbind option_bind].
  destruct (Nat.eq_dec k i) as [->|Hne]; [now destruct (Hnull t)|].
  apply (IH (S i) _ k); [lia|].
  intros t'. cbn [threads set_threads]. rewrite list_lookup_insert_ne by congruence.
  apply Hnull.
Qed.

End Handler.

(** X15: [alrm_handler] posts one new message to every thread, the
    utility thread included: with every entry of [threads[]] set, each
    inbox grows by the message allocated for it and nothing else in the
    pool changes; with an entry that is null, the handler does not
    return. *)
Theorem alrm_handler_ticks_every_thread (new_alrm_message_t : nat -> message)
    (p : linux_thread_pool_t) :
  ((forall i, (i < Z.to_nat (n_threads p))%nat ->
      exists t, threads p !! i = Some (Some t)) ->
   exists p',
     alrm_handler new_alrm_message_t p = Some p' /\
     (forall i t, (i < Z.to_nat (n_threads p))%nat -> threads p !! i = Some (Some t) ->
        threads p' !! i =
          Some (Some {| external_messages :=
                          external_messages t ++ [new_alrm_message_t i];
                        local_messages := local_messages t;
                        thread_do_shutdown := thread_do_shutdown t |})) /\
     (forall i, (Z.to_nat (n_threads p) <= i)%nat -> threads p' !! i = threads p !! i) /\
     interrupt_message p' = interrupt_message p /\
     generic_blocker_pool p' = generic_blocker_pool p /\
     n_threads p' = n_threads p /\
     do_shutdown p' = do_shutdown p /\
     sync_history p' = sync_history p)
  /\ (forall k, (k < Z.to_nat (n_threads p))%nat ->
        (forall t, threads p !! k <> Some (Some t)) ->
        alrm_handler new_alrm_message_t p = None).
Proof.
  split.
  - intros Hreg. unfold alrm_handler.
    rewrite alrm_loop_registered by (intros j Hj; apply Hreg; lia).
    eexists. split; [reflexivity|]. cbn [threads set_threads interrupt_message
      generic_blocker_pool n_threads do_shutdown sync_history].
    split; [|split; [|repeat split]].
    + intros i t Hi Ht. rewrite lookup_ticked, Ht.
      cbn [fmap option_fmap option_map]. f_equal.
      destruct (Nat.leb_spec 0 i), (Nat.ltb_spec i (0 + Z.to_nat (n_threads p)));
        try lia. reflexivity.
    + intros i Hi. rewrite lookup_ticked.
      destruct (threads p !! i) as [e|]; [|reflexivity].
      cbn [fmap option_fmap option_map]. f_equal.
      destruct (Nat.leb_spec 0 i), (Nat.ltb_spec i (0 + Z.to_nat (n_threads p)));
        try lia; reflexivity.
  - intros k Hk Hnull. unfold alrm_handler.
    apply (alrm_loop_null _ _ _ _ k); [lia|exact Hnull].
Qed.

Lemma alrm_handler_ticks_every_thread_witness :
  exists p',
    alrm_handler (fun i => (100 + i)%nat) three_thread_pool = Some p' /\
    threads p' !! 2%nat =
      Some (Some {| external_messages := [102%nat]; local_messages := [];
                    thread_do_shutdown := false |}).
Proof.
  destruct (alrm_handler_ticks_every_thread (fun i => (100 + i)%nat) three_thread_pool)
    as [Hall _].
  destruct Hall as (p' & Hrun & Hths & _).
  - intros i Hi. destruct i as [|[|[|i]]]; cbn in Hi; try lia; eexists; reflexivity.
  - exists p'. split; [exact Hrun|].
    exact (Hths 2%nat _ ltac:(cbn; lia) eq_refl).
Defined.

End Alarm.

(** ** The affinity of the threads

    With [do_set_affinity], [run_thread_pool] pins thread [i] to the CPU
    [i % ncpus], where [ncpus] is the result of [get_cpu_count()]
    ([_GNU_SOURCE] builds). *)

Module Affinity.
Import ThreadPool.

(** [cpu_set_t] of [<sched.h>]: a set of [CPU_SETSIZE] bits; [CPU_SET]
    leaves the set alone for a CPU outside of it. *)
Definition CPU_SETSIZE : Z := 1024.

Definition cpu_set_t : Type := Z.

Definition CPU_ZERO : cpu_set_t := 0.

Definition CPU_SET (cpu : Z) (set : cpu_set_t) : cpu_set_t :=
  if (0 <=? cpu) && (cpu <? CPU_SETSIZE) then Z.lor set (Z.shiftl 1 cpu) else set.

Definition CPU_ISSET (cpu : Z) (set : cpu_set_t) : bool :=
  (0 <=? cpu) && (cpu <? CPU_SETSIZE) && Z.testbit set cpu.

(** The mask handed to [pthread_setaffinity_np] for thread [i]; there is
    none without [do_set_affinity].  [%] on [int] truncates; for
    [ncpus = 0] it is undefined. *)
Definition thread_affinity (p : linux_thread_pool_t) (ncpus : Z) (i : Z)
  : option cpu_set_t :=
  if do_set_affinity p then Some (CPU_SET (Z.rem i ncpus) CPU_ZERO) else None.

(** How many of the threads [0], ..., [n - 1] may run on CPU [c]. *)
Definition load (p : linux_thread_pool_t) (ncpus : Z) (n : nat) (c : Z) : nat :=
  length (List.filter
            (fun i => match thread_affinity p ncpus (Z.of_nat i) with
                      | Some mask => CPU_ISSET c mask
                      | None => false
                      end)
            (seq 0 n)).

Lemma CPU_ISSET_single cpu c :
  0 <= cpu < CPU_SETSIZE ->
  CPU_ISSET c (CPU_SET cpu CPU_ZERO) = (c =? cpu).
Proof.
  intros Hcpu. unfold CPU_ISSET, CPU_SET, CPU_ZERO.
  destruct (Z.leb_spec 0 cpu), (Z.ltb_spec cpu CPU_SETSIZE); try lia. cbn [andb].
  rewrite Z.lor_0_l.
  destruct (Z.eqb_spec c cpu) as [->|Hne].
  - destruct (Z.leb_spec 0 cpu), (Z.ltb_spec cpu CPU_SETSIZE); try lia. cbn [andb].
    rewrite Z.shiftl_spec by lia. now rewrite Z.sub_diag.
  - destruct (Z.leb_spec 0 c); [|reflexivity].
    rewrite Z.shiftl_spec by lia.
    destruct (Z.lt_ge_cases c cpu).
    + rewrite Z.testbit_neg_r by lia. apply andb_false_r.
    + replace (Z.testbit 1 (c - cpu)) with false; [apply andb_false_r|].
      symmetry. change 1 with (2 ^ 0). apply Z.pow2_bits_false. lia.
Qed.

Lemma thread_affinity_cpu p ncpus i c :
  do_set_affinity p = true -> 0 < ncpus <= CPU_SETSIZE -> 0 <= i ->
  match thread_affinity p ncpus i with
  | Some mask => CPU_ISSET c mask
  | None => false
  end = (c =? i mod ncpus).
Proof.
  intros Hset Hn Hi. unfold thread_affinity. rewrite Hset.
  rewrite Z.rem_mod_nonneg by lia.
  pose proof (Z.mod_pos_bound i ncpus ltac:(lia)).
  apply CPU_ISSET_single. lia.
Qed.

(** Round robin: CPU [c] gets a thread in every full round, and one more
    if the last round has reached it. *)
Lemma load_round_robin p ncpus n c :
  do_set_affinity p = true -> 0 < ncpus <= CPU_SETSIZE -> 0 <= c < ncpus ->
  Z.of_nat (load p ncpus n c) =
  Z.of_nat n / ncpus + (if c <? Z.of_nat n mod ncpus then 1 else 0).
Proof.
  intros Hset Hn Hc. unfold load. induction n as [|n IH].
  - cbn [seq List.filter length]. rewrite Z.div_0_l, Z.mod_0_l by lia.
    now destruct (Z.ltb_spec c 0); [lia|].
  - rewrite seq_S, List.filter_app, length_app, Nat2Z.inj_add, IH.
    cbn [List.filter Nat.add]. rewrite (thread_affinity_cpu p ncpus _ c Hset Hn) by lia.
    replace (Z.of_nat (S n)) with (Z.of_nat n + 1) by lia.
    pose proof (Z.div_mod (Z.of_nat n) ncpus ltac:(lia)) as Hdm.
    pose proof (Z.mod_pos_bound (Z.of_nat n) ncpus ltac:(lia)) as Hm.
    set (q := Z.of_nat n / ncpus) in *. set (r := Z.of_nat n mod ncpus) in *.
    destruct (Z.eq_dec (r + 1) ncpus) as [Hwrap|Hnowrap].
    + assert ((Z.of_nat n + 1) / ncpus = q + 1 /\ (Z.of_nat n + 1) mod ncpus = 0)
        as [-> ->].
      { apply (Z.div_mod_unique ncpus _ (q + 1) _ 0).
        - left. apply Z.mod_pos_bound; lia.
        - left. lia.
        - rewrite <- Z.div_mod by lia. lia. }
      destruct (Z.eqb_spec c r), (Z.ltb_spec c r), (Z.ltb_spec c 0); cbn [length]; lia.
    + assert ((Z.of_nat n + 1) / ncpus = q /\ (Z.of_nat n + 1) mod ncpus = r + 1)
        as [-> ->].
      { apply (Z.div_mod_unique ncpus _ q _ (r + 1)).
        - left. apply Z.mod_pos_bound; lia.
        - left. lia.
        - rewrite <- Z.div_mod by lia. lia. }
      destruct (Z.eqb_spec c r), (Z.ltb_spec c r), (Z.ltb_spec c (r + 1));
        cbn [length]; lia.
Qed.


(** X16: with [do_set_affinity] and [ncpus] CPUs (at most [CPU_SETSIZE]),
    thread [i] is pinned to the single CPU [i mod ncpus], and the threads
    are spread evenly: two CPUs differ by at most one thread, and with at
    least as many threads as CPUs no CPU is left without a thread. *)
Theorem affinity_spreads_threads_evenly (p : linux_thread_pool_t) (ncpus : Z) :
  do_set_affinity p = true -> 0 < ncpus <= CPU_SETSIZE ->
  (forall i, 0 <= i ->
     exists mask, thread_affinity p ncpus i = Some mask /\
                  forall c, CPU_ISSET c mask = true <-> c = i mod ncpus)
  /\ (forall c1 c2, 0 <= c1 < ncpus -> 0 <= c2 < ncpus ->
        (load p ncpus (Z.to_nat (n_threads p)) c1
         <= load p ncpus (Z.to_nat (n_threads p)) c2 + 1)%nat)
  /\ (ncpus <= n_threads p ->
      forall c, 0 <= c < ncpus -> (1 <= load p ncpus (Z.to_nat (n_threads p)) c)%nat).
Proof.
  intros Hset Hn. split; [|split].
  - intros i Hi. pose proof (thread_affinity_cpu p ncpus i) as Hcpu.
    destruct (thread_affinity p ncpus i) as [mask|] eqn:Hmask.
    + exists mask. split; [reflexivity|]. intros c.
      rewrite (Hcpu c Hset Hn Hi). apply Z.eqb_eq.
    + specialize (Hcpu (i mod ncpus) Hset Hn Hi). rewrite Z.eqb_refl in Hcpu.
      discriminate.
  - intros c1 c2 H1 H2.
    pose proof (load_round_robin p ncpus (Z.to_nat (n_threads p)) c1 Hset Hn H1) as L1.
    pose proof (load_round_robin p ncpus (Z.to_nat (n_threads p)) c2 Hset Hn H2) as L2.
    destruct (_ <? _), (_ <? _) in L1, L2; lia.
  - intros Hmany c Hc.
    pose proof (load_round_robin p ncpus (Z.to_nat (n_threads p)) c Hset Hn Hc) as L.
    assert (1 <= Z.of_nat (Z.to_nat (n_threads p)) / ncpus).
    { apply Z.div_le_lower_bound; lia. }
    destruct (_ <? _) in L; lia.
Qed.

(** Five threads on two CPUs. *)
Lemma affinity_spreads_threads_evenly_witness :
  load (new_linux_thread_pool_t 4 true) 2 5 0 = 3%nat /\
  load (new_linux_thread_pool_t 4 true) 2 5 1 = 2%nat /\
  (load (new_linux_thread_pool_t 4 true) 2 5 0
   <= load (new_linux_thread_pool_t 4 true) 2 5 1 + 1)%nat.
Proof.
  destruct (affinity_spreads_threads_evenly (new_linux_thread_pool_t 4 true) 2)
    as (_ & Heven & _).
  - reflexivity.
  - unfold CPU_SETSIZE. lia.
  - split; [reflexivity|]. split; [reflexivity|].
    apply (Heven 0 1); lia.
Defined.

End Affinity.

(** ** The summary of the coroutines

    In a debug build every thread leaves, at shutdown, a map from
    coroutine type to the number of coroutines of that type it ran;
    with [coroutine_summary] set, [run_thread_pool] adds the maps up and
    logs one line per type. *)

Module CoroutineSummary.

(** [size_t] arithmetic. *)
Definition size_t_wrap (z : Z) : Z := z mod 2 ^ 64.

(** [std::map<std::string, size_t>] *)
Abbreviation counts := (gmap string Z).

(** [total_coroutine_counts[j->first] += j->second;], where [operator[]]
    inserts a zero for a key that is not in the map. *)
Definition add_count (type : string) (n : Z) (total : counts) : counts :=
  <[type := size_t_wrap (default 0 (total !! type) + n)]> total.

(** The inner loop, over the map of one thread. *)
Definition add_counts (thread_counts total : counts) : counts :=
  map_fold add_count total thread_counts.

(** The outer loop, over [coroutine_counts[0]], ...,
    [coroutine_counts[n_threads - 1]], from an empty map. *)
Definition total_coroutine_counts (coroutine_counts : list counts) : counts :=
  foldl (fun total thread_counts => add_counts thread_counts total) ∅ coroutine_counts.

(** The arguments of [logDBG("%ld coroutines ran with type %s", ...)],
    one pair per entry of the total; nothing is logged unless
    [enable_coroutine_summary] was called. *)
Definition coroutine_summary_lines (coroutine_summary : bool)
    (coroutine_counts : list counts) : list (Z * string) :=
  if coroutine_summary then
    (fun e => (e.2, e.1)) <$> map_to_list (total_coroutine_counts coroutine_counts)
  else [].

(** The count of one type, thread after thread. *)
Definition tally (type : string) (o : option Z) (thread_counts : counts) : option Z :=
  match thread_counts !! type with
  | Some n => Some (size_t_wrap (default 0 o + n))
  | None => o
  end.

Lemma add_counts_lookup thread_counts total type :
  add_counts thread_counts total !! type = tally type (total !! type) thread_counts.
Proof.
  unfold add_counts, tally. revert type.
  apply (map_fold_weak_ind
           (fun r m => forall type,
              r !! type = match m !! type with
                          | Some n => Some (size_t_wrap (default 0 (total !! type) + n))
                          | None => total !! type
                          end)).
  - intros type. now rewrite lookup_empty.
  - intros i x m r Hi IH type. unfold add_count.
    destruct (decide (i = type)) as [->|Hne].
    + rewrite !lookup_insert_eq. now rewrite IH, Hi.
    + rewrite !lookup_insert_ne by exact Hne. apply IH.
Qed.

Lemma total_lookup coroutine_counts type : forall total,
  foldl (fun total thread_counts => add_counts thread_counts total) total coroutine_counts
    !! type
  = foldl (tally type) (total !! type) coroutine_counts.
Proof.
  induction coroutine_counts as [|m ms IH]; intros total; [reflexivity|].
  cbn [foldl]. now rewrite IH, add_counts_lookup.
Qed.

(** The sum over the threads of the counts of one type. *)
Definition sum_of_counts (type : string) (coroutine_counts : list counts) : Z :=
  foldr (fun thread_counts acc => default 0 (thread_counts !! type) + acc) 0
        coroutine_counts.

Lemma tally_total type ms : forall o,
  foldl (tally type) o ms =
  if bool_decide (Forall (fun m : counts => m !! type = None) ms) then o
  else Some (size_t_wrap (default 0 o + sum_of_counts type ms)).
Proof.
  induction ms as [|m ms IH]; intros o.
  - now rewrite bool_decide_eq_true_2 by constructor.
  - cbn [foldl sum_of_counts foldr]. rewrite IH. fold (sum_of_counts type ms).
    unfold tally.
    destruct (m !! type) as [n|] eqn:Hm; cbn [from_option id].
    + rewrite (bool_decide_eq_false_2 (Forall _ (m :: ms)))
        by (intros Hall; apply Forall_cons in Hall as [Hnone _]; congruence).
      case_bool_decide as Hall.
      * assert (sum_of_counts type ms = 0) as ->.
        { clear -Hall. induction Hall as [|m' ms' Hnone _ IH']; [reflexivity|].
          cbn [sum_of_counts foldr]. fold (sum_of_counts type ms').
          now rewrite Hnone, IH'. }
        now rewrite Z.add_0_r.
      * f_equal. unfold size_t_wrap. rewrite Z.add_mod_idemp_l by lia.
        f_equal. lia.
    + case_bool_decide as Hall.
      * now rewrite bool_decide_eq_true_2 by now constructor.
      * rewrite bool_decide_eq_false_2; [reflexivity|].
        intros Hall'. apply Forall_cons in Hall' as [_ Hall']. contradiction.
Qed.


(** X17: the total of a coroutine type is the sum, in [size_t]
    arithmetic, of its counts over the threads; a type that no thread ran
    is not in the total; with [coroutine_summary] set there is one line
    for every type of the total, carrying its count, and no line
    otherwise. *)
Theorem coroutine_totals_are_sums (coroutine_counts : list counts) (type : string) :
  (total_coroutine_counts coroutine_counts !! type = None <->
   Forall (fun m : counts => m !! type = None) coroutine_counts)
  /\ (forall n, total_coroutine_counts coroutine_counts !! type = Some n ->
        n = size_t_wrap (sum_of_counts type coroutine_counts))
  /\ (forall n, (n, type) ∈ coroutine_summary_lines true coroutine_counts <->
        total_coroutine_counts coroutine_counts !! type = Some n)
  /\ NoDup (snd <$> coroutine_summary_lines true coroutine_counts)
  /\ coroutine_summary_lines false coroutine_counts = [].
Proof.
  assert (total_coroutine_counts coroutine_counts !! type =
          if bool_decide (Forall (fun m : counts => m !! type = None) coroutine_counts)
          then None
          else Some (size_t_wrap (sum_of_counts type coroutine_counts))) as Htotal.
  { unfold total_coroutine_counts. rewrite total_lookup, lookup_empty, tally_total.
    reflexivity. }
  split; [|split; [|split; [|split; [|reflexivity]]]].
  - rewrite Htotal. case_bool_decide; [tauto|]. split; [discriminate|contradiction].
  - intros n. rewrite Htotal. case_bool_decide; [discriminate|]. now intros [= <-].
  - intros n. unfold coroutine_summary_lines. rewrite list_elem_of_fmap. split.
    + intros ([k v] & [= -> ->] & Hin). now apply elem_of_map_to_list in Hin.
    + intros Hn. exists (type, n). split; [reflexivity|].
      now apply elem_of_map_to_list.
  - unfold coroutine_summary_lines. rewrite <- list_fmap_compose.
    apply (NoDup_fst_map_to_list (total_coroutine_counts coroutine_counts)).
Qed.

End CoroutineSummary.
